(** * APIScout: ingestion, deduplication and persistence pipeline

    A shallow embedding of the JavaScript sources of APIScout:

    - [extension/services/RequestProcessor.js] (classification, root domains),
    - [extension/services/FingerprintEngine.js] (fingerprints, session cache,
      request buffer),
    - [extension/services/ServerAPI.js] (the retry queue of the uploads),
    - [backend/utils/ExtensionFilter.js] (pre-filter, fingerprints),
    - [backend/models/LogStore.js] (deduplicating store, debounced persistence),
    - [backend/routes/logRoutes.js] (the ingest, query and clear handlers).

    A JavaScript string is modelled as the Rocq string of its UTF-8 bytes;
    the case conversions [toLowerCase] and [toUpperCase] act on the ASCII
    letters, which is what they do on URL path names, host names and HTTP
    method tokens.  Numbers are integers ([Z]); where the sources add
    numbers that a request supplies, the sum is rounded as the sum of two
    doubles is.  [Date.now()] is an explicit argument, timers, console and
    file system are explicit components of the state. *)

From Stdlib Require Import ZArith Lia List Bool Ascii String Permutation Sorted.
From stdpp Require Import gmap strings list.

Local Open Scope Z_scope.

(** ** JavaScript string primitives *)

Module Js.

(** [String.prototype.toLowerCase] on one ASCII code unit. *)
Definition lower_char (c : ascii) : ascii :=
  let n := nat_of_ascii c in
  if (Nat.leb 65 n && Nat.leb n 90)%bool then ascii_of_nat (n + 32) else c.

(** [String.prototype.toUpperCase] on one ASCII code unit. *)
Definition upper_char (c : ascii) : ascii :=
  let n := nat_of_ascii c in
  if (Nat.leb 97 n && Nat.leb n 122)%bool then ascii_of_nat (n - 32) else c.

Fixpoint toLowerCase (s : string) : string :=
  match s with
  | EmptyString => EmptyString
  | String c r => String (lower_char c) (toLowerCase r)
  end.

Fixpoint toUpperCase (s : string) : string :=
  match s with
  | EmptyString => EmptyString
  | String c r => String (upper_char c) (toUpperCase r)
  end.

(** [s.startsWith(p)]. *)
Fixpoint startsWith (p s : string) : bool :=
  match p, s with
  | EmptyString, _ => true
  | String a p', String b s' => Ascii.eqb a b && startsWith p' s'
  | String _ _, EmptyString => false
  end.

(** [s.includes(w)]: [w] occurs at some position of [s]. *)
Fixpoint includes (w s : string) : bool :=
  startsWith w s ||
  match s with
  | EmptyString => false
  | String _ r => includes w r
  end.

(** [s.split(sep)] for a one-character separator: never the empty array,
    [''.split('.')] is [['']]. *)
Fixpoint split (sep : ascii) (s : string) : list string :=
  match s with
  | EmptyString => [EmptyString]
  | String c r =>
      if Ascii.eqb c sep then EmptyString :: split sep r
      else match split sep r with
           | h :: t => String c h :: t
           | [] => [String c EmptyString]
           end
  end.

(** [parts.join(sep)]. *)
Fixpoint join (sep : string) (parts : list string) : string :=
  match parts with
  | [] => EmptyString
  | [p] => p
  | p :: rest => p +:+ sep +:+ join sep rest
  end.

(** [arr.slice(-k)]: the last [k] elements, the whole array when it is
    shorter. *)
Definition slice_last {A} (k : nat) (l : list A) : list A :=
  drop (length l - k) l.

(** [arr.pop()] of a non-empty array (the result of a [split]). *)
Definition pop (l : list string) : string := List.last l EmptyString.

(** [arr.includes(x)] on an array of strings. *)
Definition arr_includes (x : string) (l : list string) : bool :=
  existsb (String.eqb x) l.

(** Decimal rendering of [String(n)] for an integer [n >= 0]. *)
Definition digit_char (d : Z) : ascii := ascii_of_nat (48 + Z.to_nat d).

Fixpoint digits_fuel (fuel : nat) (n : Z) (acc : string) : string :=
  match fuel with
  | O => acc
  | S f =>
      let acc' := String (digit_char (n mod 10)) acc in
      if n / 10 =? 0 then acc' else digits_fuel f (n / 10) acc'
  end.

Definition String_of_Z (n : Z) : string :=
  if n <? 0 then String "-"%char (digits_fuel (S (Z.to_nat (Z.log2 (- n)))) (- n) EmptyString)
  else digits_fuel (S (Z.to_nat (Z.log2 n))) n EmptyString.

(** [s.endsWith(suffix)]. *)
Fixpoint endsWith (suffix s : string) : bool :=
  String.eqb suffix s ||
  match s with
  | EmptyString => false
  | String _ r => endsWith suffix r
  end.

(** [s.trim() === '']: the string holds nothing but white space and line
    terminators.  In UTF-8 these are the bytes 9 to 13 and 32, U+00A0
    (C2 A0), U+1680 (E1 9A 80), U+2000 to U+200A, U+2028, U+2029 and
    U+202F (E2 80 ..), U+205F (E2 81 9F), U+3000 (E3 80 80) and U+FEFF
    (EF BB BF). *)
Definition ascii_space (n : nat) : bool :=
  (Nat.leb 9 n && Nat.leb n 13) || Nat.eqb n 32.

Definition space_2 (a b : nat) : bool :=
  Nat.eqb a 194 && Nat.eqb b 160.

Definition space_3 (a b c : nat) : bool :=
  (Nat.eqb a 225 && Nat.eqb b 154 && Nat.eqb c 128)
  || (Nat.eqb a 226 && Nat.eqb b 128
      && ((Nat.leb 128 c && Nat.leb c 138) || Nat.eqb c 168 || Nat.eqb c 169
          || Nat.eqb c 175))
  || (Nat.eqb a 226 && Nat.eqb b 129 && Nat.eqb c 159)
  || (Nat.eqb a 227 && Nat.eqb b 128 && Nat.eqb c 128)
  || (Nat.eqb a 239 && Nat.eqb b 187 && Nat.eqb c 191).

Fixpoint trims_to_empty (s : string) : bool :=
  match s with
  | EmptyString => true
  | String a r =>
      if ascii_space (nat_of_ascii a) then trims_to_empty r
      else
        match r with
        | String b r' =>
            if space_2 (nat_of_ascii a) (nat_of_ascii b) then trims_to_empty r'
            else
              match r' with
              | String c r'' =>
                  space_3 (nat_of_ascii a) (nat_of_ascii b) (nat_of_ascii c)
                  && trims_to_empty r''
              | EmptyString => false
              end
        | EmptyString => false
        end
  end.

(** [arr.sort(compare)]: the sort is stable, [a] stays before [b] unless
    [compare(a, b)] is positive. *)
Fixpoint sort_insert {A} (compare : A -> A -> Z) (a : A) (l : list A) : list A :=
  match l with
  | [] => [a]
  | b :: rest =>
      if compare a b <=? 0 then a :: b :: rest
      else b :: sort_insert compare a rest
  end.

Fixpoint sort {A} (compare : A -> A -> Z) (l : list A) : list A :=
  match l with
  | [] => []
  | a :: rest => sort_insert compare a (sort compare rest)
  end.

(** [arr.slice(start, end)] for integers [0 <= start <= end]. *)
Definition slice {A} (start stop : Z) (l : list A) : list A :=
  take (Z.to_nat (stop - start)) (drop (Z.to_nat start) l).

(** The double nearest to the integer [z].  A double carries 53
    significant bits: the integers up to [2 ^ 53] in magnitude are doubles
    themselves, a larger one lies between two neighbouring multiples of
    [ulp], the weight of the last of its 53 leading bits, and is rounded to
    the nearer of them, to the one with the even multiplier when it lies
    half-way. *)
Definition to_double (z : Z) : Z :=
  if Z.abs z <=? 2 ^ 53 then z
  else
    let ulp := 2 ^ (Z.log2 (Z.abs z) - 52) in
    let q := Z.abs z / ulp in
    let r := Z.abs z mod ulp in
    let q := if 2 * r <? ulp then q
             else if ulp <? 2 * r then q + 1
             else if Z.even q then q else q + 1 in
    Z.sgn z * (q * ulp).

(** [a + b] on two numbers that are integers: the exact sum, rounded to
    the nearest double (sums of a magnitude below [2 ^ 1024], beyond which
    a double is infinite). *)
Definition plus (a b : Z) : Z := to_double (a + b).

End Js.

(** ** Regular expressions

    The fragment of JavaScript regular expressions the sources use:
    characters, [\d], concatenation, [|], [?] and [+], with the [i] flag.
    [test] is [RegExp.prototype.test] for a pattern without the [g] flag:
    is there a match starting at some position of the input. *)

Module Regex.

Inductive re : Type :=
| Eps
| Chr (c : ascii)
| Digit
| Seq (a b : re)
| Alt (a b : re)
| Opt (a : re)
| Plus (a : re).

(** A literal run of characters. *)
Fixpoint lit (s : string) : re :=
  match s with
  | EmptyString => Eps
  | String c EmptyString => Chr c
  | String c r => Seq (Chr c) (lit r)
  end.

(** [a|b|...] over literals. *)
Fixpoint alts (l : list string) : re :=
  match l with
  | [] => Eps
  | [s] => lit s
  | s :: rest => Alt (lit s) (alts rest)
  end.

Definition is_digit (c : ascii) : bool :=
  let n := nat_of_ascii c in (Nat.leb 48 n && Nat.leb n 57)%bool.

(** Canonicalisation of a code unit under the [i] flag. *)
Definition canon (ignoreCase : bool) (c : ascii) : ascii :=
  if ignoreCase then Js.upper_char c else c.

(** Iteration of a one-step matcher for [+]; every further round has to
    consume input, [fuel] bounds the rounds by the input length. *)
Fixpoint plus_iter (step : string -> list string) (fuel : nat) (s : string)
  : list string :=
  flat_map
    (fun s' =>
       (match fuel with
        | O => []
        | S f =>
            if Nat.ltb (String.length s') (String.length s)
            then plus_iter step f s' else []
        end) ++ [s'])
    (step s).

(** All the ways [r] matches a prefix of [s]: the remainders, in the
    order a backtracking matcher tries them. *)
Fixpoint match_prefix (ic : bool) (r : re) (s : string) : list string :=
  match r with
  | Eps => [s]
  | Chr c =>
      match s with
      | String a s' => if Ascii.eqb (canon ic a) (canon ic c) then [s'] else []
      | EmptyString => []
      end
  | Digit =>
      match s with
      | String a s' => if is_digit a then [s'] else []
      | EmptyString => []
      end
  | Seq a b => flat_map (match_prefix ic b) (match_prefix ic a s)
  | Alt a b => match_prefix ic a s ++ match_prefix ic b s
  | Opt a => match_prefix ic a s ++ [s]
  | Plus a => plus_iter (match_prefix ic a) (String.length s) s
  end.

Definition matches_at (ic : bool) (r : re) (s : string) : bool :=
  match match_prefix ic r s with [] => false | _ :: _ => true end.

Fixpoint test (ic : bool) (r : re) (s : string) : bool :=
  matches_at ic r s ||
  match s with
  | EmptyString => false
  | String _ rest => test ic r rest
  end.

End Regex.

(** ** SHA-256

    The hash function behind both [crypto.createHash('sha256')] (Node) and
    [crypto.subtle.digest('SHA-256', ...)] (WebCrypto): FIPS 180-4 on
    32-bit words, a word being a [Z] below [2^32], a byte a [Z] below 256. *)

Module SHA256.

Definition w32 (x : Z) : Z := Z.land x 0xFFFFFFFF.
Definition add32 (x y : Z) : Z := w32 (x + y).
Definition rotr (n x : Z) : Z :=
  Z.lor (Z.shiftr x n) (w32 (Z.shiftl x (32 - n))).
Definition not32 (x : Z) : Z := Z.lxor x 0xFFFFFFFF.

Definition Ch (x y z : Z) : Z := Z.lxor (Z.land x y) (Z.land (not32 x) z).
Definition Maj (x y z : Z) : Z :=
  Z.lxor (Z.lxor (Z.land x y) (Z.land x z)) (Z.land y z).
Definition Sigma0 (x : Z) : Z := Z.lxor (Z.lxor (rotr 2 x) (rotr 13 x)) (rotr 22 x).
Definition Sigma1 (x : Z) : Z := Z.lxor (Z.lxor (rotr 6 x) (rotr 11 x)) (rotr 25 x).
Definition sigma0 (x : Z) : Z := Z.lxor (Z.lxor (rotr 7 x) (rotr 18 x)) (Z.shiftr x 3).
Definition sigma1 (x : Z) : Z := Z.lxor (Z.lxor (rotr 17 x) (rotr 19 x)) (Z.shiftr x 10).

(** The constants are taken from the first primes: a round constant is
    the first 32 bits of the fractional part of the cube root of a prime,
    an initial hash word the same of its square root. *)
Definition is_prime (p : Z) : bool :=
  forallb (fun d => negb (p mod d =? 0)) (seqZ 2 (p - 2)).

Definition first_primes (n : nat) : list Z :=
  take n (List.filter is_prime (seqZ 2 400)).

(** The integer cube root, one bit at a time from bit [bits - 1] down. *)
Fixpoint cube_root (bits : nat) (n r : Z) : Z :=
  match bits with
  | O => r
  | S b =>
      let r' := r + 2 ^ Z.of_nat b in
      cube_root b n (if r' * r' * r' <=? n then r' else r)
  end.

Definition K : list Z :=
  Eval vm_compute in
    map (fun p => w32 (cube_root 36 (p * 2 ^ 96) 0)) (first_primes 64).

Definition H0 : list Z :=
  Eval vm_compute in
    map (fun p => w32 (Z.sqrt (p * 2 ^ 64))) (first_primes 8).

(** Big-endian bytes of a [n]-byte quantity. *)
Fixpoint be_bytes (n : nat) (x : Z) : list Z :=
  match n with
  | O => []
  | S k => Z.land (Z.shiftr x (8 * Z.of_nat k)) 0xFF :: be_bytes k x
  end.

(** Padding: a [0x80] byte, zeros up to 56 modulo 64, the bit length on
    eight bytes. *)
Definition pad (msg : list Z) : list Z :=
  let len := Z.of_nat (length msg) in
  let zeros := Z.to_nat ((55 - len) mod 64) in
  msg ++ [0x80] ++ repeat 0 zeros ++ be_bytes 8 (8 * len).

Fixpoint words (fuel : nat) (bytes : list Z) : list Z :=
  match fuel, bytes with
  | S f, b0 :: b1 :: b2 :: b3 :: rest =>
      (Z.shiftl b0 24 + Z.shiftl b1 16 + Z.shiftl b2 8 + b3) :: words f rest
  | _, _ => []
  end.

(** The message schedule, most recent word first. *)
Fixpoint extend (n : nat) (rev_w : list Z) : list Z :=
  match n with
  | O => rev_w
  | S k =>
      let w t := nth t rev_w 0 in
      extend k (add32 (add32 (sigma1 (w 1%nat)) (w 6%nat))
                      (add32 (sigma0 (w 14%nat)) (w 15%nat)) :: rev_w)
  end.

Definition schedule (block : list Z) : list Z := rev (extend 48 (rev block)).

Definition round (st : list Z) (kw : Z * Z) : list Z :=
  match st with
  | [a; b; c; d; e; f; g; h] =>
      let t1 := add32 (add32 (add32 h (Sigma1 e)) (add32 (Ch e f g) (fst kw))) (snd kw) in
      let t2 := add32 (Sigma0 a) (Maj a b c) in
      [add32 t1 t2; a; b; c; add32 d t1; e; f; g]
  | _ => st
  end.

Definition compress (h : list Z) (block : list Z) : list Z :=
  let st := fold_left round (combine K (schedule block)) h in
  map (fun p => add32 (fst p) (snd p)) (combine h st).

Fixpoint blocks (fuel : nat) (ws : list Z) (h : list Z) : list Z :=
  match fuel, ws with
  | S f, _ :: _ => blocks f (skipn 16 ws) (compress h (firstn 16 ws))
  | _, _ => h
  end.

(** The 32 digest bytes of a message given as bytes. *)
Definition digest (msg : list Z) : list Z :=
  let padded := pad msg in
  let ws := words (length padded) padded in
  flat_map (be_bytes 4) (blocks (length ws) ws H0).

End SHA256.

(** ** ExtensionFilter.js (backend) *)

Module ExtensionFilter.

(** [static IGNORE_EXTENSIONS]. *)
Definition IGNORE_EXTENSIONS : gset string :=
  list_to_set
    [ "jpg"; "jpeg"; "png"; "gif"; "svg"; "webp";
      "css";
      "woff"; "woff2"; "ttf"; "eot"; "otf";
      "mp4"; "mp3"; "webm"; "ogg"; "m4a"; "aac"; "flac";
      "ico"; "map";
      "zip"; "tar"; "gz"; "7z"; "rar";
      "pdf"; "doc"; "docx"; "xls"; "xlsx" ].

(** [static NOISE_PATTERNS], in the order of the source. *)
Definition NOISE_PATTERNS : list Regex.re :=
  [ Regex.lit "/xjs/";
    Regex.lit "/_/js/";
    Regex.lit "/collect";
    Regex.lit "/log?";
    Regex.lit "$rpc/google.internal";
    Regex.lit "/gen_204";
    Regex.lit "/fp_204";
    Regex.lit "/complete/search";
    Regex.lit "/js/";
    Regex.lit "/css/";
    Regex.Seq (Regex.lit "/image") (Regex.Seq (Regex.Opt (Regex.Chr "s")) (Regex.Chr "/"));
    Regex.lit "/static/";
    Regex.lit "/assets/";
    Regex.Seq (Regex.lit "/font") (Regex.Seq (Regex.Opt (Regex.Chr "s")) (Regex.Chr "/")) ].

(** The extension test of [shouldIgnore]: the text after the last dot,
    lower-cased, is in [IGNORE_EXTENSIONS]. *)
Definition has_ignored_extension (normalizedPath : string) : bool :=
  let ext := Js.toLowerCase (Js.pop (Js.split "."%char normalizedPath)) in
  bool_decide (ext ∈ IGNORE_EXTENSIONS).

(** The noise test of [shouldIgnore]. *)
Definition matches_noise (normalizedPath : string) : bool :=
  existsb (fun pattern => Regex.test false pattern normalizedPath) NOISE_PATTERNS.

(** [static shouldIgnore(method, hostname, normalizedPath)]. *)
Definition shouldIgnore (method hostname normalizedPath : string) : bool :=
  if has_ignored_extension normalizedPath then true
  else if matches_noise normalizedPath then true
  else false.

(** The UTF-8 bytes of a string: what [TextEncoder.encode] and
    [hash.update(string)] feed to the hash. *)
Definition utf8 (s : string) : list Z :=
  map (fun c => Z.of_nat (nat_of_ascii c)) (list_ascii_of_string s).

(** Node's ['hex'] encoding of a buffer: two characters of
    [0123456789abcdef] per byte, high nibble first. *)
Definition hex_digit (d : Z) : ascii :=
  nth (Z.to_nat d) (list_ascii_of_string "0123456789abcdef") "0"%char.

Fixpoint hex (bytes : list Z) : string :=
  match bytes with
  | [] => EmptyString
  | b :: rest =>
      String (hex_digit (Z.shiftr b 4)) (String (hex_digit (Z.land b 15)) (hex rest))
  end.

(** [static generateFingerprint(method, hostname, normalizedPath)]:
    [crypto.createHash('sha256').update(combined).digest('hex')]. *)
Definition generateFingerprint (method hostname normalizedPath : string) : string :=
  let combined := method +:+ ":" +:+ hostname +:+ ":" +:+ normalizedPath in
  hex (SHA256.digest (utf8 combined)).

(** [static getRootDomain(hostname)]. *)
Definition getRootDomain (hostname : string) : string :=
  let parts := Js.split "."%char hostname in
  if Nat.leb (length parts) 2 then hostname
  else Js.join "." (Js.slice_last 2 parts).

End ExtensionFilter.

(** ** Config.js and RequestProcessor.js (capture side) *)

Module Config.

(** [CONFIG.ACTION_WORDS], with the repeated ['api'] of the source. *)
Definition ACTION_WORDS : list string :=
  [ "login"; "auth"; "user"; "checkout"; "order";
    "signup"; "payment"; "api"; "api"; "profile";
    "account"; "transaction"; "purchase" ].

Definition FINGERPRINT_THRESHOLD : Z := 1.
Definition SESSION_FINGERPRINT_LIMIT : nat := 1000.

(** [CONFIG.IGNORE_EXTENSIONS] and [CONFIG.IGNORE_RESOURCE_TYPES] of the
    capture side. *)
Definition IGNORE_EXTENSIONS : gset string :=
  list_to_set
    [ "jpg"; "jpeg"; "png"; "gif"; "svg"; "webp";
      "css";
      "woff"; "woff2"; "ttf"; "eot";
      "mp4"; "mp3"; "webm"; "ogg";
      "ico"; "map" ].

Definition IGNORE_RESOURCE_TYPES : gset string :=
  list_to_set [ "image"; "font"; "stylesheet"; "media" ].

Definition REQUEST_BUFFER_TTL : Z := 60000.

End Config.

Module RequestProcessor.

(** [getRootDomain(hostname)]. *)
Definition getRootDomain (hostname : string) : string :=
  let parts := Js.split "."%char hostname in
  if Nat.leb (length parts) 2 then hostname
  else Js.join "." (Js.slice_last 2 parts).

(** [isSameDomain(hostname1, hostname2)]: strict equality of the two root
    domains. *)
Definition isSameDomain (hostname1 hostname2 : string) : bool :=
  String.eqb (getRootDomain hostname1) (getRootDomain hostname2).

(** Truthiness of a string and of a number. *)
Definition truthy_string (s : string) : bool := negb (String.eqb s "").
Definition truthy_number (n : Z) : bool := negb (n =? 0).

(** [hasActionWords(path)]. *)
Definition hasActionWords (path : string) : bool :=
  if negb (truthy_string path) then false
  else
    let pathLower := Js.toLowerCase path in
    existsb (fun word => Js.includes word pathLower) Config.ACTION_WORDS.

(** [isStateChangingMethod(method)], as the condition an [if] sees. *)
Definition isStateChangingMethod (method : string) : bool :=
  let stateChangingMethods := [ "POST"; "PUT"; "DELETE"; "PATCH" ] in
  truthy_string method
  && Js.arr_includes (Js.toUpperCase method) stateChangingMethods.

(** [statusCode && String(statusCode).startsWith(d)]. *)
Definition status_starts_with (d : string) (statusCode : Z) : bool :=
  truthy_number statusCode && Js.startsWith d (Js.String_of_Z statusCode).

(** [/login|logout|signin|signup|auth|session/i] *)
Definition AUTH_PATTERN : Regex.re :=
  Regex.alts [ "login"; "logout"; "signin"; "signup"; "auth"; "session" ].

(** [/\/api\/|\/v\d+\/|\/graphql/i] *)
Definition API_PATTERN : Regex.re :=
  Regex.Alt (Regex.lit "/api/")
    (Regex.Alt
       (Regex.Seq (Regex.lit "/v") (Regex.Seq (Regex.Plus Regex.Digit) (Regex.Chr "/")))
       (Regex.lit "/graphql")).

(** [/analytics|tracking|telemetry|beacon|pixel|metric/i] *)
Definition INFRA_PATTERN : Regex.re :=
  Regex.alts [ "analytics"; "tracking"; "telemetry"; "beacon"; "pixel"; "metric" ].

Record classification : Type := {
  tags : list string;
  score : Z;
  critical : bool
}.

(** [tags.push(t)] under a condition. *)
Definition push_if (c : bool) (t : string) (tags : list string) : list string :=
  if c then tags ++ [t] else tags.

(** [classifyRequest(method, normalizedPath, hostname, statusCode,
    isPrimaryContext)]. *)
Definition classifyRequest (method normalizedPath hostname : string)
    (statusCode : Z) (isPrimaryContext : bool) : classification :=
  let path := if truthy_string normalizedPath then normalizedPath else "" in
  let tags := [] in
  let tags := push_if (status_starts_with "5" statusCode) "server-error" tags in
  let tags := push_if (status_starts_with "4" statusCode) "client-error" tags in
  let tags := push_if (Regex.test true AUTH_PATTERN path) "authentication" tags in
  let tags := push_if (Regex.test true API_PATTERN path) "api-endpoint" tags in
  let tags := push_if (isStateChangingMethod method) "state-change" tags in
  let tags := push_if (Regex.test true INFRA_PATTERN path) "infrastructure" tags in
  let tags := push_if (hasActionWords path) "business-logic" tags in
  let tags := if isPrimaryContext then tags ++ ["primary-context"]
              else tags ++ ["cross-origin"] in
  let score := 0 in
  let score := if isStateChangingMethod method then score + 30 else score in
  let score := if hasActionWords path then score + 25 else score in
  let score := if Js.arr_includes "authentication" tags then score + 20 else score in
  let score := if Js.arr_includes "api-endpoint" tags then score + 15 else score in
  let score := if status_starts_with "5" statusCode then score + 10 else score in
  {| tags := tags; score := score; critical := 50 <=? score |}.

(** What [new URL(url)] yields, as far as the processor reads it. *)
Record URL : Type := { hostname : string; pathname : string }.

(** [shouldIgnoreRequest(url, resourceType)]; [url] is the object
    [new URL(url)] constructs, [None] when the constructor throws, and
    [resourceType] is [None] when [details.type] is undefined. *)
Definition shouldIgnoreRequest (url : option URL) (resourceType : option string)
  : bool :=
  let local :=
    match url with
    | Some urlObj =>
        let hostname := Js.toLowerCase (hostname urlObj) in
        Js.includes "localhost" hostname || Js.includes "127.0.0.1" hostname
        || String.eqb hostname "[::1]"
    | None => false
    end in
  if local then true
  else if match resourceType with
          | Some type => truthy_string type && bool_decide (type ∈ Config.IGNORE_RESOURCE_TYPES)
          | None => false
          end
  then true
  else if match url with
          | Some urlObj =>
              let pathname := Js.toLowerCase (pathname urlObj) in
              let ext := Js.pop (Js.split "."%char pathname) in
              bool_decide (ext ∈ Config.IGNORE_EXTENSIONS)
          | None => false
          end
  then true
  else false.

(** [getNormalizedPath(url)], on the same reading of [url]. *)
Definition getNormalizedPath (url : option URL) : string :=
  match url with
  | Some urlObj => Js.toLowerCase (pathname urlObj)
  | None => ""
  end.

(** The character class [[a-zA-Z0-9_-]]. *)
Definition word_char (c : ascii) : bool :=
  let n := nat_of_ascii c in
  (Nat.leb 97 n && Nat.leb n 122) || (Nat.leb 65 n && Nat.leb n 90)
  || (Nat.leb 48 n && Nat.leb n 57) || Nat.eqb n 95 || Nat.eqb n 45.

(** [path.replace(/[a-zA-Z0-9_-]+/g, 'X')]: scanning from the left, every
    maximal run of characters of the class becomes one [X]; [in_run]
    tells that the character before belongs to a run already replaced. *)
Fixpoint replace_runs (in_run : bool) (path : string) : string :=
  match path with
  | EmptyString => EmptyString
  | String c rest =>
      if word_char c then
        if in_run then replace_runs true rest
        else String "X" (replace_runs true rest)
      else String c (replace_runs false rest)
  end.

(** [createSkeleton(path)]. *)
Definition createSkeleton (path : string) : string := replace_runs false path.

(** The [details] object [assignTags] reads; a property may be missing. *)
Record details : Type := {
  details_hostname : option string;
  details_normalizedPath : option string;
  details_method : option string
}.

(** [x || ''] on an optional string. *)
Definition string_or_empty (x : option string) : string := default "" x.

(** [assignTags(details, statusCode)]. *)
Definition assignTags (d : details) (statusCode : Z) : list string :=
  let tags := [] in
  let hostname := string_or_empty (details_hostname d) in
  let path := string_or_empty (details_normalizedPath d) in
  let method := string_or_empty (details_method d) in
  let tags := push_if (status_starts_with "5" statusCode) "server-error" tags in
  let tags := push_if (Regex.test true AUTH_PATTERN path) "authentication" tags in
  let tags := push_if (Regex.test true API_PATTERN path) "api-endpoint" tags in
  let tags := push_if (isStateChangingMethod method) "state-change" tags in
  let tags := push_if (Regex.test true INFRA_PATTERN path) "infrastructure" tags in
  tags.

End RequestProcessor.

(** ** FingerprintEngine.js (capture side) *)

Module FingerprintEngine.

(** [n.toString(radix)] for an integer [n >= 0]. *)
Definition radix_digit (d : Z) : ascii :=
  nth (Z.to_nat d) (list_ascii_of_string "0123456789abcdefghijklmnopqrstuvwxyz") "0"%char.

Fixpoint toString_fuel (fuel : nat) (radix n : Z) (acc : string) : string :=
  match fuel with
  | O => acc
  | S f =>
      let acc' := String (radix_digit (n mod radix)) acc in
      if n / radix =? 0 then acc' else toString_fuel f radix (n / radix) acc'
  end.

Definition toString (radix n : Z) : string :=
  toString_fuel (S (Z.to_nat (Z.log2 n))) radix n EmptyString.

(** [s.padStart(targetLength, c)] for a one-character pad string. *)
Definition padStart (targetLength : nat) (c : ascii) (s : string) : string :=
  string_of_list_ascii (repeat c (targetLength - String.length s)) +:+ s.

(** [new TextEncoder().encode(combined)]. *)
Definition TextEncoder_encode (s : string) : list Z :=
  map (fun c => Z.of_nat (nat_of_ascii c)) (list_ascii_of_string s).

(** [async generateFingerprint(method, hostname, normalizedPath)], the
    value the promise resolves to. *)
Definition generateFingerprint (method hostname normalizedPath : string) : string :=
  let combined := method +:+ ":" +:+ hostname +:+ ":" +:+ normalizedPath in
  let data := TextEncoder_encode combined in
  let hashArray := SHA256.digest data in
  Js.join "" (map (fun b => padStart 2 "0"%char (toString 16 b)) hashArray).

(** A value of [sessionFingerprints]. *)
Record cached : Type := { firstSeen : Z; count : Z }.

(** [sessionFingerprints]: a JavaScript [Map], which iterates in insertion
    order; the keys of the list are pairwise distinct. *)
Definition session_map : Type := list (string * cached).

Definition map_get (fp : string) (m : session_map) : option cached :=
  snd <$> List.find (fun e => String.eqb (fst e) fp) m.

Definition map_has (fp : string) (m : session_map) : bool :=
  match map_get fp m with Some _ => true | None => false end.

(** [m.set(fp, v)]: a present key keeps its place, a new key goes last. *)
Fixpoint map_set (fp : string) (v : cached) (m : session_map) : session_map :=
  match m with
  | [] => [(fp, v)]
  | (k, w) :: rest =>
      if String.eqb k fp then (k, v) :: rest else (k, w) :: map_set fp v rest
  end.

(** [cached.count++] on the object the map holds for [fp]. *)
Fixpoint incr_count (fp : string) (m : session_map) : session_map :=
  match m with
  | [] => []
  | (k, w) :: rest =>
      if String.eqb k fp
      then (k, {| firstSeen := firstSeen w; count := count w + 1 |}) :: rest
      else (k, w) :: incr_count fp rest
  end.

(** [shouldSendUpdate(fingerprint)]. *)
Definition shouldSendUpdate (threshold : Z) (fp : string) (m : session_map) : bool :=
  match map_get fp m with
  | None => true
  | Some c => threshold <=? count c
  end.

(** [Array.prototype.sort] with the comparator
    [(a, b) => b[1].firstSeen - a[1].firstSeen]: a stable sort, [a] stays
    before [b] unless the comparator is positive. *)
Definition compare_entries (a b : string * cached) : Z :=
  firstSeen (snd b) - firstSeen (snd a).

Fixpoint sort_insert (a : string * cached) (l : list (string * cached))
  : list (string * cached) :=
  match l with
  | [] => [a]
  | b :: rest =>
      if compare_entries a b <=? 0 then a :: b :: rest
      else b :: sort_insert a rest
  end.

Fixpoint sort (l : list (string * cached)) : list (string * cached) :=
  match l with
  | [] => []
  | a :: rest => sort_insert a (sort rest)
  end.

(** [pruneOldFingerprints()]. *)
Definition pruneOldFingerprints (maxFingerprints : nat) (m : session_map)
  : session_map :=
  if Nat.ltb maxFingerprints (length m) then
    let entries := firstn maxFingerprints (sort m) in
    fold_left (fun acc e => map_set (fst e) (snd e) acc) entries []
  else m.

(** [updateFingerprint(fingerprint)], [now] being [Date.now()]. *)
Definition updateFingerprint (maxFingerprints : nat) (now : Z) (fp : string)
    (m : session_map) : session_map :=
  let m' :=
    if negb (map_has fp m)
    then map_set fp {| firstSeen := now; count := 1 |} m
    else incr_count fp m in
  pruneOldFingerprints maxFingerprints m'.

(** A value of [requestBuffer]: the details of the request and the time
    it was buffered, [{...details, timestamp: Date.now()}]. *)
Record buffered (D : Type) : Type := { request : D; timestamp : Z }.
Arguments request {D} _.
Arguments timestamp {D} _.

(** [requestBuffer] is a [Map] from request ids to buffered requests,
    [gmap string (buffered D)]; none of its operations depends on the
    order of the entries.

    [bufferRequest(requestId, details)], [now] being [Date.now()]. *)
Definition bufferRequest {D} (now : Z) (requestId : string) (details : D)
    (buffer : gmap string (buffered D)) : gmap string (buffered D) :=
  <[requestId := {| request := details; timestamp := now |}]> buffer.

(** [getBufferedRequest(requestId)], [None] for [undefined]. *)
Definition getBufferedRequest {D} (requestId : string) (buffer : gmap string (buffered D))
  : option (buffered D) :=
  buffer !! requestId.

(** [removeBufferedRequest(requestId)]. *)
Definition removeBufferedRequest {D} (requestId : string) (buffer : gmap string (buffered D))
  : gmap string (buffered D) :=
  delete requestId buffer.

(** [cleanupBuffer()]: the loop over the entries, deleting from the map
    it iterates. *)
Definition cleanupBuffer {D} (now ttl : Z) (buffer : gmap string (buffered D))
  : gmap string (buffered D) :=
  map_fold
    (fun requestId req acc =>
       if ttl <? now - timestamp req then delete requestId acc else acc)
    buffer buffer.

(** [Math.min(...values)] of a non-empty array. *)
Definition Math_min (first : Z) (rest : list Z) : Z := fold_left Z.min rest first.

Record stats : Type := {
  fingerprintsCached : nat;
  bufferedRequests : nat;
  oldestBufferedRequest : option Z
}.

(** [getStats()], [None] for [null]. *)
Definition getStats {D} (sessionFingerprints : session_map)
    (buffer : gmap string (buffered D)) : stats :=
  {| fingerprintsCached := length sessionFingerprints;
     bufferedRequests := size buffer;
     oldestBufferedRequest :=
       match (fun e => timestamp (snd e)) <$> map_to_list buffer with
       | [] => None
       | first :: rest => Some (Math_min first rest)
       end |}.

End FingerprintEngine.

(** ** ServerAPI.js (capture side)

    The retry queue of the upload client.  The outcome of [fetch] is an
    argument of the call; a call runs from its first statement to its
    last without another call in between. *)

Module ServerAPI.

(** What [await fetch(...)] comes to: the promise is rejected, or a
    response with a status arrives. *)
Inductive fetched : Type :=
| Rejected (error : string)
| Responded (status : Z).

(** [response.ok]. *)
Definition ok (status : Z) : bool := (200 <=? status) && (status <=? 299).

Inductive console_line : Type :=
| console_warn (message : string)
| console_error (message detail : string).

(** The fields of a [ServerAPI] object, and the console. *)
Record t (A : Type) : Type := {
  retryQueue : list A;
  isOnline : bool;
  console : list console_line
}.
Arguments retryQueue {A} _.
Arguments isOnline {A} _.
Arguments console {A} _.

(** [this.retryQueue.push(...entries)]. *)
Definition push {A} (entries : list A) (s : t A) : t A :=
  {| retryQueue := retryQueue s ++ entries; isOnline := isOnline s;
     console := console s |}.

Definition print {A} (line : console_line) (s : t A) : t A :=
  {| retryQueue := retryQueue s; isOnline := isOnline s;
     console := console s ++ [line] |}.

(** [uploadLog(logEntry)]: the value the promise resolves to, and the
    object afterwards. *)
Definition uploadLog {A} (response : fetched) (logEntry : A) (s : t A) : bool * t A :=
  if negb (isOnline s) then (false, push [logEntry] s)
  else
    match response with
    | Responded status =>
        if negb (ok status) then
          let s := print (console_warn ("Server returned " +:+ Js.String_of_Z status
                                        +:+ " for log upload")) s in
          if (500 <=? status) || (status =? 429)
          then (false, push [logEntry] s)
          else (false, s)
        else (true, s)
    | Rejected error =>
        let s := print (console_error "Error uploading log:" error) s in
        (false, push [logEntry] s)
    end.

(** [batchUpload(logs)]. *)
Definition batchUpload {A} (response : fetched) (logs : list A) (s : t A) : bool * t A :=
  if negb (isOnline s) then (false, push logs s)
  else
    match response with
    | Responded status =>
        if negb (ok status) then
          let s := print (console_warn ("Server returned " +:+ Js.String_of_Z status
                                        +:+ " for batch upload")) s in
          (false, push logs s)
        else (true, s)
    | Rejected error =>
        let s := print (console_error "Error in batch upload:" error) s in
        (false, push logs s)
    end.

(** [processRetryQueue()]. *)
Definition processRetryQueue {A} (response : fetched) (s : t A) : t A :=
  if Nat.eqb (length (retryQueue s)) 0 then s
  else
    let logsToRetry := retryQueue s in
    let s := {| retryQueue := []; isOnline := isOnline s; console := console s |} in
    let '(success, s) := batchUpload response logsToRetry s in
    if negb success then push logsToRetry s else s.

(** [getRetryQueueSize()]. *)
Definition getRetryQueueSize {A} (s : t A) : nat := length (retryQueue s).

End ServerAPI.

(** ** Exceptions and mutable state

    A computation reads and writes a state of type [S] and either returns
    a value or throws; the state written before a [throw] stays written,
    as the fields of a JavaScript object do. *)

Module Exn.

Inductive result (A : Type) : Type :=
| Ok (a : A)
| Throw (message : string).
Arguments Ok {A} a.
Arguments Throw {A} message.

Definition M (S A : Type) : Type := S -> result A * S.

Definition ret {S A} (a : A) : M S A := fun s => (Ok a, s).

Definition bind {S A B} (m : M S A) (k : A -> M S B) : M S B :=
  fun s =>
    match m s with
    | (Ok a, s') => k a s'
    | (Throw e, s') => (Throw e, s')
    end.

Definition throw {S A} (e : string) : M S A := fun s => (Throw e, s).

(** [try { body } catch (error) { handler }]. *)
Definition try_catch {S A} (body : M S A) (handler : string -> M S A) : M S A :=
  fun s =>
    match body s with
    | (Ok a, s') => (Ok a, s')
    | (Throw e, s') => handler e s'
    end.

Definition get {S} : M S S := fun s => (Ok s, s).
Definition modify {S} (f : S -> S) : M S unit := fun s => (Ok tt, f s).

(** Running a computation on a component of a larger state. *)
Definition zoom {S T A} (proj : T -> S) (inj : S -> T -> T) (m : M S A) : M T A :=
  fun t => let (r, s') := m (proj t) in (r, inj s' t).

Definition exec {S A} (m : M S A) (s : S) : S := snd (m s).
Definition outcome {S A} (m : M S A) (s : S) : result A := fst (m s).

Definition returns {A} (r : result A) : bool :=
  match r with Ok _ => true | Throw _ => false end.

End Exn.

Notation "x <- m ;; k" := (Exn.bind m (fun x => k))
  (at level 100, m at next level, right associativity).
Notation "m ;;; k" := (Exn.bind m (fun _ => k))
  (at level 100, right associativity).

(** ** LogStore.js (backend) *)

Module LogStore.
Import Exn.

(** A log entry: the object the ingest handler builds, with the two
    properties [add] sets.  A property that may be missing is an
    [option]. *)
Record LogEntry : Type := {
  fingerprint : option string;
  hostname : string;
  method : string;
  normalizedPath : string;
  queryKeys : list string;
  statusCodes : list Z;
  discoveryCount : Z;
  timestamp : Z;
  receivedAt : option Z;
  lastPatched : option Z
}.

Definition or_else {A} (x y : option A) : option A :=
  match x with Some _ => x | None => y end.

(** [Object.assign(target, source)]: every property [source] owns
    overwrites the one of [target]; the others stay. *)
Definition Object_assign (target source : LogEntry) : LogEntry :=
  {| fingerprint := or_else (fingerprint source) (fingerprint target);
     hostname := hostname source;
     method := method source;
     normalizedPath := normalizedPath source;
     queryKeys := queryKeys source;
     statusCodes := statusCodes source;
     discoveryCount := discoveryCount source;
     timestamp := timestamp source;
     receivedAt := or_else (receivedAt source) (receivedAt target);
     lastPatched := or_else (lastPatched source) (lastPatched target) |}.

Definition set_lastPatched (now : Z) (e : LogEntry) : LogEntry :=
  {| fingerprint := fingerprint e; hostname := hostname e; method := method e;
     normalizedPath := normalizedPath e; queryKeys := queryKeys e;
     statusCodes := statusCodes e; discoveryCount := discoveryCount e;
     timestamp := timestamp e; receivedAt := receivedAt e;
     lastPatched := Some now |}.

Definition set_receivedAt (now : Z) (e : LogEntry) : LogEntry :=
  {| fingerprint := fingerprint e; hostname := hostname e; method := method e;
     normalizedPath := normalizedPath e; queryKeys := queryKeys e;
     statusCodes := statusCodes e; discoveryCount := discoveryCount e;
     timestamp := timestamp e; receivedAt := Some now;
     lastPatched := lastPatched e |}.

(** The fields of a [LogStore] object; [fingerprintIndex] is a [Map]
    from fingerprints ([undefined] included) to positions in [logs]. *)
Record t : Type := {
  logs : list LogEntry;
  fingerprintIndex : gmap (option string) nat;
  saveScheduled : bool;
  savePending : bool
}.

Definition SAVE_DEBOUNCE_MS : Z := 5000.

Definition with_logs (l : list LogEntry) (s : t) : t :=
  {| logs := l; fingerprintIndex := fingerprintIndex s;
     saveScheduled := saveScheduled s; savePending := savePending s |}.
Definition with_index (ix : gmap (option string) nat) (s : t) : t :=
  {| logs := logs s; fingerprintIndex := ix;
     saveScheduled := saveScheduled s; savePending := savePending s |}.
Definition with_saveScheduled (b : bool) (s : t) : t :=
  {| logs := logs s; fingerprintIndex := fingerprintIndex s;
     saveScheduled := b; savePending := savePending s |}.
Definition with_savePending (b : bool) (s : t) : t :=
  {| logs := logs s; fingerprintIndex := fingerprintIndex s;
     saveScheduled := saveScheduled s; savePending := b |}.

(** The state right after the field initialisers of the constructor. *)
Definition fresh : t :=
  {| logs := []; fingerprintIndex := ∅; saveScheduled := false; savePending := false |}.

(** *** The store operations *)

Record add_result : Type := {
  isNew : bool;
  result_fingerprint : option string;
  entry : LogEntry
}.

(** [add(logEntry)], [now] being [Date.now()].  [Object.assign] on a
    missing [this.logs[index]] throws a [TypeError]. *)
Definition add (now : Z) (logEntry : LogEntry) : M t add_result :=
  let fp := fingerprint logEntry in
  s <- get ;;
  match fingerprintIndex s !! fp with
  | Some index =>
      match logs s !! index with
      | Some existingLog =>
          let existingLog := set_lastPatched now (Object_assign existingLog logEntry) in
          modify (with_logs (<[index := existingLog]> (logs s))) ;;;
          modify (with_savePending true) ;;;
          ret {| isNew := false; result_fingerprint := fp; entry := existingLog |}
      | None => throw "TypeError"
      end
  | None =>
      let logEntry := set_receivedAt now logEntry in
      modify (with_logs (logs s ++ [logEntry])) ;;;
      s <- get ;;
      modify (with_index (<[fp := (length (logs s) - 1)%nat]> (fingerprintIndex s))) ;;;
      modify (with_savePending true) ;;;
      ret {| isNew := true; result_fingerprint := fp; entry := logEntry |}
  end.

(** [getByFingerprint(fingerprint)]: [None] stands for both [null] and
    the [undefined] of an index past the end. *)
Definition getByFingerprint (fp : option string) (s : t) : option LogEntry :=
  match fingerprintIndex s !! fp with
  | Some index => logs s !! index
  | None => None
  end.

(** [clear()]. *)
Definition clear : M t unit :=
  modify (with_logs []) ;;;
  modify (with_index ∅) ;;;
  modify (with_savePending true).

(** [count()]. *)
Definition count (s : t) : nat := length (logs s).

(** [getAll()]: a copy of the array. *)
Definition getAll (s : t) : list LogEntry := logs s.

(** [getFiltered(filterFn)]. *)
Definition getFiltered (filterFn : LogEntry -> bool) (s : t) : list LogEntry :=
  List.filter filterFn (logs s).

(** The [updates] object given to [update]: the properties it owns are
    the ones that are [Some]. *)
Record updates : Type := {
  upd_fingerprint : option string;
  upd_hostname : option string;
  upd_method : option string;
  upd_normalizedPath : option string;
  upd_queryKeys : option (list string);
  upd_statusCodes : option (list Z);
  upd_discoveryCount : option Z;
  upd_timestamp : option Z;
  upd_receivedAt : option Z;
  upd_lastPatched : option Z
}.

(** [Object.assign(target, updates)]. *)
Definition assign_updates (target : LogEntry) (u : updates) : LogEntry :=
  {| fingerprint := or_else (upd_fingerprint u) (fingerprint target);
     hostname := default (hostname target) (upd_hostname u);
     method := default (method target) (upd_method u);
     normalizedPath := default (normalizedPath target) (upd_normalizedPath u);
     queryKeys := default (queryKeys target) (upd_queryKeys u);
     statusCodes := default (statusCodes target) (upd_statusCodes u);
     discoveryCount := default (discoveryCount target) (upd_discoveryCount u);
     timestamp := default (timestamp target) (upd_timestamp u);
     receivedAt := or_else (upd_receivedAt u) (receivedAt target);
     lastPatched := or_else (upd_lastPatched u) (lastPatched target) |}.

(** [update(fingerprint, updates)], [None] for [null]; as in [add],
    [Object.assign] on a missing [this.logs[index]] throws. *)
Definition update (fp : option string) (u : updates) : M t (option LogEntry) :=
  s <- get ;;
  match fingerprintIndex s !! fp with
  | Some index =>
      match logs s !! index with
      | Some log =>
          modify (with_logs (<[index := assign_updates log u]> (logs s))) ;;;
          modify (with_savePending true) ;;;
          s <- get ;;
          ret (logs s !! index)
      | None => throw "TypeError"
      end
  | None => ret None
  end.

(** *** The file, the timers and the console *)

(** What [JSON.parse] makes of the text in [logs.json]: a syntax error,
    a value that is not an array, or an array, whose elements are
    objects or [null]. *)
Inductive file_content : Type :=
| Unparseable
| NotAnArray
| ArrayOf (items : list (option LogEntry)).

Inductive console_line : Type :=
| console_log (message : string)
| console_error (message detail : string).

(** The part of the Node process a store touches: the file at
    [this.logsFile] ([None] when there is none), whether reading and
    writing it succeed, the deadlines of the armed timeouts, the console
    and the history of completed [writeFileSync] calls. *)
Record Runtime : Type := {
  file : option file_content;
  read_ok : bool;
  write_ok : bool;
  timers : list Z;
  console : list console_line;
  writes : list (list LogEntry)
}.

Record World : Type := { self : t; node : Runtime }.

Definition this {A} (m : M t A) : M World A :=
  zoom self (fun s w => {| self := s; node := node w |}) m.

Definition on_node (f : Runtime -> Runtime) : M World unit :=
  modify (fun w => {| self := self w; node := f (node w) |}).

Definition print (line : console_line) : M World unit :=
  on_node (fun r => {| file := file r; read_ok := read_ok r; write_ok := write_ok r;
                       timers := timers r; console := console r ++ [line];
                       writes := writes r |}).

Definition existsSync : M World bool :=
  w <- get ;; ret (match file (node w) with Some _ => true | None => false end).

Definition readFileSync : M World file_content :=
  w <- get ;;
  match file (node w) with
  | Some c => if read_ok (node w) then ret c else throw "EACCES"
  | None => throw "ENOENT"
  end.

Definition JSON_parse (c : file_content) : M World file_content :=
  match c with
  | Unparseable => throw "SyntaxError"
  | _ => ret c
  end.

(** [fs.writeFileSync(this.logsFile, JSON.stringify(data, null, 2))]. *)
Definition writeFileSync (data : list LogEntry) : M World unit :=
  w <- get ;;
  if write_ok (node w) then
    on_node (fun r => {| file := Some (ArrayOf (Some <$> data));
                         read_ok := read_ok r; write_ok := write_ok r;
                         timers := timers r; console := console r;
                         writes := writes r ++ [data] |})
  else throw "EACCES".

(** [setTimeout(callback, delay)] at time [now]; the callback is always
    the one of [scheduleAsyncSave]. *)
Definition setTimeout (now delay : Z) : M World unit :=
  on_node (fun r => {| file := file r; read_ok := read_ok r; write_ok := write_ok r;
                       timers := timers r ++ [now + delay]; console := console r;
                       writes := writes r |}).

(** [saveSync()]. *)
Definition saveSync : M World unit :=
  try_catch
    (w <- get ;; writeFileSync (logs (self w)))
    (fun error =>
       print (console_error "[LogStore] Error saving logs synchronously:" error) ;;;
       throw error).

Definition truthy (fp : option string) : bool :=
  match fp with
  | Some s => negb (String.eqb s "")
  | None => false
  end.

(** The [forEach] of [load]: reading [log.fingerprint] of a [null]
    element throws a [TypeError]. *)
Fixpoint rebuild_index (items : list (option LogEntry)) (index : nat) : M World unit :=
  match items with
  | [] => ret tt
  | None :: _ => throw "TypeError"
  | Some log :: rest =>
      (if truthy (fingerprint log)
       then this (s <- get ;;
                  modify (with_index (<[fingerprint log := index]> (fingerprintIndex s))))
       else ret tt) ;;;
      rebuild_index rest (S index)
  end.

(** The elements of the parsed data that [this.logs] takes over; with a
    [null] among them the [forEach] throws and the [catch] block empties
    [this.logs] again. *)
Definition loaded_logs (data : file_content) : list LogEntry :=
  match data with
  | ArrayOf items => omap id items
  | _ => []
  end.

Definition loaded_items (data : file_content) : list (option LogEntry) :=
  match data with
  | ArrayOf items => items
  | _ => []
  end.

(** [load()]. *)
Definition load : M World unit :=
  try_catch
    (present <- existsSync ;;
     if present then
       text <- readFileSync ;;
       data <- JSON_parse text ;;
       this (modify (with_logs (loaded_logs data))) ;;;
       rebuild_index (loaded_items data) 0 ;;;
       w <- get ;;
       print (console_log
                ("[LogStore] Loaded "
                 +:+ Js.String_of_Z (Z.of_nat (length (logs (self w)))) +:+ " logs"))
     else
       print (console_log "[LogStore] logs.json not found, creating new file") ;;;
       this (modify (with_logs [])) ;;;
       this (modify (with_index ∅)) ;;;
       saveSync)
    (fun error =>
       print (console_error "[LogStore] Error loading logs:" error) ;;;
       this (modify (with_logs [])) ;;;
       this (modify (with_index ∅)) ;;;
       try_catch saveSync
         (fun saveErr =>
            print (console_error "[LogStore] Failed to initialize logs.json:" saveErr))).

(** [new LogStore(path)] in a process whose runtime is [r]. *)
Definition constructor (r : Runtime) : result unit * World :=
  load {| self := fresh; node := r |}.

(** *** The debounced save *)

(** [scheduleAsyncSave()] called at time [now]. *)
Definition scheduleAsyncSave (now : Z) : M World unit :=
  w <- get ;;
  if saveScheduled (self w) then
    this (modify (with_savePending true))
  else
    this (modify (with_saveScheduled true)) ;;;
    setTimeout now SAVE_DEBOUNCE_MS.

(** The callback given to [setTimeout], run at time [now]. *)
Definition timeout_callback (now : Z) : M World unit :=
  this (modify (with_saveScheduled false)) ;;;
  try_catch
    (w <- get ;; writeFileSync (logs (self w)))
    (fun error => print (console_error "[LogStore] Error saving logs:" error)) ;;;
  w <- get ;;
  if savePending (self w) then
    this (modify (with_savePending false)) ;;;
    scheduleAsyncSave now
  else ret tt.

(** [saveNow()]. *)
Definition saveNow : M World unit :=
  try_catch
    (w <- get ;;
     writeFileSync (logs (self w)) ;;;
     this (modify (with_saveScheduled false)) ;;;
     this (modify (with_savePending false)))
    (fun error => print (console_error "[LogStore] Error in saveNow():" error)).

(** *** The event loop

    A timeout fires once the clock has reached its deadline; of the due
    timeouts the earliest fires first, the one armed first among equal
    deadlines. *)

Fixpoint earliest (l : list Z) : option Z :=
  match l with
  | [] => None
  | d :: rest =>
      match earliest rest with
      | Some m => Some (if d <=? m then d else m)
      | None => Some d
      end
  end.

Fixpoint remove_first (d : Z) (l : list Z) : list Z :=
  match l with
  | [] => []
  | x :: rest => if x =? d then rest else x :: remove_first d rest
  end.

Definition with_timers (l : list Z) (w : World) : World :=
  {| self := self w;
     node := {| file := file (node w); read_ok := read_ok (node w);
                write_ok := write_ok (node w); timers := l;
                console := console (node w); writes := writes (node w) |} |}.

Fixpoint fire_due (fuel : nat) (until : Z) (w : World) : World :=
  match fuel with
  | O => w
  | S f =>
      match earliest (timers (node w)) with
      | Some d =>
          if d <=? until
          then fire_due f until
                 (exec (timeout_callback d)
                    (with_timers (remove_first d (timers (node w))) w))
          else w
      | None => w
      end
  end.

(** The world once the clock shows [until] and every timeout due by then
    has fired.  One more round than there are armed timeouts is enough:
    a callback arms at most one timeout and only after it has reset
    [savePending]. *)
Definition advance (until : Z) (w : World) : World :=
  fire_due (S (length (timers (node w)))) until w.

(** A call arriving at time [now]. *)
Definition at_time {A} (now : Z) (call : Z -> M World A) (w : World) : World :=
  exec (call now) (advance now w).

End LogStore.

(** ** logRoutes.js (backend) *)

Module LogRoutes.
Import Exn.

(** [req.body] of [POST /api/logs], for bodies of the shape the extension
    uploads: [hostname], [method] and [normalizedPath] are strings,
    [queryKeys] is an array of strings, [statusCodes] an array of
    integers, and [discoveryCount] and [timestamp] are integers; any of
    them may be missing, and a missing string property is the empty
    string, which is falsy as well.  [express.json()] hands over any JSON
    value; on a property of another type the handler can throw a
    [TypeError] (a host name [123] has no [toLowerCase]), also after it has
    stored the value (status codes that are no array have no [push] when
    the endpoint is seen again). *)
Record body : Type := {
  hostname : string;
  method : string;
  normalizedPath : string;
  queryKeys : option (list string);
  statusCodes : option (list Z);
  discoveryCount : option Z;
  timestamp : option Z
}.

Inductive response : Type :=
| BadRequest                       (* 400, missing required fields *)
| Ignored                          (* 200, { success, ignored: true } *)
| Accepted (fingerprint : string)  (* 200, { success, fingerprint } *)
| Cleared.                         (* 200, { success } of DELETE *)

Definition truthy_string (s : string) : bool := negb (String.eqb s "").

(** [x || d] on an optional number. *)
Definition number_or (x : option Z) (d : Z) : Z :=
  match x with
  | Some n => if n =? 0 then d else n
  | None => d
  end.

(** The loopback guard:
    [hostnameLower.includes('localhost') || hostnameLower.includes('127.0.0.1')
     || hostnameLower.includes('[::1]') || hostnameLower === '0.0.0.0']. *)
Definition is_local_host (hostname : string) : bool :=
  let hostnameLower := Js.toLowerCase hostname in
  Js.includes "localhost" hostnameLower
  || Js.includes "127.0.0.1" hostnameLower
  || Js.includes "[::1]" hostnameLower
  || String.eqb hostnameLower "0.0.0.0".

(** The loop [for (const code of statusCodes)] of the update branch. *)
Definition push_new_codes (codes existing : list Z) : list Z :=
  fold_left
    (fun acc code => if existsb (Z.eqb code) acc then acc else acc ++ [code])
    codes existing.

(** The update branch, applied to the object [getByFingerprint] returned. *)
Definition patch_existing (now : Z) (b : body) (existingLog : LogStore.LogEntry)
  : LogStore.LogEntry :=
  {| LogStore.fingerprint := LogStore.fingerprint existingLog;
     LogStore.hostname := LogStore.hostname existingLog;
     LogStore.method := LogStore.method existingLog;
     LogStore.normalizedPath := LogStore.normalizedPath existingLog;
     LogStore.queryKeys := LogStore.queryKeys existingLog;
     LogStore.statusCodes :=
       match statusCodes b with
       | Some codes => push_new_codes codes (LogStore.statusCodes existingLog)
       | None => LogStore.statusCodes existingLog
       end;
     LogStore.discoveryCount :=
       Js.plus (number_or (Some (LogStore.discoveryCount existingLog)) 1)
               (number_or (discoveryCount b) 1);
     LogStore.timestamp := number_or (timestamp b) now;
     LogStore.receivedAt := LogStore.receivedAt existingLog;
     LogStore.lastPatched := LogStore.lastPatched existingLog |}.

(** The object literal of the insert branch. *)
Definition new_entry (now : Z) (b : body) (fingerprint : string) : LogStore.LogEntry :=
  {| LogStore.fingerprint := Some fingerprint;
     LogStore.hostname := hostname b;
     LogStore.method := method b;
     LogStore.normalizedPath := normalizedPath b;
     LogStore.queryKeys := default [] (queryKeys b);
     LogStore.statusCodes := default [] (statusCodes b);
     LogStore.discoveryCount := number_or (discoveryCount b) 1;
     LogStore.timestamp := number_or (timestamp b) now;
     LogStore.receivedAt := None;
     LogStore.lastPatched := None |}.

(** [console.log(`[New] ${fingerprint.substring(0, 8)}... for ${method}
    ${hostname}${normalizedPath}`)]. *)
Definition new_message (b : body) (fingerprint : string) : LogStore.console_line :=
  LogStore.console_log
    ("[New] " +:+ String.substring 0 8 fingerprint +:+ "... for " +:+ method b
     +:+ " " +:+ hostname b +:+ normalizedPath b).

(** [router.post('/', ...)], the request arriving at time [now]. *)
Definition post_logs (b : body) (now : Z) : M LogStore.World response :=
  if negb (truthy_string (hostname b)) || negb (truthy_string (method b))
     || negb (truthy_string (normalizedPath b))
  then ret BadRequest
  else if is_local_host (hostname b) then ret Ignored
  else if ExtensionFilter.shouldIgnore (method b) (hostname b) (normalizedPath b)
  then ret Ignored
  else
    let fingerprint :=
      ExtensionFilter.generateFingerprint (method b) (hostname b) (normalizedPath b) in
    w <- get ;;
    match LogStore.fingerprintIndex (LogStore.self w) !! Some fingerprint with
    | Some index =>
        match LogStore.logs (LogStore.self w) !! index with
        | Some existingLog =>
            LogStore.this
              (modify (LogStore.with_logs
                         (<[index := patch_existing now b existingLog]>
                            (LogStore.logs (LogStore.self w)))))
        | None =>
            LogStore.this (LogStore.add now (new_entry now b fingerprint)) ;;;
            LogStore.print (new_message b fingerprint)
        end
    | None =>
        LogStore.this (LogStore.add now (new_entry now b fingerprint)) ;;;
        LogStore.print (new_message b fingerprint)
    end ;;;
    LogStore.scheduleAsyncSave now ;;;
    ret (Accepted fingerprint).

(** [router.delete('/', ...)]. *)
Definition delete_logs (now : Z) : M LogStore.World response :=
  LogStore.this LogStore.clear ;;;
  LogStore.saveNow ;;;
  LogStore.print (LogStore.console_log "[Logs cleared]") ;;;
  ret Cleared.

Definition MAX_LOG_LIMIT : Z := 500.

(** [matchesSearch(log, query)]. *)
Definition matchesSearch (log : LogStore.LogEntry) (query : string) : bool :=
  if negb (truthy_string query) || Js.trims_to_empty query then true
  else
    let q := Js.toLowerCase query in
    let hostMatch := Js.includes q (Js.toLowerCase (LogStore.hostname log)) in
    let methodMatch := String.eqb (Js.toLowerCase (LogStore.method log)) q in
    let pathMatch := Js.includes q (Js.toLowerCase (LogStore.normalizedPath log)) in
    hostMatch || methodMatch || pathMatch.

(** [req.query] of [GET /api/logs]: [limit] and [offset] are what
    [parseInt(req.query.limit, 10)] and [parseInt(req.query.offset, 10)]
    return, [None] standing for [NaN]; the other parameters are strings,
    [None] when they are missing. *)
Record query : Type := {
  query_limit : option Z;
  query_offset : option Z;
  query_q : option string;
  query_method : option string;
  query_hideAssets : option string
}.

(** The value of [deduplicationRatio]: the number [0], or the text
    [(totalDiscoveries / sliced.length).toFixed(2)], kept as the two
    operands of the division. *)
Inductive ratio : Type :=
| Zero
| Fixed2 (numerator : Z) (denominator : nat).

(** The body of the answer of [GET /api/logs]. *)
Record page : Type := {
  page_count : nat;
  page_total : nat;
  page_totalDiscoveries : Z;
  page_deduplicationRatio : ratio;
  page_limit : Z;
  page_offset : Z;
  page_logs : list LogStore.LogEntry
}.

Definition assetExtensions : list string :=
  [ ".js"; ".css"; ".png"; ".jpg"; ".gif"; ".svg"; ".woff"; ".woff2"; ".ttf" ].

(** The filter of [hideAssets]. *)
Definition not_an_asset (l : LogStore.LogEntry) : bool :=
  let path := Js.toLowerCase (LogStore.normalizedPath l) in
  negb (existsb (fun ext => Js.endsWith ext path) assetExtensions).

(** The comparator of the sort: [(b.discoveryCount || 1) -
    (a.discoveryCount || 1)].  The sort reads the sign of the difference
    only, which the rounding of a difference of two numbers leaves as it
    is. *)
Definition by_discoveryCount (a b : LogStore.LogEntry) : Z :=
  number_or (Some (LogStore.discoveryCount b)) 1
  - number_or (Some (LogStore.discoveryCount a)) 1.

(** The three filters of the handler, each applied only when the query
    asks for it: [if (searchQuery) ...], [if (req.query.method) ...] and
    [if (req.query.hideAssets === 'true') ...]. *)
Definition apply_search (q : query) (logs : list LogStore.LogEntry)
  : list LogStore.LogEntry :=
  let searchQuery := default "" (query_q q) in
  if truthy_string searchQuery
  then List.filter (fun l => matchesSearch l searchQuery) logs
  else logs.

Definition apply_method (q : query) (logs : list LogStore.LogEntry)
  : list LogStore.LogEntry :=
  match query_method q with
  | Some m =>
      if truthy_string m
      then
        let methodFilter := Js.toUpperCase m in
        List.filter (fun l => String.eqb (LogStore.method l) methodFilter) logs
      else logs
  | None => logs
  end.

Definition apply_hideAssets (q : query) (logs : list LogStore.LogEntry)
  : list LogStore.LogEntry :=
  match query_hideAssets q with
  | Some flag => if String.eqb flag "true" then List.filter not_an_asset logs else logs
  | None => logs
  end.

(** [router.get('/', ...)]. *)
Definition get_logs (q : query) (logStore : LogStore.t) : page :=
  let limit := Z.max 1 (Z.min MAX_LOG_LIMIT (number_or (query_limit q) 100)) in
  let offset := Z.max 0 (number_or (query_offset q) 0) in
  let logs := LogStore.getAll logStore in
  let logs := apply_search q logs in
  let logs := apply_method q logs in
  let logs := apply_hideAssets q logs in
  let logs := Js.sort by_discoveryCount logs in
  let totalCount := length logs in
  let sliced := Js.slice offset (offset + limit) logs in
  let totalDiscoveries :=
    fold_left
      (fun sum log => Js.plus sum (number_or (Some (LogStore.discoveryCount log)) 1))
      logs 0 in
  {| page_count := length sliced;
     page_total := totalCount;
     page_totalDiscoveries := totalDiscoveries;
     page_deduplicationRatio :=
       if Nat.ltb 0 (length sliced) then Fixed2 totalDiscoveries (length sliced)
       else Zero;
     page_limit := limit;
     page_offset := offset;
     page_logs := sliced |}.

End LogRoutes.

(** * Vocabulary of the properties *)

Section RootDomainVocabulary.

(** A label of a host name: no dot in it. *)
Fixpoint dot_free (s : string) : bool :=
  match s with
  | EmptyString => true
  | String c r => negb (Ascii.eqb c ".") && dot_free r
  end.

End RootDomainVocabulary.

Section ClassificationVocabulary.

(** On the three-digit status codes the test [String(statusCode)
    .startsWith('5')] is the test for the class 5xx. *)
Definition starts_with_5_is_5xx (s : Z) : bool :=
  Bool.eqb (RequestProcessor.status_starts_with "5" s) ((500 <=? s) && (s <=? 599)).

End ClassificationVocabulary.

Section FingerprintsVocabulary.

(** Lower-case hexadecimal, by arithmetic on the character codes. *)
Definition lowercase_hex_char (d : Z) : ascii :=
  ascii_of_nat (Z.to_nat (if d <? 10 then 48 + d else 87 + d)).

Definition lowercase_hex (bytes : list Z) : string :=
  string_of_list_ascii
    (flat_map (fun b => [lowercase_hex_char (b / 16); lowercase_hex_char (b mod 16)])
              bytes).

(** The bytes of a string. *)
Definition string_bytes (s : string) : list Z :=
  map (fun c => Z.of_nat (nat_of_ascii c)) (list_ascii_of_string s).

(** The fingerprint as the data model words it: the lower-case
    hexadecimal SHA-256 digest of the byte sequence
    [method:hostname:normalizedPath]. *)
Definition fingerprint_spec (method hostname normalizedPath : string) : string :=
  lowercase_hex
    (SHA256.digest (string_bytes (method +:+ ":" +:+ hostname +:+ ":" +:+ normalizedPath))).

(** A byte value. *)
Definition is_byte (b : Z) : Prop := 0 <= b < 256.

(** One of the characters [0123456789abcdef]. *)
Definition is_lowercase_hex (c : ascii) : bool :=
  existsb (Ascii.eqb c) (list_ascii_of_string "0123456789abcdef").

(** Byte by byte the three renderings agree. *)
Definition byte_renderings_agree (b : Z) : bool :=
  String.eqb (FingerprintEngine.padStart 2 "0" (FingerprintEngine.toString 16 b))
             (ExtensionFilter.hex [b])
  && String.eqb (ExtensionFilter.hex [b]) (lowercase_hex [b])
  && forallb is_lowercase_hex (list_ascii_of_string (ExtensionFilter.hex [b]))
  && (String.length (ExtensionFilter.hex [b]) =? 2)%nat.

End FingerprintsVocabulary.

Section SessionCacheVocabulary.
Import FingerprintEngine.

Implicit Types (m l : session_map) (a b : string * cached).

(** [a] may stand before [b] in the sorted array: it was first seen no
    earlier. *)
Definition newer_or_equal a b : Prop := firstSeen (snd b) <= firstSeen (snd a).

(** The map after the insert-or-increment step of [updateFingerprint]. *)
Definition touched (now : Z) (fp : string) m : session_map :=
  if negb (map_has fp m)
  then map_set fp {| firstSeen := now; count := 1 |} m
  else incr_count fp m.

End SessionCacheVocabulary.

Section LoadingVocabulary.
Import Exn LogStore.

(** An element of the parsed array that is not [null]. *)
Definition not_null (item : option LogEntry) : bool :=
  match item with Some _ => true | None => false end.

(** The file can be read, parses, and no element of the array is [null]:
    the [try] block of [load] runs to its end. *)
Definition loads_cleanly (r : Runtime) (c : file_content) : bool :=
  read_ok r
  && match c with
     | Unparseable => false
     | NotAnArray => true
     | ArrayOf items => forallb not_null items
     end.

(** The line [load] prints after a clean load. *)
Definition loaded_message (l : list LogEntry) : console_line :=
  console_log
    ("[LogStore] Loaded " +:+ Js.String_of_Z (Z.of_nat (length l)) +:+ " logs").

(** What [load] does, case by case. *)
Definition load_outcome (r : Runtime) (w : World) : Prop :=
  match file r with
  | None =>
      logs (self w) = [] ∧ fingerprintIndex (self w) = ∅
      ∧ if write_ok r
        then file (node w) = Some (ArrayOf []) ∧ writes (node w) = writes r ++ [[]]
        else file (node w) = None ∧ writes (node w) = writes r
  | Some c =>
      if loads_cleanly r c then
        logs (self w) = loaded_logs c
        ∧ file (node w) = Some c ∧ writes (node w) = writes r
        ∧ console (node w) = console r ++ [loaded_message (loaded_logs c)]
      else
        logs (self w) = [] ∧ fingerprintIndex (self w) = ∅
        ∧ (∃ message,
             console_error "[LogStore] Error loading logs:" message ∈ console (node w))
        ∧ if write_ok r
          then file (node w) = Some (ArrayOf [])
               ∧ writes (node w) = writes r ++ [[]]
          else file (node w) = Some c ∧ writes (node w) = writes r
               ∧ ∃ message,
                   console_error "[LogStore] Failed to initialize logs.json:" message
                   ∈ console (node w)
  end.

End LoadingVocabulary.

(** Membership of a line in a console that is a chain of appends. *)
Ltac in_console :=
  repeat split; try done;
  eexists;
  repeat (apply elem_of_app;
          first [right; apply list_elem_of_singleton; reflexivity | left]).

Section StoreInvariantVocabulary.
Import Exn LogStore.

(** The mutations of a store. *)
Inductive op : Type :=
| Add (now : Z) (logEntry : LogEntry)
| Clear.

(** One mutation, and a sequence of them. *)
Definition step (o : op) : M t unit :=
  match o with
  | Add now logEntry => (_ <- add now logEntry ;; ret tt)
  | Clear => clear
  end.

Fixpoint run (ops : list op) : M t unit :=
  match ops with
  | [] => ret tt
  | o :: rest => (step o ;;; run rest)
  end.

(** Index and records agree: as many fingerprints as records, and a
    fingerprint is in the index at a position exactly when the record at
    that position has it. *)
Record indexed (s : t) : Prop := {
  indexed_size : size (fingerprintIndex s) = length (logs s);
  indexed_index : ∀ fp i,
    fingerprintIndex s !! fp = Some i
    ↔ ∃ r, logs s !! i = Some r ∧ fingerprint r = fp
}.

(** The record [r] carries the observation [e]: the properties the
    ingest handler puts into an entry. *)
Definition carries (r e : LogEntry) : Prop :=
  fingerprint r = fingerprint e
  ∧ hostname r = hostname e
  ∧ method r = method e
  ∧ normalizedPath r = normalizedPath e
  ∧ queryKeys r = queryKeys e
  ∧ statusCodes r = statusCodes e
  ∧ discoveryCount r = discoveryCount e
  ∧ timestamp r = timestamp e.

(** Every record stems from an [add] of the history. *)
Definition added (history : list op) (s : t) : Prop :=
  ∀ r, r ∈ logs s → ∃ now e, Add now e ∈ history ∧ carries r e.

(** The requests that change the store. *)
Inductive request : Type :=
| Post (b : LogRoutes.body)
| Delete.

(** Serving a request that arrives at a given time. *)
Definition serve (w : World) (timed : Z * request) : World :=
  match snd timed with
  | Post b => at_time (fst timed) (LogRoutes.post_logs b) w
  | Delete => at_time (fst timed) LogRoutes.delete_logs w
  end.

(** The fingerprint of a record, computed afresh from its own fields. *)
Definition recomputed (r : LogEntry) : option string :=
  Some (ExtensionFilter.generateFingerprint (method r) (hostname r) (normalizedPath r)).

(** Every record is filed under the fingerprint of its own method, host
    name and path. *)
Definition filed (s : t) : Prop :=
  ∀ r, r ∈ logs s → fingerprint r = recomputed r.

End StoreInvariantVocabulary.

Section UpsertVocabulary.
Import Exn LogStore.

(** The observation of the example scenario, and the same endpoint
    answering with another status. *)
Definition login_200 : LogEntry :=
  {| fingerprint := Some "e35c3a8d840e41f7204dfe9c16fb3d5738a6b6eab47e3747830cb9e629b4d70a";
     hostname := "api.example.com"; method := "POST";
     normalizedPath := "/api/users/login";
     queryKeys := []; statusCodes := [200]; discoveryCount := 1;
     timestamp := 1; receivedAt := None; lastPatched := None |}.

Definition login_500 : LogEntry :=
  {| fingerprint := fingerprint login_200;
     hostname := "api.example.com"; method := "POST";
     normalizedPath := "/api/users/login";
     queryKeys := []; statusCodes := [500]; discoveryCount := 1;
     timestamp := 2; receivedAt := None; lastPatched := None |}.

End UpsertVocabulary.

Section DebounceVocabulary.
Import Exn LogStore.

(** A world, field by field. *)
Definition world (l : list LogEntry) (ix : gmap (option string) nat)
    (sch pen : bool) (f : option file_content) (rd wr : bool)
    (tm : list Z) (co : list console_line) (ws : list (list LogEntry)) : World :=
  {| self := {| logs := l; fingerprintIndex := ix;
                saveScheduled := sch; savePending := pen |};
     node := {| file := f; read_ok := rd; write_ok := wr; timers := tm;
                console := co; writes := ws |} |}.

(** Nothing armed, nothing marked. *)
Definition idle (w : World) : Prop :=
  saveScheduled (self w) = false ∧ savePending (self w) = false
  ∧ timers (node w) = [].

(** Flush requests arriving at the times [ts]. *)
Definition flush_requests (ts : list Z) (w : World) : World :=
  fold_left (fun w t => at_time t scheduleAsyncSave w) ts w.

(** Each request comes a full window or more after the one before. *)
Fixpoint spaced (prev : Z) (ts : list Z) : Prop :=
  match ts with
  | [] => True
  | t :: rest => prev + SAVE_DEBOUNCE_MS <= t ∧ spaced t rest
  end.

(** The time of the last request of [t0 :: ts]. *)
Definition last_time (t0 : Z) (ts : list Z) : Z := List.last ts t0.

(** An upper bound of the timeouts that can still fire without a further
    request: the armed ones, and one more when a save is marked. *)
Definition rounds_needed (w : World) : nat :=
  (length (timers (node w)) + (if savePending (self w) then 1 else 0))%nat.

(** A process whose log file holds the empty array, and the store
    started in it. *)
Definition empty_log_file : Runtime :=
  {| file := Some (ArrayOf []); read_ok := true; write_ok := true;
     timers := []; console := []; writes := [] |}.

Definition started : World := snd (constructor empty_log_file).

(** Two observations as the capture side uploads them. *)
Definition login_request : LogRoutes.body :=
  {| LogRoutes.hostname := "api.example.com"; LogRoutes.method := "POST";
     LogRoutes.normalizedPath := "/api/users/login";
     LogRoutes.queryKeys := None; LogRoutes.statusCodes := Some [200];
     LogRoutes.discoveryCount := None; LogRoutes.timestamp := None |}.

Definition orders_request : LogRoutes.body :=
  {| LogRoutes.hostname := "api.example.com"; LogRoutes.method := "GET";
     LogRoutes.normalizedPath := "/api/orders";
     LogRoutes.queryKeys := None; LogRoutes.statusCodes := Some [200];
     LogRoutes.discoveryCount := None; LogRoutes.timestamp := None |}.

End DebounceVocabulary.

Section RestartVocabulary.
Import Exn LogStore.

(** The index the [forEach] of [load] builds over the records [l], the
    first of them at position [k], starting from the index [ix]. *)
Fixpoint index_from (l : list LogEntry) (k : nat) (ix : gmap (option string) nat)
  : gmap (option string) nat :=
  match l with
  | [] => ix
  | log :: rest =>
      index_from rest (S k)
        (if truthy (fingerprint log) then <[fingerprint log := k]> ix else ix)
  end.

(** The record at position [i] is the last one of [l] with the
    fingerprint [fp]. *)
Definition last_with (l : list LogEntry) (fp : option string) (i : nat) : Prop :=
  (∃ e, l !! i = Some e ∧ fingerprint e = fp)
  ∧ ∀ j e, (i < j)%nat → l !! j = Some e → fingerprint e ≠ fp.

End RestartVocabulary.

Section DurabilityVocabulary.
Import Exn LogStore.

(** What the file holds once [data] has been written. *)
Definition written (data : list LogEntry) : option file_content :=
  Some (ArrayOf (Some <$> data)).

(** The file can be written, a scheduled save has its timeout armed, and
    whenever no timeout is armed the file holds the records of the
    store. *)
Definition flushed_or_armed (w : World) : Prop :=
  write_ok (node w) = true
  ∧ (saveScheduled (self w) = true → timers (node w) ≠ [])
  ∧ (timers (node w) = [] → file (node w) = written (logs (self w))).

(** All armed timeouts are due by [until], and by a window earlier when
    a further save is marked. *)
Definition due_by (until : Z) (w : World) : Prop :=
  Forall (fun d => d <= until) (timers (node w))
  ∧ (savePending (self w) = true →
     Forall (fun d => d + SAVE_DEBOUNCE_MS <= until) (timers (node w))).

End DurabilityVocabulary.

Section IngestVocabulary.
Import Exn LogStore.

(** The observation passes the validation and the two ignore tests of
    the ingest handler. *)
Definition accepted (b : LogRoutes.body) : bool :=
  LogRoutes.truthy_string (LogRoutes.hostname b)
  && LogRoutes.truthy_string (LogRoutes.method b)
  && LogRoutes.truthy_string (LogRoutes.normalizedPath b)
  && negb (LogRoutes.is_local_host (LogRoutes.hostname b))
  && negb (ExtensionFilter.shouldIgnore (LogRoutes.method b) (LogRoutes.hostname b)
             (LogRoutes.normalizedPath b)).

(** The fingerprint the ingest handler computes for an observation. *)
Definition fingerprint_of (b : LogRoutes.body) : string :=
  ExtensionFilter.generateFingerprint (LogRoutes.method b) (LogRoutes.hostname b)
    (LogRoutes.normalizedPath b).


End IngestVocabulary.

Section RepeatedVocabulary.
Import Exn LogStore.

(** The record the store holds for the observation [b] after it has
    been ingested [n] times, first at [first] and last at [latest]. *)
Definition ingested (b : LogRoutes.body) (n : nat) (first latest : Z) (r : LogEntry)
  : Prop :=
  fingerprint r = Some (fingerprint_of b)
  ∧ hostname r = LogRoutes.hostname b
  ∧ method r = LogRoutes.method b
  ∧ normalizedPath r = LogRoutes.normalizedPath b
  ∧ queryKeys r = default [] (LogRoutes.queryKeys b)
  ∧ statusCodes r = default [] (LogRoutes.statusCodes b)
  ∧ discoveryCount r = Z.of_nat n * LogRoutes.number_or (LogRoutes.discoveryCount b) 1
  ∧ timestamp r = LogRoutes.number_or (LogRoutes.timestamp b) latest
  ∧ receivedAt r = Some first
  ∧ lastPatched r = None.

End RepeatedVocabulary.

Section QueryVocabulary.
Import LogStore.

(** What a record counts for in the sort and in the total: its
    [discoveryCount || 1]. *)
Definition weight (l : LogEntry) : Z :=
  LogRoutes.number_or (Some (discoveryCount l)) 1.

(** The record passes the filters the query asks for. *)
Definition selected (q : LogRoutes.query) (l : LogEntry) : bool :=
  (if LogRoutes.truthy_string (default "" (LogRoutes.query_q q))
   then LogRoutes.matchesSearch l (default "" (LogRoutes.query_q q))
   else true)
  && match LogRoutes.query_method q with
     | Some m =>
         if LogRoutes.truthy_string m
         then String.eqb (method l) (Js.toUpperCase m)
         else true
     | None => true
     end
  && match LogRoutes.query_hideAssets q with
     | Some flag => if String.eqb flag "true" then LogRoutes.not_an_asset l else true
     | None => true
     end.

(** The sum of the weights. *)
Definition total_weight (l : list LogEntry) : Z :=
  foldr (fun e sum => weight e + sum) 0 l.

(** The sum of their magnitudes, which bounds every partial sum. *)
Definition total_magnitude (l : list LogEntry) : Z :=
  foldr (fun e sum => Z.abs (weight e) + sum) 0 l.

(** The weights summed one after the other as the handler's [reduce]
    sums them, every partial sum a number. *)
Definition running_total (l : list LogEntry) : Z :=
  fold_left (fun sum e => Js.plus sum (weight e)) l 0.

End QueryVocabulary.

Section KeptVocabulary.
Import Exn LogStore.

(** The observation a record stands for. *)
Definition observation (r : LogEntry) : LogRoutes.body :=
  {| LogRoutes.hostname := hostname r; LogRoutes.method := method r;
     LogRoutes.normalizedPath := normalizedPath r;
     LogRoutes.queryKeys := Some (queryKeys r);
     LogRoutes.statusCodes := Some (statusCodes r);
     LogRoutes.discoveryCount := Some (discoveryCount r);
     LogRoutes.timestamp := Some (timestamp r) |}.

(** A record as the ingest handler leaves it: it stands for an
    observation the handler accepts, it has a fingerprint, the time it
    was received, and was never patched by [add]. *)
Definition as_ingested (r : LogEntry) : Prop :=
  accepted (observation r) = true
  ∧ truthy (fingerprint r) = true
  ∧ (∃ t, receivedAt r = Some t)
  ∧ lastPatched r = None.

End KeptVocabulary.

Section CountsVocabulary.
Import LogStore.

(** The magnitude of a count as a sum sees it: that of [count || 1]
    at most. *)
Definition magnitude (count : Z) : Z := Z.max (Z.abs count) 1.

(** The magnitudes of the counts of the records, added up. *)
Definition stored_magnitude (l : list LogEntry) : Z :=
  foldr (fun r sum => magnitude (discoveryCount r) + sum) 0 l.

(** The magnitudes of the counts the uploads among the requests bring
    ([discoveryCount || 1] each), added up. *)
Definition uploaded_magnitude (requests : list (Z * request)) : Z :=
  foldr (fun timed sum =>
           match snd timed with
           | Post b => Z.abs (LogRoutes.number_or (LogRoutes.discoveryCount b) 1) + sum
           | Delete => sum
           end) 0 requests.

End CountsVocabulary.

(** * Properties *)

(** ** Sums of numbers *)

Section Numbers.

(** Up to [2 ^ 53] in magnitude the sum of two integers is not rounded. *)
Lemma to_double_exact z : Z.abs z <= 2 ^ 53 → Js.to_double z = z.
Proof.
  intros Hz. unfold Js.to_double.
  destruct (Z.leb_spec (Z.abs z) (2 ^ 53)) as [_|Hgt]; [reflexivity|lia].
Qed.

Lemma plus_exact a b : Z.abs (a + b) <= 2 ^ 53 → Js.plus a b = a + b.
Proof. apply to_double_exact. Qed.

(** Beyond, it is rounded to a nearest number of 53 significant bits. *)
Lemma to_double_nearest z :
  let ulp := 2 ^ (Z.log2 (Z.abs z) - 52) in
  2 * Z.abs (Js.to_double z - z) <= ulp
  ∧ ∃ m, Js.to_double z = m * (if Z.abs z <=? 2 ^ 53 then 1 else ulp)
         ∧ Z.abs m <= 2 ^ 53.
Proof.
  intros ulp. unfold Js.to_double.
  destruct (Z.leb_spec (Z.abs z) (2 ^ 53)) as [Hle|Hgt].
  - split.
    + replace (z - z) with 0 by lia. simpl Z.abs. subst ulp. apply Z.pow_nonneg. lia.
    + exists z. split; lia.
  - fold ulp.
    assert (0 < Z.abs z) as Hpos by lia.
    pose proof (Z.log2_spec _ Hpos) as [Hlo Hhi].
    assert (53 <= Z.log2 (Z.abs z)) as Hlog.
    { apply Z.log2_le_pow2; lia. }
    assert (0 < ulp) as Hulp by (subst ulp; apply Z.pow_pos_nonneg; lia).
    assert (2 ^ Z.log2 (Z.abs z) = 2 ^ 52 * ulp) as Hsplit.
    { subst ulp. rewrite <- Z.pow_add_r by lia. f_equal. lia. }
    assert (2 ^ Z.succ (Z.log2 (Z.abs z)) = 2 ^ 53 * ulp) as Hsplit'.
    { subst ulp. rewrite <- Z.pow_add_r by lia. f_equal. lia. }
    pose proof (Z.div_mod (Z.abs z) ulp ltac:(lia)) as Hdm.
    pose proof (Z.mod_pos_bound (Z.abs z) ulp Hulp) as Hr.
    set (q := Z.abs z / ulp) in *. set (r := Z.abs z mod ulp) in *.
    assert (2 ^ 52 <= q < 2 ^ 53) as Hq by nia.
    set (q' := if 2 * r <? ulp then q
               else if ulp <? 2 * r then q + 1
               else if Z.even q then q else q + 1).
    assert ((q' = q ∧ 2 * r <= ulp) ∨ (q' = q + 1 ∧ ulp <= 2 * r)) as Hq'.
    { subst q'. destruct (Z.ltb_spec (2 * r) ulp); [left; lia|].
      destruct (Z.ltb_spec ulp (2 * r)); [right; lia|].
      destruct (Z.even q); [left|right]; lia. }
    split.
    + destruct (Z.abs_spec z) as [[Hz Ha]|[Hz Ha]].
      * rewrite Z.sgn_pos by lia. destruct Hq' as [[-> ?]|[-> ?]]; nia.
      * rewrite Z.sgn_neg by lia. destruct Hq' as [[-> ?]|[-> ?]]; nia.
    + exists (Z.sgn z * q'). split; [ring|].
      destruct (Z.abs_spec z) as [[Hz Ha]|[Hz Ha]];
        [rewrite Z.sgn_pos by lia|rewrite Z.sgn_neg by lia];
        destruct Hq' as [[-> ?]|[-> ?]]; lia.
Qed.

(** From [2 ^ 53] on a small addend is lost, and a half-way sum goes to
    the even neighbour. *)
Example plus_rounds :
  Js.plus (2 ^ 53) 1 = 2 ^ 53
  ∧ Js.plus (2 ^ 53) 3 = 2 ^ 53 + 4
  ∧ Js.plus (Js.plus (2 ^ 53 - 1) (2 ^ 53 - 1)) (2 ^ 53 - 1) = 3 * 2 ^ 53 - 4
  ∧ Js.plus (- 2 ^ 53) (-1) = - 2 ^ 53
  ∧ Js.plus (2 ^ 54) 2 = 2 ^ 54
  ∧ Js.plus (2 ^ 54) 6 = 2 ^ 54 + 8.
Proof. vm_compute. repeat split. Qed.

End Numbers.

(** ** Root domains and the same-domain comparison *)

Section RootDomain.

Lemma split_nonempty sep s : Js.split sep s ≠ [].
Proof.
  destruct s as [|c r]; simpl; [done|].
  destruct (Ascii.eqb c sep); [done|].
  by destruct (Js.split sep r).
Qed.

Lemma append_cons c p s : String c p +:+ s = String c (p +:+ s).
Proof. reflexivity. Qed.

Lemma split_label_app p rest :
  dot_free p = true →
  Js.split "." (p +:+ rest) =
  match Js.split "." rest with
  | h :: t => (p +:+ h) :: t
  | [] => [p]
  end.
Proof.
  induction p as [|c p IH]; simpl; intros Hp.
  - destruct (Js.split "." rest) eqn:E; [by apply split_nonempty in E|done].
  - apply andb_true_iff in Hp as [Hc Hp].
    apply negb_true_iff in Hc.
    rewrite Hc, (IH Hp).
    by destruct (Js.split "." rest).
Qed.

Lemma append_empty_r s : s +:+ "" = s.
Proof. induction s as [|c s IH]; [done|]. by rewrite append_cons, IH. Qed.

Lemma split_label p : dot_free p = true → Js.split "." p = [p].
Proof.
  intros Hp. rewrite <- (append_empty_r p) at 1.
  rewrite split_label_app by done. simpl. by rewrite append_empty_r.
Qed.

(** Splitting at the dots undoes joining labels with dots. *)
Lemma split_join labels :
  labels ≠ [] →
  Forall (fun l => dot_free l = true) labels →
  Js.split "." (Js.join "." labels) = labels.
Proof.
  induction labels as [|p rest IH]; [done|].
  intros _ Hall. inversion Hall as [|? ? Hp Hrest]; subst.
  destruct rest as [|q rest'].
  - simpl. by apply split_label.
  - change (Js.join "." (p :: q :: rest'))
      with (p +:+ String "." (Js.join "." (q :: rest'))).
    rewrite split_label_app by done.
    change (Js.split "." (String "." (Js.join "." (q :: rest'))))
      with ("" :: Js.split "." (Js.join "." (q :: rest'))).
    rewrite IH by done. by rewrite append_empty_r.
Qed.

Lemma slice_last_two {A} (pre : list A) a b :
  Js.slice_last 2 (pre ++ [a; b]) = [a; b].
Proof.
  unfold Js.slice_last. rewrite length_app. simpl.
  replace (length pre + 2 - 2)%nat with (length pre) by lia.
  by rewrite drop_app_length.
Qed.

Lemma getRootDomain_short labels :
  labels ≠ [] →
  Forall (fun l => dot_free l = true) labels →
  (length labels <= 2)%nat →
  RequestProcessor.getRootDomain (Js.join "." labels) = Js.join "." labels.
Proof.
  intros Hne Hall Hlen. unfold RequestProcessor.getRootDomain.
  rewrite split_join by done.
  by apply Nat.leb_le in Hlen as ->.
Qed.

Lemma getRootDomain_long pre a b :
  pre ≠ [] →
  Forall (fun l => dot_free l = true) (pre ++ [a; b]) →
  RequestProcessor.getRootDomain (Js.join "." (pre ++ [a; b])) = a +:+ "." +:+ b.
Proof.
  intros Hne Hall. unfold RequestProcessor.getRootDomain.
  rewrite split_join by (done || by destruct pre).
  rewrite slice_last_two.
  assert (length (pre ++ [a; b]) > 2)%nat as Hlen.
  { rewrite length_app. simpl. destruct pre; [done|simpl; lia]. }
  apply Nat.leb_gt in Hlen as ->. done.
Qed.

End RootDomain.

(** C10.  The same-domain comparison is reflexive and symmetric; it holds
    exactly when the two root domains are equal, and the root domain of a
    host name made of dot-separated labels is its last two labels joined
    by a dot, a single label being its own root domain. *)
Theorem C10_isSameDomain_reflexive_symmetric
    (h1 h2 : string) (pre : list string) (a b : string)
    (Hlabels : Forall (fun l => dot_free l = true) (pre ++ [a; b])) :
  RequestProcessor.isSameDomain h1 h1 = true
  ∧ RequestProcessor.isSameDomain h1 h2 = RequestProcessor.isSameDomain h2 h1
  ∧ (RequestProcessor.isSameDomain h1 h2 = true
     ↔ RequestProcessor.getRootDomain h1 = RequestProcessor.getRootDomain h2)
  ∧ RequestProcessor.getRootDomain (Js.join "." (pre ++ [a; b])) = a +:+ "." +:+ b
  ∧ RequestProcessor.getRootDomain a = a.
Proof.
  unfold RequestProcessor.isSameDomain.
  split; [apply String.eqb_refl|].
  split; [apply String.eqb_sym|].
  split; [apply String.eqb_eq|].
  assert (dot_free a = true) as Ha.
  { apply Forall_app in Hlabels as [_ Hab]. by inversion Hab. }
  split.
  - destruct pre as [|p pre].
    + by apply (getRootDomain_short [a; b]).
    + by apply getRootDomain_long.
  - assert (Forall (fun l => dot_free l = true) [a]) as Hone by by constructor.
    apply (getRootDomain_short [a]) in Hone; [exact Hone|done|simpl; lia].
Qed.

Lemma C10_isSameDomain_witness :
  RequestProcessor.isSameDomain "api.example.com" "www.example.com" = true
  ∧ RequestProcessor.getRootDomain (Js.join "." (["api"] ++ ["example"; "com"]))
    = "example.com".
Proof.
  destruct (C10_isSameDomain_reflexive_symmetric
              "api.example.com" "www.example.com" ["api"] "example" "com")
    as (_ & _ & Hiff & Hroot & _).
  - repeat constructor.
  - split; [apply Hiff; reflexivity|exact Hroot].
Defined.

(** ** The pre-filter *)

Section PreFilter.
Import Exn.

Lemma outcome_bind_inv {S A B} (m : M S A) (k : A -> M S B) s r :
  outcome (bind m k) s = Ok r → ∃ a s', outcome (k a) s' = Ok r.
Proof.
  unfold outcome, bind. destruct (m s) as [[a|e] s']; simpl; [eauto|done].
Qed.

(** Past its three early returns the ingest handler answers with the
    fingerprint, or throws. *)
Lemma post_logs_Ignored_inv b now w :
  outcome (LogRoutes.post_logs b now) w = Ok LogRoutes.Ignored →
  (LogRoutes.is_local_host (LogRoutes.hostname b)
   || ExtensionFilter.shouldIgnore (LogRoutes.method b) (LogRoutes.hostname b)
        (LogRoutes.normalizedPath b)) = true.
Proof.
  unfold LogRoutes.post_logs.
  destruct (_ || _ || _); [done|].
  destruct (LogRoutes.is_local_host _); [done|].
  destruct (ExtensionFilter.shouldIgnore _ _ _); [done|].
  intros H.
  apply outcome_bind_inv in H as (? & ? & H).
  apply outcome_bind_inv in H as (? & ? & H).
  apply outcome_bind_inv in H as (? & ? & H).
  done.
Qed.

End PreFilter.

(** C6, counterexample.  [shouldIgnore] does not look at the host name:
    for the loopback host [localhost] and an API path it answers [false]. *)
Lemma C6_shouldIgnore_loopback_counterexample :
  ¬ (∀ method hostname normalizedPath,
       ExtensionFilter.shouldIgnore method hostname normalizedPath = true
       ↔ (LogRoutes.is_local_host hostname = true
          ∨ ExtensionFilter.has_ignored_extension normalizedPath = true
          ∨ ExtensionFilter.matches_noise normalizedPath = true)).
Proof.
  intros H.
  destruct (H "GET" "localhost" "/api/users") as [_ Hfrom].
  assert (ExtensionFilter.shouldIgnore "GET" "localhost" "/api/users" = false) as Hno
    by (vm_compute; reflexivity).
  rewrite Hfrom in Hno; [discriminate|].
  left. vm_compute. reflexivity.
Qed.

(** C6, amended.  [shouldIgnore] answers [true] exactly when the extension
    of the path is in the static-asset set or the path matches a noise
    pattern, whatever the method and the host name are; the loopback test
    is the guard of the ingest handler, which answers [ignored] exactly
    when the required fields are present and the host name is local, the
    extension is in the set or the path matches a noise pattern. *)
Theorem C6_shouldIgnore_extension_or_noise
    (method hostname normalizedPath method' hostname' : string)
    (b : LogRoutes.body) (now : Z) (w : LogStore.World) :
  ExtensionFilter.shouldIgnore method hostname normalizedPath
  = (ExtensionFilter.has_ignored_extension normalizedPath
     || ExtensionFilter.matches_noise normalizedPath)
  ∧ ExtensionFilter.shouldIgnore method' hostname' normalizedPath
    = ExtensionFilter.shouldIgnore method hostname normalizedPath
  ∧ (Exn.outcome (LogRoutes.post_logs b now) w = Exn.Ok LogRoutes.Ignored
     ↔ (LogRoutes.hostname b ≠ "" ∧ LogRoutes.method b ≠ ""
        ∧ LogRoutes.normalizedPath b ≠ "")
       ∧ (LogRoutes.is_local_host (LogRoutes.hostname b)
          || ExtensionFilter.has_ignored_extension (LogRoutes.normalizedPath b)
          || ExtensionFilter.matches_noise (LogRoutes.normalizedPath b)) = true).
Proof.
  assert (∀ m h p, ExtensionFilter.shouldIgnore m h p
                   = (ExtensionFilter.has_ignored_extension p
                      || ExtensionFilter.matches_noise p)) as Hshould.
  { intros m h p. unfold ExtensionFilter.shouldIgnore.
    by destruct (ExtensionFilter.has_ignored_extension p),
                (ExtensionFilter.matches_noise p). }
  split; [apply Hshould|].
  split; [by rewrite !Hshould|].
  rewrite <- orb_assoc, <- (Hshould (LogRoutes.method b) (LogRoutes.hostname b)).
  split.
  - intros H. split; [|by apply post_logs_Ignored_inv in H].
    unfold LogRoutes.post_logs, LogRoutes.truthy_string in H.
    destruct (String.eqb_spec (LogRoutes.hostname b) "") as [->|?]; [done|].
    destruct (String.eqb_spec (LogRoutes.method b) "") as [->|?]; [done|].
    destruct (String.eqb_spec (LogRoutes.normalizedPath b) "") as [->|?]; done.
  - intros [(Hh & Hm & Hp) Hor].
    unfold LogRoutes.post_logs, LogRoutes.truthy_string.
    apply String.eqb_neq in Hh, Hm, Hp. rewrite Hh, Hm, Hp. simpl.
    destruct (LogRoutes.is_local_host _); [done|].
    simpl in Hor. by rewrite Hor.
Qed.

(** ** Classification *)

Section Classification.

Lemma status_5xx_three_digits :
  forallb starts_with_5_is_5xx (seqZ 100 900) = true.
Proof. vm_compute. reflexivity. Qed.

Lemma status_5xx s :
  s = 0 ∨ 100 <= s <= 999 →
  RequestProcessor.status_starts_with "5" s = (500 <=? s) && (s <=? 599).
Proof.
  intros [->|Hs]; [reflexivity|].
  pose proof status_5xx_three_digits as Hall.
  rewrite forallb_forall in Hall.
  apply Bool.eqb_prop, Hall, list_elem_of_In, elem_of_seqZ. lia.
Qed.

Lemma existsb_elem_of {A} (f : A → bool) (l : list A) :
  existsb f l = true ↔ ∃ x, x ∈ l ∧ f x = true.
Proof.
  rewrite existsb_exists. by setoid_rewrite list_elem_of_In.
Qed.

Lemma arr_includes_elem_of x l : Js.arr_includes x l = true ↔ x ∈ l.
Proof.
  unfold Js.arr_includes. rewrite existsb_elem_of. split.
  - intros (y & Hy & Heq). by apply String.eqb_eq in Heq as ->.
  - intros Hx. exists x. by rewrite String.eqb_refl.
Qed.

Lemma classify_path p :
  (if RequestProcessor.truthy_string p then p else "") = p.
Proof.
  unfold RequestProcessor.truthy_string.
  by destruct (String.eqb_spec p "") as [->|].
Qed.

(** The tags the score reads are pushed under the two pattern tests. *)
Lemma classify_tags_includes method p hostname statusCode isPrimaryContext :
  let c := RequestProcessor.classifyRequest method p hostname statusCode isPrimaryContext in
  Js.arr_includes "authentication" (RequestProcessor.tags c)
  = Regex.test true RequestProcessor.AUTH_PATTERN p
  ∧ Js.arr_includes "api-endpoint" (RequestProcessor.tags c)
    = Regex.test true RequestProcessor.API_PATTERN p
  ∧ Js.arr_includes "state-change" (RequestProcessor.tags c)
    = RequestProcessor.isStateChangingMethod method
  ∧ Js.arr_includes "business-logic" (RequestProcessor.tags c)
    = RequestProcessor.hasActionWords p.
Proof.
  unfold RequestProcessor.classifyRequest. rewrite classify_path.
  cbn [RequestProcessor.tags].
  destruct (RequestProcessor.status_starts_with "5" statusCode),
           (RequestProcessor.status_starts_with "4" statusCode),
           (Regex.test true RequestProcessor.AUTH_PATTERN p),
           (Regex.test true RequestProcessor.API_PATTERN p),
           (RequestProcessor.isStateChangingMethod method),
           (Regex.test true RequestProcessor.INFRA_PATTERN p),
           (RequestProcessor.hasActionWords p),
           isPrimaryContext; vm_compute; done.
Qed.

End Classification.

(** C7, counterexample.  The score does not test for the class 5xx: a
    status code of 5, 59 or 5000 is no 5xx code and still adds 10,
    because its decimal rendering starts with the digit 5.  A POST to
    [/v2/items], 45 points by method and path, is thereby critical. *)
Lemma C7_status_not_5xx_counterexample :
  let claimed (method path : string) (statusCode : Z) (tags : list string) :=
    (if RequestProcessor.isStateChangingMethod method then 30 else 0)
    + (if RequestProcessor.hasActionWords path then 25 else 0)
    + (if Js.arr_includes "authentication" tags then 20 else 0)
    + (if Js.arr_includes "api-endpoint" tags then 15 else 0)
    + (if (500 <=? statusCode) && (statusCode <=? 599) then 10 else 0) in
  let plain s := RequestProcessor.classifyRequest "GET" "/home" "www.example.com" s true in
  let items s := RequestProcessor.classifyRequest "POST" "/v2/items" "www.example.com" s true in
  (fun s => RequestProcessor.score (plain s)) <$> [5; 59; 5000] = [10; 10; 10]
  ∧ (fun s => claimed "GET" "/home" s (RequestProcessor.tags (plain s))) <$> [5; 59; 5000]
    = [0; 0; 0]
  ∧ (fun s => RequestProcessor.tags (plain s)) <$> [5; 59; 5000]
    = [ ["server-error"; "primary-context"]; ["server-error"; "primary-context"];
        ["server-error"; "primary-context"] ]
  ∧ RequestProcessor.score (items 5) = 55
  ∧ claimed "POST" "/v2/items" 5 (RequestProcessor.tags (items 5)) = 45
  ∧ RequestProcessor.critical (items 5) = true
  ∧ (50 <=? claimed "POST" "/v2/items" 5 (RequestProcessor.tags (items 5))) = false.
Proof. by vm_compute. Qed.

(** C7, amended.  The score of [classifyRequest] is 30 for a
    state-changing method (POST, PUT, DELETE, PATCH, in any case), plus 25
    when an action word occurs in the lower-cased path, plus 20 with the
    tag [authentication], plus 15 with the tag [api-endpoint], plus 10
    when the status code is not zero and its decimal rendering starts
    with the digit 5, whatever the status code; for 0 and for the codes of
    three digits this last test is the test for 500..599.  [critical] is
    [score >= 50]; a POST to [/api/users/login] on [api.example.com] with
    status 200 gets the four tags and is critical. *)
Theorem C7_classifyRequest_score
    (method normalizedPath hostname : string) (statusCode : Z)
    (isPrimaryContext : bool) :
  let c := RequestProcessor.classifyRequest method normalizedPath hostname
             statusCode isPrimaryContext in
  let login := RequestProcessor.classifyRequest "POST" "/api/users/login"
                 "api.example.com" 200 isPrimaryContext in
  RequestProcessor.score c
  = (if RequestProcessor.isStateChangingMethod method then 30 else 0)
    + (if RequestProcessor.hasActionWords normalizedPath then 25 else 0)
    + (if Js.arr_includes "authentication" (RequestProcessor.tags c) then 20 else 0)
    + (if Js.arr_includes "api-endpoint" (RequestProcessor.tags c) then 15 else 0)
    + (if RequestProcessor.status_starts_with "5" statusCode then 10 else 0)
  ∧ (statusCode = 0 ∨ 100 <= statusCode <= 999 →
     RequestProcessor.status_starts_with "5" statusCode
     = (500 <=? statusCode) && (statusCode <=? 599))
  ∧ RequestProcessor.critical c = (50 <=? RequestProcessor.score c)
  ∧ (RequestProcessor.isStateChangingMethod method = true
     ↔ Js.toUpperCase method ∈ ["POST"; "PUT"; "DELETE"; "PATCH"])
  ∧ (RequestProcessor.hasActionWords normalizedPath = true
     ↔ ∃ word, word ∈ Config.ACTION_WORDS
               ∧ Js.includes word (Js.toLowerCase normalizedPath) = true)
  ∧ ("authentication" ∈ RequestProcessor.tags c
     ↔ Regex.test true RequestProcessor.AUTH_PATTERN normalizedPath = true)
  ∧ ("api-endpoint" ∈ RequestProcessor.tags c
     ↔ Regex.test true RequestProcessor.API_PATTERN normalizedPath = true)
  ∧ ("authentication" ∈ RequestProcessor.tags login
     ∧ "api-endpoint" ∈ RequestProcessor.tags login
     ∧ "state-change" ∈ RequestProcessor.tags login
     ∧ "business-logic" ∈ RequestProcessor.tags login
     ∧ RequestProcessor.score login = 90
     ∧ RequestProcessor.critical login = true).
Proof.
  intros c login.
  destruct (classify_tags_includes method normalizedPath hostname statusCode
              isPrimaryContext) as (Hauth & Hapi & _ & _).
  fold c in Hauth, Hapi.
  split; [|split; [exact (status_5xx statusCode)|]].
  { subst c. unfold RequestProcessor.classifyRequest in *.
    cbn [RequestProcessor.score RequestProcessor.tags] in *.
    rewrite classify_path in *. rewrite Hauth, Hapi.
    destruct (RequestProcessor.isStateChangingMethod method),
             (RequestProcessor.hasActionWords normalizedPath),
             (Regex.test true RequestProcessor.AUTH_PATTERN normalizedPath),
             (Regex.test true RequestProcessor.API_PATTERN normalizedPath),
             (RequestProcessor.status_starts_with "5" statusCode); reflexivity. }
  split; [reflexivity|].
  split.
  { split.
    - unfold RequestProcessor.isStateChangingMethod. intros H.
      apply andb_true_iff in H as [_ H]. by apply arr_includes_elem_of.
    - unfold RequestProcessor.isStateChangingMethod. intros H.
      apply andb_true_iff. split; [|by apply arr_includes_elem_of].
      unfold RequestProcessor.truthy_string.
      destruct (String.eqb_spec method "") as [->|]; [|done].
      vm_compute in H. by repeat (apply elem_of_cons in H as [H|H]; [done|]);
        apply elem_of_nil in H. }
  split.
  { unfold RequestProcessor.hasActionWords, RequestProcessor.truthy_string.
    destruct (String.eqb_spec normalizedPath "") as [->|]; simpl negb; cbv iota.
    - split; [done|].
      intros (word & Hin & Hinc). exfalso. revert Hinc.
      vm_compute in Hin.
      repeat (apply elem_of_cons in Hin as [->|Hin]; [by vm_compute|]).
      by apply elem_of_nil in Hin.
    - split; [by intros H; apply existsb_elem_of in H|by intros H; apply existsb_elem_of]. }
  split; [rewrite <- Hauth; symmetry; apply arr_includes_elem_of|].
  split; [rewrite <- Hapi; symmetry; apply arr_includes_elem_of|].
  subst login.
  destruct isPrimaryContext;
    (split; [apply arr_includes_elem_of; by vm_compute|]);
    (split; [apply arr_includes_elem_of; by vm_compute|]);
    (split; [apply arr_includes_elem_of; by vm_compute|]);
    (split; [apply arr_includes_elem_of; by vm_compute|]);
    by vm_compute.
Qed.

(** ** Fingerprints *)

Section Fingerprints.

Lemma all_bytes_agree : forallb byte_renderings_agree (seqZ 0 256) = true.
Proof. vm_compute. reflexivity. Qed.

Lemma byte_agree b :
  is_byte b →
  FingerprintEngine.padStart 2 "0" (FingerprintEngine.toString 16 b)
  = ExtensionFilter.hex [b]
  ∧ ExtensionFilter.hex [b] = lowercase_hex [b]
  ∧ forallb is_lowercase_hex (list_ascii_of_string (ExtensionFilter.hex [b])) = true.
Proof.
  intros Hb. pose proof all_bytes_agree as Hall.
  rewrite forallb_forall in Hall.
  specialize (Hall b). unfold byte_renderings_agree in Hall.
  rewrite !andb_true_iff, !String.eqb_eq in Hall.
  destruct Hall as [[[? ?] ?] _]; [|done].
  apply list_elem_of_In, elem_of_seqZ. unfold is_byte in Hb. lia.
Qed.

Lemma hex_cons b rest :
  ExtensionFilter.hex (b :: rest) = ExtensionFilter.hex [b] +:+ ExtensionFilter.hex rest.
Proof. reflexivity. Qed.

Lemma lowercase_hex_cons b rest :
  lowercase_hex (b :: rest) = lowercase_hex [b] +:+ lowercase_hex rest.
Proof. reflexivity. Qed.

Lemma join_empty_cons p rest : Js.join "" (p :: rest) = p +:+ Js.join "" rest.
Proof.
  destruct rest; simpl; [by rewrite append_empty_r|done].
Qed.

Lemma list_ascii_of_string_app s1 s2 :
  list_ascii_of_string (s1 +:+ s2) = list_ascii_of_string s1 ++ list_ascii_of_string s2.
Proof. induction s1 as [|c s1 IH]; simpl; [done|by rewrite IH]. Qed.

Lemma string_length_app s1 s2 :
  String.length (s1 +:+ s2) = (String.length s1 + String.length s2)%nat.
Proof. induction s1 as [|c s1 IH]; simpl; [done|by rewrite IH]. Qed.

(** The three renderings of a sequence of bytes. *)
Lemma renderings_agree bytes :
  Forall is_byte bytes →
  Js.join "" (map (fun b => FingerprintEngine.padStart 2 "0" (FingerprintEngine.toString 16 b)) bytes)
  = ExtensionFilter.hex bytes
  ∧ ExtensionFilter.hex bytes = lowercase_hex bytes
  ∧ forallb is_lowercase_hex (list_ascii_of_string (ExtensionFilter.hex bytes)) = true
  ∧ String.length (ExtensionFilter.hex bytes) = (2 * length bytes)%nat.
Proof.
  induction 1 as [|b rest Hb _ (IH1 & IH2 & IH3 & IH4)]; [done|].
  destruct (byte_agree b Hb) as (H1 & H2 & H3).
  rewrite map_cons, join_empty_cons, hex_cons, lowercase_hex_cons.
  rewrite IH1, H1, <- IH2, <- H2.
  repeat split.
  - by rewrite list_ascii_of_string_app, forallb_app, H3, IH3.
  - rewrite string_length_app, IH4.
    cbn [ExtensionFilter.hex String.length length]. lia.
Qed.

Lemma land_255_byte x : is_byte (Z.land x 0xFF).
Proof.
  unfold is_byte. change 0xFF with (Z.ones 8).
  rewrite Z.land_ones by lia. apply Z.mod_pos_bound. lia.
Qed.

Lemma be_bytes_spec n x :
  Forall is_byte (SHA256.be_bytes n x) ∧ length (SHA256.be_bytes n x) = n.
Proof.
  induction n as [|n [IH1 IH2]]; simpl; [done|].
  split; [constructor; [apply land_255_byte|done]|by rewrite IH2].
Qed.

Lemma round_length st kw : length (SHA256.round st kw) = length st.
Proof.
  destruct st as [|a [|b [|c [|d [|e [|f [|g [|h [|i st]]]]]]]]]; reflexivity.
Qed.

Lemma compress_length h block : length h = 8%nat → length (SHA256.compress h block) = 8%nat.
Proof.
  intros Hh. unfold SHA256.compress.
  rewrite length_map, length_combine.
  assert (∀ l st, length (fold_left SHA256.round l st) = length st) as Hfold.
  { induction l as [|kw l IH]; intros st; simpl; [done|].
    by rewrite IH, round_length. }
  rewrite Hfold. lia.
Qed.

Lemma blocks_length fuel ws h : length h = 8%nat → length (SHA256.blocks fuel ws h) = 8%nat.
Proof.
  revert ws h. induction fuel as [|fuel IH]; intros ws h Hh; simpl; [done|].
  destruct ws; [done|]. by apply IH, compress_length.
Qed.

(** A digest is 32 bytes. *)
Lemma digest_bytes msg :
  Forall is_byte (SHA256.digest msg) ∧ length (SHA256.digest msg) = 32%nat.
Proof.
  unfold SHA256.digest.
  set (ws := SHA256.words _ _).
  pose proof (blocks_length (length ws) ws SHA256.H0 eq_refl) as Hlen.
  revert Hlen. generalize (SHA256.blocks (length ws) ws SHA256.H0) as hs.
  intros hs Hlen.
  assert (Forall is_byte (flat_map (SHA256.be_bytes 4) hs)
          ∧ length (flat_map (SHA256.be_bytes 4) hs) = (4 * length hs)%nat) as [Hb Hl].
  { clear Hlen. induction hs as [|w hs [IH1 IH2]]; [by split|].
    change (flat_map (SHA256.be_bytes 4) (w :: hs))
      with (SHA256.be_bytes 4 w ++ flat_map (SHA256.be_bytes 4) hs).
    destruct (be_bytes_spec 4 w) as [Hw1 Hw2].
    split; [by apply Forall_app|].
    rewrite length_app, Hw2, IH2. cbn [length]. lia. }
  split; [exact Hb|]. rewrite Hl, Hlen. reflexivity.
Qed.

End Fingerprints.

(** C2.  The capture side and the backend compute the same fingerprint of
    a triple, and it is the lower-case hexadecimal SHA-256 digest of the
    bytes of [method:hostname:normalizedPath]: 64 characters out of
    [0123456789abcdef].  Both are functions of the triple alone, so equal
    triples get equal digests, in whatever process they are computed. *)
Theorem C2_generateFingerprint_agree
    (method hostname normalizedPath method' hostname' normalizedPath' : string)
    (Hsame : (method, hostname, normalizedPath) = (method', hostname', normalizedPath')) :
  FingerprintEngine.generateFingerprint method hostname normalizedPath
  = ExtensionFilter.generateFingerprint method hostname normalizedPath
  ∧ ExtensionFilter.generateFingerprint method hostname normalizedPath
    = fingerprint_spec method hostname normalizedPath
  ∧ FingerprintEngine.generateFingerprint method hostname normalizedPath
    = FingerprintEngine.generateFingerprint method' hostname' normalizedPath'
  ∧ ExtensionFilter.generateFingerprint method hostname normalizedPath
    = ExtensionFilter.generateFingerprint method' hostname' normalizedPath'
  ∧ String.length (ExtensionFilter.generateFingerprint method hostname normalizedPath)
    = 64%nat
  ∧ forallb is_lowercase_hex
      (list_ascii_of_string
         (ExtensionFilter.generateFingerprint method hostname normalizedPath)) = true.
Proof.
  unfold FingerprintEngine.generateFingerprint, ExtensionFilter.generateFingerprint,
    fingerprint_spec.
  change FingerprintEngine.TextEncoder_encode with string_bytes.
  change ExtensionFilter.utf8 with string_bytes.
  set (combined := method +:+ ":" +:+ hostname +:+ ":" +:+ normalizedPath).
  destruct (digest_bytes (string_bytes combined)) as [Hbytes Hlen].
  destruct (renderings_agree _ Hbytes) as (H1 & H2 & H3 & H4).
  rewrite Hlen in H4.
  split; [exact H1|]. split; [exact H2|].
  split; [|split; [|split; [exact H4|exact H3]]].
  - subst combined. injection Hsame as <- <- <-. reflexivity.
  - subst combined. injection Hsame as <- <- <-. reflexivity.
Qed.

Lemma C2_generateFingerprint_witness :
  FingerprintEngine.generateFingerprint "POST" "api.example.com" "/api/users/login"
  = ExtensionFilter.generateFingerprint "POST" "api.example.com" "/api/users/login".
Proof.
  apply (C2_generateFingerprint_agree
           "POST" "api.example.com" "/api/users/login"
           "POST" "api.example.com" "/api/users/login").
  reflexivity.
Defined.

(** The digest of the example observation of the data model. *)
Example fingerprint_login :
  ExtensionFilter.generateFingerprint "POST" "api.example.com" "/api/users/login"
  = "e35c3a8d840e41f7204dfe9c16fb3d5738a6b6eab47e3747830cb9e629b4d70a".
Proof. vm_compute. reflexivity. Qed.

(** The first and the last round constant and the first initial hash word
    of FIPS 180-4. *)
Example sha256_constants :
  length SHA256.K = 64%nat
  ∧ head SHA256.K = Some 0x428a2f98
  ∧ last SHA256.K = Some 0xc67178f2
  ∧ head SHA256.H0 = Some 0x6a09e667
  ∧ last SHA256.H0 = Some 0x5be0cd19.
Proof. vm_compute. repeat split; reflexivity. Qed.

(** FIPS 180-4 test vectors. *)
Example sha256_abc :
  ExtensionFilter.hex (SHA256.digest (ExtensionFilter.utf8 "abc"))
  = "ba7816bf8f01cfea414140de5dae2223b00361a396177a9cb410ff61f20015ad".
Proof. vm_compute. reflexivity. Qed.

Example sha256_two_blocks :
  ExtensionFilter.hex
    (SHA256.digest
       (ExtensionFilter.utf8 "abcdbcdecdefdefgefghfghighijhijkijkljklmklmnlmnomnopnopq"))
  = "248d6a61d20638b8e5c026930c3e6039a33ce45964ff2167f6ecedd419db06c1".
Proof. vm_compute. reflexivity. Qed.

(** ** The session fingerprint cache *)

Section SessionCache.
Import FingerprintEngine.

Implicit Types (m l : session_map) (a b : string * cached).

Lemma sort_insert_perm a l : sort_insert a l ≡ₚ a :: l.
Proof.
  induction l as [|b l IH]; simpl; [done|].
  destruct (compare_entries a b <=? 0); [done|].
  by rewrite IH, Permutation_swap.
Qed.

Lemma sort_perm l : sort l ≡ₚ l.
Proof.
  induction l as [|a l IH]; simpl; [done|].
  by rewrite sort_insert_perm, IH.
Qed.

Lemma sort_insert_sorted a l :
  StronglySorted newer_or_equal l → StronglySorted newer_or_equal (sort_insert a l).
Proof.
  induction 1 as [|b l Hl IH Hb]; simpl.
  - by repeat constructor.
  - destruct (Z.leb_spec (compare_entries a b) 0) as [Hle|Hgt].
    + unfold compare_entries in Hle.
      constructor; [by constructor|].
      constructor; [unfold newer_or_equal; lia|].
      eapply Forall_impl; [exact Hb|].
      unfold newer_or_equal. intros c Hc. lia.
    + unfold compare_entries in Hgt.
      constructor; [done|].
      rewrite sort_insert_perm.
      constructor; [unfold newer_or_equal; lia|done].
Qed.

Lemma sort_sorted l : StronglySorted newer_or_equal (sort l).
Proof.
  induction l as [|a l IH]; simpl; [constructor|by apply sort_insert_sorted].
Qed.

(** In a sorted array whatever is kept by [slice(0, n)] is at least as
    new as whatever is cut off. *)
Lemma sorted_take_drop n l kept gone :
  StronglySorted newer_or_equal l →
  kept ∈ take n l → gone ∈ drop n l → newer_or_equal kept gone.
Proof.
  intros Hl. revert n. induction Hl as [|a l Hl IH Ha]; intros n Hk Hg.
  - by rewrite take_nil in Hk; apply elem_of_nil in Hk.
  - destruct n as [|n]; [by apply elem_of_nil in Hk|].
    simpl in Hk, Hg. apply elem_of_cons in Hk as [->|Hk].
    + rewrite Forall_forall in Ha. apply Ha.
      by eapply subseteq_drop.
    + by eapply IH.
Qed.

Lemma map_set_fresh fp v m : fp ∉ m.*1 → map_set fp v m = m ++ [(fp, v)].
Proof.
  induction m as [|[k w] m IH]; simpl; intros Hfp; [done|].
  apply not_elem_of_cons in Hfp as [Hne Hfp].
  destruct (String.eqb_spec k fp) as [->|_]; [done|].
  by rewrite IH.
Qed.

Lemma map_set_keys fp v m :
  (map_set fp v m).*1 = if decide (fp ∈ m.*1) then m.*1 else m.*1 ++ [fp].
Proof.
  induction m as [|[k w] m IH].
  - cbn [map_set fmap list_fmap fst].
    case_decide as Hin; [by apply elem_of_nil in Hin|done].
  - cbn [map_set]. destruct (String.eqb_spec k fp) as [->|Hne].
    + rewrite decide_True; [done|]. rewrite fmap_cons. apply list_elem_of_here.
    + rewrite !fmap_cons, IH. cbn [fst].
      destruct (decide (fp ∈ m.*1)) as [Hin|Hnin].
      * rewrite decide_True; [done|]. by apply list_elem_of_further.
      * rewrite decide_False; [done|].
        by intros [?|?]%elem_of_cons.
Qed.

Lemma incr_count_keys fp m : (incr_count fp m).*1 = m.*1.
Proof.
  induction m as [|[k w] m IH]; [done|].
  cbn [incr_count]. destruct (String.eqb k fp); [done|].
  by rewrite !fmap_cons, IH.
Qed.

Lemma map_set_NoDup fp v m : NoDup m.*1 → NoDup (map_set fp v m).*1.
Proof.
  intros Hm. rewrite map_set_keys. case_decide as Hin; [done|].
  apply NoDup_app. split; [done|]. split; [|apply NoDup_singleton].
  intros x Hx ->%list_elem_of_singleton. done.
Qed.

(** Refilling the cleared map with entries of distinct keys gives the
    entries back, in their order. *)
Lemma refill entries acc :
  NoDup (acc ++ entries).*1 →
  fold_left (fun acc e => map_set (fst e) (snd e) acc) entries acc = acc ++ entries.
Proof.
  revert acc. induction entries as [|[k v] entries IH]; intros acc Hnd; simpl.
  - by rewrite app_nil_r.
  - rewrite map_set_fresh.
    + rewrite IH; rewrite <- app_assoc; done.
    + rewrite fmap_app, fmap_cons in Hnd.
      apply NoDup_app in Hnd as (_ & Hdisj & _).
      intros Hin. apply (Hdisj _ Hin). by left.
Qed.

Lemma take_keys_NoDup n l : NoDup l.*1 → NoDup (take n l).*1.
Proof.
  intros Hl. rewrite fmap_take.
  eapply sublist_NoDup; [exact Hl|apply sublist_take].
Qed.

(** What eviction keeps. *)
Lemma prune_evicts n m :
  NoDup m.*1 → (n < length m)%nat →
  pruneOldFingerprints n m = take n (sort m).
Proof.
  intros Hm Hlen. unfold pruneOldFingerprints.
  apply Nat.ltb_lt in Hlen as ->.
  rewrite refill; [done|]. simpl.
  apply take_keys_NoDup. by rewrite sort_perm.
Qed.

Lemma prune_keeps n m : (length m <= n)%nat → pruneOldFingerprints n m = m.
Proof.
  intros Hlen. unfold pruneOldFingerprints.
  by apply Nat.ltb_ge in Hlen as ->.
Qed.

Lemma touched_NoDup now fp m : NoDup m.*1 → NoDup (touched now fp m).*1.
Proof.
  intros Hm. unfold touched. destruct (negb (map_has fp m)).
  - by apply map_set_NoDup.
  - by rewrite incr_count_keys.
Qed.

(** Keys stay distinct and the bound holds after every call. *)
Lemma updateFingerprint_NoDup_length n now fp m :
  NoDup m.*1 →
  NoDup (updateFingerprint n now fp m).*1
  ∧ (length (updateFingerprint n now fp m) <= n)%nat.
Proof.
  intros Hm. pose proof (touched_NoDup now fp m Hm) as Hnd.
  change (updateFingerprint n now fp m)
    with (pruneOldFingerprints n (touched now fp m)).
  destruct (Nat.le_gt_cases (length (touched now fp m)) n) as [Hle|Hgt].
  - by rewrite prune_keeps.
  - rewrite prune_evicts by done. split.
    + apply take_keys_NoDup. by rewrite sort_perm.
    + rewrite length_take. lia.
Qed.

End SessionCache.

(** C9.  After [updateFingerprint] the cache holds at most the configured
    number of entries.  When the insert-or-increment step leaves more than
    that, exactly the configured number stay; they are entries of the map
    as it was after that step, with their [firstSeen] and [count], and
    every entry dropped was first seen no later than every entry kept. *)
Theorem C9_updateFingerprint_bounded
    (maxFingerprints : nat) (now : Z) (fp : string)
    (m : FingerprintEngine.session_map)
    (Hmap : NoDup m.*1) :
  let m' := FingerprintEngine.updateFingerprint maxFingerprints now fp m in
  NoDup m'.*1
  ∧ (length m' <= maxFingerprints)%nat
  ∧ ((length (touched now fp m) <= maxFingerprints)%nat → m' = touched now fp m)
  ∧ ((maxFingerprints < length (touched now fp m))%nat →
     length m' = maxFingerprints
     ∧ ∃ dropped,
         touched now fp m ≡ₚ m' ++ dropped
         ∧ ∀ kept gone, kept ∈ m' → gone ∈ dropped →
             FingerprintEngine.firstSeen (snd gone)
             <= FingerprintEngine.firstSeen (snd kept)).
Proof.
  intros m'.
  destruct (updateFingerprint_NoDup_length maxFingerprints now fp m Hmap) as [Hnd' Hle'].
  split; [exact Hnd'|]. split; [exact Hle'|].
  assert (m' = FingerprintEngine.pruneOldFingerprints maxFingerprints (touched now fp m))
    as Hm' by reflexivity.
  pose proof (touched_NoDup now fp m Hmap) as Hnd.
  split.
  - intros Hle. by rewrite Hm', prune_keeps.
  - intros Hgt. rewrite prune_evicts in Hm' by done. rewrite Hm'.
    split; [rewrite length_take, sort_perm; lia|].
    exists (drop maxFingerprints (FingerprintEngine.sort (touched now fp m))).
    split; [by rewrite take_drop, sort_perm|].
    intros kept gone Hk Hg.
    exact (sorted_take_drop maxFingerprints _ kept gone (sort_sorted _) Hk Hg).
Qed.

Lemma C9_updateFingerprint_witness :
  FingerprintEngine.updateFingerprint 2 30 "c"
    [ ("a", {| FingerprintEngine.firstSeen := 10; FingerprintEngine.count := 4 |});
      ("b", {| FingerprintEngine.firstSeen := 20; FingerprintEngine.count := 1 |}) ]
  = [ ("c", {| FingerprintEngine.firstSeen := 30; FingerprintEngine.count := 1 |});
      ("b", {| FingerprintEngine.firstSeen := 20; FingerprintEngine.count := 1 |}) ]
  ∧ (length
       (FingerprintEngine.updateFingerprint 2 30 "c"
          [ ("a", {| FingerprintEngine.firstSeen := 10; FingerprintEngine.count := 4 |});
            ("b", {| FingerprintEngine.firstSeen := 20; FingerprintEngine.count := 1 |}) ])
     <= 2)%nat.
Proof.
  split; [reflexivity|].
  apply (C9_updateFingerprint_bounded 2 30 "c"
           [ ("a", {| FingerprintEngine.firstSeen := 10; FingerprintEngine.count := 4 |});
             ("b", {| FingerprintEngine.firstSeen := 20; FingerprintEngine.count := 1 |}) ]).
  apply (bool_decide_unpack _). vm_compute. reflexivity.
Defined.

(** X25.  The bound holds along every run of the engine from the empty
    cache: whatever fingerprints are recorded, at whatever times, the
    session cache holds pairwise distinct fingerprints and never more
    than [SESSION_FINGERPRINT_LIMIT] of them. *)
Lemma session_cache_bounded (calls : list (Z * string)) :
  let m := fold_left
             (fun m c => FingerprintEngine.updateFingerprint
                           Config.SESSION_FINGERPRINT_LIMIT (fst c) (snd c) m)
             calls [] in
  NoDup m.*1 ∧ (length m <= Config.SESSION_FINGERPRINT_LIMIT)%nat.
Proof.
  induction calls as [|c calls IH] using rev_ind; simpl.
  - split; [constructor|unfold Config.SESSION_FINGERPRINT_LIMIT; lia].
  - rewrite fold_left_app. simpl. destruct IH as [IH _].
    by apply updateFingerprint_NoDup_length.
Qed.

(** ** Loading the durable file *)

Section Loading.
Import Exn LogStore.

(** The [forEach] of [load] touches the index only, and throws exactly
    when it meets a [null]. *)
Lemma rebuild_index_spec items index w :
  ∃ ix,
    rebuild_index items index w
    = (if forallb not_null items then Ok tt else Throw "TypeError",
       {| self := with_index ix (self w); node := node w |}).
Proof.
  revert index w. induction items as [|[log|] items IH]; intros index w.
  - exists (fingerprintIndex (self w)). by destruct w as [[] ?].
  - destruct (truthy (fingerprint log)) eqn:Ht.
    + destruct (IH (S index)
                  {| self := with_index (<[fingerprint log := index]>
                                           (fingerprintIndex (self w))) (self w);
                     node := node w |}) as [ix Hix].
      exists ix. cbn [rebuild_index forallb not_null andb]. rewrite Ht.
      unfold Exn.bind at 1. cbn. rewrite Hix. done.
    + destruct (IH (S index) w) as [ix Hix].
      exists ix. cbn [rebuild_index forallb not_null andb]. rewrite Ht.
      unfold Exn.bind at 1. cbn. rewrite Hix. done.
  - exists (fingerprintIndex (self w)). by destruct w as [[] ?].
Qed.

Lemma load_spec (s : t) (r : Runtime) :
  fingerprintIndex s = ∅ →
  fst (load {| self := s; node := r |}) = Ok tt
  ∧ load_outcome r (snd (load {| self := s; node := r |})).
Proof.
  intros Hix. destruct s as [l ix sch pen], r as [f rd wr tm co ws].
  simpl in Hix. subst ix. unfold load_outcome, loads_cleanly.
  cbn [file read_ok write_ok writes console].
  destruct f as [[| |items]|].
  - (* a syntax error *)
    rewrite andb_false_r.
    destruct rd, wr; cbv -[app elem_of Js.String_of_Z Z.of_nat length String.append]; in_console.
  - (* not an array *)
    rewrite andb_true_r.
    destruct rd, wr; cbv -[app elem_of Js.String_of_Z Z.of_nat length String.append]; in_console.
  - (* an array *)
    destruct rd; cbn [andb].
    + remember (load _) as L eqn:HL.
      unfold load, try_catch in HL.
      cbn -[rebuild_index] in HL. unfold Exn.bind in HL.
      match type of HL with context [rebuild_index items 0%nat ?w] =>
        destruct (rebuild_index_spec items 0 w) as [ix' Hix'];
        rewrite Hix' in HL end.
      destruct (forallb not_null items); destruct wr;
        cbv -[app omap elem_of Js.String_of_Z Z.of_nat length String.append] in HL; subst L; cbv -[app omap elem_of Js.String_of_Z Z.of_nat length String.append]; in_console.
    + destruct wr; cbv -[app elem_of Js.String_of_Z Z.of_nat length String.append]; in_console.
  - (* no file *)
    destruct wr; cbv -[app elem_of Js.String_of_Z Z.of_nat length String.append]; in_console.
Qed.

End Loading.

(** C5, counterexample.  A file that parses to something that is not an
    array is not rewritten and no error is logged: the store is empty and
    the file stays as it was. *)
Lemma C5_load_not_array_counterexample :
  let r := {| LogStore.file := Some LogStore.NotAnArray;
              LogStore.read_ok := true; LogStore.write_ok := true;
              LogStore.timers := []; LogStore.console := [];
              LogStore.writes := [] |} in
  let w := snd (LogStore.constructor r) in
  LogStore.logs (LogStore.self w) = []
  ∧ LogStore.file (LogStore.node w) = Some LogStore.NotAnArray
  ∧ LogStore.writes (LogStore.node w) = []
  ∧ LogStore.console (LogStore.node w)
    = [LogStore.console_log "[LogStore] Loaded 0 logs"]
  ∧ ¬ (LogStore.file (LogStore.node w) = Some (LogStore.ArrayOf [])).
Proof. vm_compute. repeat split; done. Qed.

(** C5, amended.  The constructor never throws, whatever the file is and
    whether or not it can be read or written.  With no file, the store is
    empty and the empty array is written at once.  With a file that cannot
    be read, does not parse or holds a [null] element, the store is empty,
    the error is logged and the empty array is written (or the failure of
    that write is logged).  A file that parses is not written; when what
    it holds is not an array the store is empty, and nothing but the load
    message is logged. *)
Theorem C5_load_never_fails (r : LogStore.Runtime) :
  fst (LogStore.constructor r) = Exn.Ok tt
  ∧ load_outcome r (snd (LogStore.constructor r))
  ∧ (LogStore.file r = Some LogStore.NotAnArray → LogStore.read_ok r = true →
     LogStore.logs (LogStore.self (snd (LogStore.constructor r))) = []
     ∧ LogStore.node (snd (LogStore.constructor r))
       = {| LogStore.file := LogStore.file r; LogStore.read_ok := LogStore.read_ok r;
            LogStore.write_ok := LogStore.write_ok r; LogStore.timers := LogStore.timers r;
            LogStore.console :=
              LogStore.console r ++ [LogStore.console_log "[LogStore] Loaded 0 logs"];
            LogStore.writes := LogStore.writes r |}).
Proof.
  destruct (load_spec LogStore.fresh r eq_refl) as [Hok Hout].
  split; [exact Hok|]. split; [exact Hout|].
  intros Hfile Hread. destruct r as [f rd wr tm co ws].
  simpl in Hfile, Hread. subst f rd. by vm_compute.
Qed.

Lemma C5_load_witness :
  LogStore.logs
    (LogStore.self
       (snd (LogStore.constructor
               {| LogStore.file := Some LogStore.NotAnArray;
                  LogStore.read_ok := true; LogStore.write_ok := true;
                  LogStore.timers := []; LogStore.console := [];
                  LogStore.writes := [] |}))) = [].
Proof.
  apply (C5_load_never_fails
           {| LogStore.file := Some LogStore.NotAnArray;
              LogStore.read_ok := true; LogStore.write_ok := true;
              LogStore.timers := []; LogStore.console := [];
              LogStore.writes := [] |}); reflexivity.
Defined.

(** ** The store: index and records *)

Section StoreInvariant.
Import Exn LogStore.

Lemma indexed_fresh : indexed fresh.
Proof.
  split; simpl; [done|].
  intros fp i. rewrite lookup_empty. split; [done|by intros (r & Hr & _)].
Qed.

Lemma indexed_same s s' :
  logs s' = logs s → fingerprintIndex s' = fingerprintIndex s →
  indexed s → indexed s'.
Proof. intros Hl Hi [? ?]. split; by rewrite Hl, Hi. Qed.

(** No two records share a fingerprint. *)
Lemma indexed_NoDup s : indexed s → NoDup (fingerprint <$> logs s).
Proof.
  intros [_ Hix]. apply NoDup_alt. intros i j fp Hi Hj.
  rewrite list_lookup_fmap in Hi, Hj.
  destruct (logs s !! i) as [ri|] eqn:Hri; [|done].
  destruct (logs s !! j) as [rj|] eqn:Hrj; [|done].
  simpl in Hi, Hj. injection Hi as Hi. injection Hj as Hj.
  assert (fingerprintIndex s !! fp = Some i) as Hfi by (apply Hix; eauto).
  assert (fingerprintIndex s !! fp = Some j) as Hfj by (apply Hix; eauto).
  congruence.
Qed.

(** A record updated in place under its fingerprint. *)
Lemma indexed_patch s i old new :
  indexed s → logs s !! i = Some old → fingerprint new = fingerprint old →
  indexed (with_logs (<[i := new]> (logs s)) s).
Proof.
  intros [Hsize Hix] Hold Hfp.
  pose proof (lookup_lt_Some _ _ _ Hold) as Hlt.
  split; simpl; [by rewrite length_insert|].
  intros fp j. rewrite Hix. destruct (decide (j = i)) as [->|Hne].
  - rewrite list_lookup_insert_eq by done. rewrite Hold. split.
    + intros (r & [= <-] & <-). eauto.
    + intros (r & [= <-] & <-). exists old. by rewrite Hfp.
  - by rewrite list_lookup_insert_ne.
Qed.

(** A record with a fingerprint the index does not know, put last. *)
Lemma indexed_push s e sch pen :
  indexed s → fingerprintIndex s !! fingerprint e = None →
  indexed {| logs := logs s ++ [e];
             fingerprintIndex := <[fingerprint e := length (logs s)]> (fingerprintIndex s);
             saveScheduled := sch; savePending := pen |}.
Proof.
  intros [Hsize Hix] Hnew. split; simpl.
  - rewrite length_app. simpl. rewrite map_size_insert_None by done. lia.
  - intros fp j. destruct (decide (fp = fingerprint e)) as [->|Hne].
    + rewrite lookup_insert_eq. split.
      * intros [= <-]. exists e. split; [|done].
        rewrite lookup_app_r by lia. by rewrite Nat.sub_diag.
      * intros (r & Hr & Hfpr).
        destruct (decide (j < length (logs s))%nat) as [Hlt|Hge].
        -- rewrite lookup_app_l in Hr by done.
           assert (fingerprintIndex s !! fingerprint e = Some j) as Hj
             by (apply Hix; eauto).
           congruence.
        -- rewrite lookup_app_r in Hr by lia.
           destruct (j - length (logs s))%nat as [|k] eqn:Hk; [|done].
           f_equal. lia.
    + rewrite lookup_insert_ne by done. rewrite Hix. split.
      * intros (r & Hr & Hfpr). exists r. split; [|done].
        by apply lookup_app_l_Some.
      * intros (r & Hr & Hfpr). exists r. split; [|done].
        apply lookup_app_Some in Hr as [Hr|[_ Hr]]; [done|].
        destruct (j - length (logs s))%nat as [|k]; [|done].
        simpl in Hr. injection Hr as <-. congruence.
Qed.

(** What holds of all records but the one at [i] holds of all of them
    once it holds of the new record at [i]. *)
Lemma insert_all (P : LogEntry → Prop) (l : list LogEntry) i new :
  (∀ r, r ∈ l → P r) → P new → ∀ r, r ∈ <[i := new]> l → P r.
Proof.
  intros Hl Hnew r Hr. apply list_elem_of_lookup in Hr as [j Hj].
  destruct (decide (j = i)) as [->|Hne].
  - destruct (decide (i < length l)%nat) as [Hlt|Hge].
    + rewrite list_lookup_insert_eq in Hj by done. by injection Hj as <-.
    + rewrite list_insert_ge in Hj by lia. apply Hl. by eapply list_elem_of_lookup_2.
  - rewrite list_lookup_insert_ne in Hj by done.
    apply Hl. by eapply list_elem_of_lookup_2.
Qed.

Lemma assign_fingerprint old e :
  fingerprint old = fingerprint e →
  fingerprint (Object_assign old e) = fingerprint e.
Proof. intros Heq. simpl. rewrite Heq. by destruct (fingerprint e). Qed.

Lemma add_existing now e s i old :
  fingerprintIndex s !! fingerprint e = Some i →
  logs s !! i = Some old →
  add now e s
  = (Ok {| isNew := false; result_fingerprint := fingerprint e;
           entry := set_lastPatched now (Object_assign old e) |},
     with_savePending true
       (with_logs (<[i := set_lastPatched now (Object_assign old e)]> (logs s)) s)).
Proof.
  intros Hix Hold. unfold add, bind, get. simpl. by rewrite Hix, Hold.
Qed.

Lemma add_new now e s :
  fingerprintIndex s !! fingerprint e = None →
  add now e s
  = (Ok {| isNew := true; result_fingerprint := fingerprint e;
           entry := set_receivedAt now e |},
     {| logs := logs s ++ [set_receivedAt now e];
        fingerprintIndex := <[fingerprint e := length (logs s)]> (fingerprintIndex s);
        saveScheduled := saveScheduled s;
        savePending := true |}).
Proof.
  intros Hix. unfold add, bind, get. simpl. rewrite Hix. simpl.
  rewrite length_app. simpl.
  by replace (length (logs s) + 1 - 1)%nat with (length (logs s)) by lia.
Qed.

Lemma added_more history o s : added history s → added (history ++ [o]) s.
Proof.
  intros Hadded r Hr. destruct (Hadded r Hr) as (now & e & Hin & Hc).
  exists now, e. split; [apply elem_of_app; by left|done].
Qed.

(** One mutation keeps index and records in agreement, and does not
    throw. *)
Lemma step_indexed history o s :
  indexed s → added history s →
  ∃ s', step o s = (Ok tt, s') ∧ indexed s' ∧ added (history ++ [o]) s'.
Proof.
  intros Hs Hadded. destruct o as [now e|].
  - assert (Add now e ∈ history ++ [Add now e]) as Hlast
      by (apply elem_of_app; right; apply list_elem_of_here).
    destruct (fingerprintIndex s !! fingerprint e) as [i|] eqn:Hfp.
    + (* a known fingerprint: the record at [i] is patched *)
      destruct (proj1 (indexed_index _ Hs _ _) Hfp) as (old & Hold & Hfpold).
      pose proof (assign_fingerprint old e Hfpold) as Hassign.
      eexists. split; [|split].
      * unfold step, bind. by rewrite (add_existing now e s i old).
      * apply (indexed_same
                 (with_logs (<[i := set_lastPatched now (Object_assign old e)]> (logs s)) s));
          [done|done|].
        apply (indexed_patch s i old); [done|done|].
        by rewrite Hfpold.
      * intros r Hr. cbn [logs with_logs with_savePending] in Hr. revert r Hr.
        apply (insert_all
                 (fun r => ∃ now' e', Add now' e' ∈ history ++ [Add now e] ∧ carries r e'));
          [by apply added_more|].
        exists now, e. by repeat split.
    + (* a new fingerprint: the entry goes last *)
      eexists. split; [|split].
      * unfold step, bind. by rewrite (add_new now e s).
      * by apply (indexed_push s (set_receivedAt now e)).
      * intros r [Hr|Hr]%elem_of_app; [by apply (added_more history _ s)|].
        apply list_elem_of_singleton in Hr as ->.
        exists now, e. by repeat split.
  - (* clear *)
    eexists. split; [reflexivity|]. split.
    + eapply indexed_same; [| |exact indexed_fresh]; done.
    + by intros r Hr%elem_of_nil.
Qed.

Lemma run_indexed ops history s :
  indexed s → added history s →
  ∃ s', run ops s = (Ok tt, s') ∧ indexed s' ∧ added (history ++ ops) s'.
Proof.
  revert history s. induction ops as [|o ops IH]; intros history s Hs Hadded.
  - exists s. by rewrite app_nil_r.
  - destruct (step_indexed history o s Hs Hadded) as (s1 & Hstep & Hs1 & Hadded1).
    destruct (IH _ _ Hs1 Hadded1) as (s2 & Hrun & Hs2 & Hadded2).
    exists s2. split; [|split; [done|]].
    + simpl. unfold bind. by rewrite Hstep.
    + by rewrite <- app_assoc in Hadded2.
Qed.

(** *** The store behind the ingest handler *)

Lemma exec_bind {S A B} (m : M S A) (k : A → M S B) s a s' :
  m s = (Ok a, s') → exec (bind m k) s = exec (k a) s'.
Proof. intros Hm. unfold exec, bind. by rewrite Hm. Qed.

Lemma exec_then_ret {S A B} (m : M S A) (b : B) s :
  exec (m ;;; ret b) s = exec m s.
Proof. unfold exec, bind. by destruct (m s) as [[a|e] s']. Qed.

(** The callback of the timeout and the scheduling leave records and
    index alone. *)
Lemma timeout_callback_store d w :
  logs (self (exec (timeout_callback d) w)) = logs (self w)
  ∧ fingerprintIndex (self (exec (timeout_callback d) w)) = fingerprintIndex (self w).
Proof.
  destruct w as [[l ix sch pen] [f rd wr tm co ws]].
  by destruct wr, pen.
Qed.

Lemma scheduleAsyncSave_store now w :
  logs (self (exec (scheduleAsyncSave now) w)) = logs (self w)
  ∧ fingerprintIndex (self (exec (scheduleAsyncSave now) w)) = fingerprintIndex (self w).
Proof.
  destruct w as [[l ix sch pen] [f rd wr tm co ws]].
  by destruct sch.
Qed.

Lemma fire_due_store fuel until w :
  logs (self (fire_due fuel until w)) = logs (self w)
  ∧ fingerprintIndex (self (fire_due fuel until w)) = fingerprintIndex (self w).
Proof.
  revert w. induction fuel as [|fuel IH]; intros w; [done|].
  simpl. destruct (earliest (timers (node w))) as [d|]; [|done].
  destruct (d <=? until); [|done].
  destruct (IH (exec (timeout_callback d)
                  (with_timers (remove_first d (timers (node w))) w))) as [-> ->].
  by destruct (timeout_callback_store d
                 (with_timers (remove_first d (timers (node w))) w)) as [-> ->].
Qed.

Lemma post_logs_indexed b now w :
  indexed (self w) → filed (self w) →
  indexed (self (exec (LogRoutes.post_logs b now) w))
  ∧ filed (self (exec (LogRoutes.post_logs b now) w)).
Proof.
  intros Hw Hfiled. unfold LogRoutes.post_logs.
  destruct (_ || _ || _); [done|].
  destruct (LogRoutes.is_local_host _); [done|].
  destruct (ExtensionFilter.shouldIgnore _ _ _); [done|].
  set (fp := ExtensionFilter.generateFingerprint _ _ _).
  rewrite (exec_bind _ _ w w w) by done.
  destruct (fingerprintIndex (self w) !! Some fp) as [i|] eqn:Hfp.
  - destruct (proj1 (indexed_index _ Hw _ _) Hfp) as (old & Hold & Hfpold).
    rewrite Hold.
    erewrite exec_bind; [|reflexivity].
    rewrite exec_then_ret.
    match goal with |- context [exec (scheduleAsyncSave now) ?w1] =>
      destruct (scheduleAsyncSave_store now w1) as [Hl Hi] end.
    unfold filed. rewrite Hl. split.
    + eapply indexed_same; [exact Hl|exact Hi|].
      by apply (indexed_patch (self w) i old).
    + intros r Hr. cbn [logs with_logs self snd this zoom modify] in Hr. revert r Hr.
      apply (insert_all (fun r => fingerprint r = recomputed r)); [done|].
      change (fingerprint old = recomputed old). apply Hfiled.
      by eapply list_elem_of_lookup_2.
  - pose proof (add_new now (LogRoutes.new_entry now b fp) (self w) Hfp) as Hadd.
    erewrite exec_bind; last first.
    { unfold bind, this, zoom. rewrite Hadd. reflexivity. }
    rewrite exec_then_ret.
    match goal with |- context [exec (scheduleAsyncSave now) ?w1] =>
      destruct (scheduleAsyncSave_store now w1) as [Hl Hi] end.
    unfold filed. rewrite Hl. split.
    + eapply indexed_same; [exact Hl|exact Hi|].
      by apply (indexed_push (self w) (set_receivedAt now (LogRoutes.new_entry now b fp))).
    + intros r [Hr|Hr]%elem_of_app; [by apply Hfiled|].
      by apply list_elem_of_singleton in Hr as ->.
Qed.

Lemma delete_logs_indexed now w :
  indexed (self (exec (LogRoutes.delete_logs now) w))
  ∧ filed (self (exec (LogRoutes.delete_logs now) w)).
Proof.
  destruct w as [[l ix sch pen] [f rd wr tm co ws]].
  destruct wr; (split; [eapply indexed_same; [| |exact indexed_fresh]; done|]);
    by intros r Hr%elem_of_nil.
Qed.

(** Whatever requests the backend serves, in whatever rhythm, index and
    records agree afterwards and every record is filed under the
    fingerprint recomputed from its own fields. *)
Lemma served_store_indexed (requests : list (Z * request)) w :
  indexed (self w) → filed (self w) →
  indexed (self (fold_left serve requests w))
  ∧ filed (self (fold_left serve requests w)).
Proof.
  revert w. induction requests as [|[now [b|]] requests IH]; intros w Hw Hfiled; [done|..].
  - cbn [fold_left].
    change (serve w (now, Post b))
      with (exec (LogRoutes.post_logs b now) (advance now w)).
    destruct (fire_due_store (S (length (timers (node w)))) now w) as [Hl Hi].
    destruct (post_logs_indexed b now (advance now w)) as [H1 H2].
    + by eapply indexed_same.
    + unfold filed, advance. by rewrite Hl.
    + by apply IH.
  - cbn [fold_left].
    change (serve w (now, Delete))
      with (exec (LogRoutes.delete_logs now) (advance now w)).
    destruct (delete_logs_indexed now (advance now w)) as [H1 H2].
    by apply IH.
Qed.

End StoreInvariant.

(** C3.  No sequence of [add] and [clear] calls on a new store throws, and
    afterwards the index has as many fingerprints as there are records, no
    two records share a fingerprint, every record is found in the index
    under its own fingerprint at its own position, every entry of the
    index points at a record with that fingerprint, and every record
    carries the observation of some [add] of the sequence. *)
Theorem C3_index_and_records_agree (ops : list op) :
  ∃ s,
    run ops LogStore.fresh = (Exn.Ok tt, s)
    ∧ size (LogStore.fingerprintIndex s) = length (LogStore.logs s)
    ∧ NoDup (LogStore.fingerprint <$> LogStore.logs s)
    ∧ (∀ i r, LogStore.logs s !! i = Some r →
              LogStore.fingerprintIndex s !! LogStore.fingerprint r = Some i)
    ∧ (∀ fp i, LogStore.fingerprintIndex s !! fp = Some i →
               ∃ r, LogStore.logs s !! i = Some r ∧ LogStore.fingerprint r = fp)
    ∧ (∀ r, r ∈ LogStore.logs s → ∃ now e, Add now e ∈ ops ∧ carries r e).
Proof.
  destruct (run_indexed ops [] LogStore.fresh indexed_fresh) as (s & Hrun & Hs & Hadded).
  { by intros r Hr%elem_of_nil. }
  exists s. split; [exact Hrun|].
  split; [apply Hs|]. split; [by apply indexed_NoDup|].
  destruct Hs as [_ Hix].
  split; [|split].
  - intros i r Hr. apply Hix. eauto.
  - intros fp i Hfp. by apply Hix.
  - exact Hadded.
Qed.

(** X26.  Behind the ingest and clear handlers, started on an empty log
    file, index and records agree whatever the requests and their
    timing: the index has as many fingerprints as there are records, no
    two records share a fingerprint, every record is found in the index
    under its own fingerprint at its own position, and every record is
    filed under the fingerprint recomputed from its own method, host name
    and path. *)
Lemma served_store_agrees (requests : list (Z * request)) :
  let s := LogStore.self (fold_left serve requests started) in
  size (LogStore.fingerprintIndex s) = length (LogStore.logs s)
  ∧ NoDup (LogStore.fingerprint <$> LogStore.logs s)
  ∧ (∀ i r, LogStore.logs s !! i = Some r →
            LogStore.fingerprintIndex s !! LogStore.fingerprint r = Some i
            ∧ LogStore.fingerprint r = recomputed r).
Proof.
  destruct (served_store_indexed requests started) as [Hs Hfiled].
  - eapply indexed_same; [| |exact indexed_fresh]; done.
  - by intros r Hr%elem_of_nil.
  - split; [apply Hs|]. split; [by apply indexed_NoDup|].
    intros i r Hr. split.
    + apply (indexed_index _ Hs). eauto.
    + apply Hfiled. by eapply list_elem_of_lookup_2.
Qed.

(** ** Upserting a known fingerprint *)

Section Upsert.
Import Exn LogStore.

(** The status-code loop of the ingest handler adds what is new, once,
    behind what is there. *)
Lemma push_new_codes_spec codes existing :
  (∀ c, c ∈ LogRoutes.push_new_codes codes existing ↔ c ∈ existing ∨ c ∈ codes)
  ∧ (NoDup existing → NoDup (LogRoutes.push_new_codes codes existing))
  ∧ existing `prefix_of` LogRoutes.push_new_codes codes existing.
Proof.
  revert existing. induction codes as [|code codes IH]; intros existing.
  - simpl. split; [|split]; [|done|done].
    intros c. split; [by left|]. by intros [?|?%elem_of_nil].
  - unfold LogRoutes.push_new_codes. simpl.
    fold (LogRoutes.push_new_codes codes).
    destruct (existsb (Z.eqb code) existing) eqn:Hin.
    + apply existsb_elem_of in Hin as (x & Hx & Heq%Z.eqb_eq). subst x.
      destruct (IH existing) as (Hmem & Hnd & Hpre).
      split; [|split]; [|done|done].
      intros c. rewrite Hmem, elem_of_cons. intuition congruence.
    + assert (code ∉ existing) as Hnin.
      { intros Hc. apply not_true_iff_false in Hin. apply Hin.
        apply existsb_elem_of. exists code. by rewrite Z.eqb_refl. }
      destruct (IH (existing ++ [code])) as (Hmem & Hnd & Hpre).
      split; [|split].
      * intros c. rewrite Hmem, elem_of_app, list_elem_of_singleton, elem_of_cons.
        tauto.
      * intros Hex. apply Hnd, NoDup_app. split; [done|].
        split; [|apply NoDup_singleton].
        by intros x Hx ->%list_elem_of_singleton.
      * etrans; [|exact Hpre]. by apply prefix_app_r.
Qed.

End Upsert.

(** C1, counterexample.  [add] overwrites: adding the identical
    observation a second time leaves [discoveryCount] at 1, and adding the
    endpoint with another status code replaces the codes seen so far. *)
Lemma C1_add_overwrites_counterexample :
  let s1 := Exn.exec (LogStore.add 1 login_200) LogStore.fresh in
  let twice := Exn.exec (LogStore.add 2 login_200) s1 in
  let other := Exn.exec (LogStore.add 2 login_500) s1 in
  LogStore.discoveryCount <$> LogStore.logs twice = [1]
  ∧ LogStore.discoveryCount <$> LogStore.logs twice ≠ [2]
  ∧ LogStore.statusCodes <$> LogStore.logs other = [[500]]
  ∧ ¬ (∀ r, r ∈ LogStore.logs other → 200 ∈ LogStore.statusCodes r).
Proof.
  vm_compute. repeat split; try done.
  intros H. specialize (H _ (list_elem_of_here _ _)).
  apply elem_of_cons in H as [H|H%elem_of_nil]; done.
Qed.

(** C1, amended.  [add] of a candidate whose fingerprint is in the index
    updates the record in place: the record keeps its position, the index,
    the number of records and the other records stay as they are; what the
    candidate carries overwrites what the record held, [receivedAt] is
    kept and [lastPatched] is the time of the call.  So when the record
    already carries the candidate's observation, its status codes, query
    keys and discovery count are unchanged. *)
Theorem C1_add_updates_in_place
    (now : Z) (e old : LogStore.LogEntry) (s : LogStore.t) (i : nat)
    (Hknown : LogStore.fingerprintIndex s !! LogStore.fingerprint e = Some i)
    (Hold : LogStore.logs s !! i = Some old) :
  ∃ s' patched,
    LogStore.add now e s
    = (Exn.Ok {| LogStore.isNew := false;
                 LogStore.result_fingerprint := LogStore.fingerprint e;
                 LogStore.entry := patched |}, s')
    ∧ LogStore.logs s' = <[i := patched]> (LogStore.logs s)
    ∧ LogStore.logs s' !! i = Some patched
    ∧ length (LogStore.logs s') = length (LogStore.logs s)
    ∧ (∀ j, j ≠ i → LogStore.logs s' !! j = LogStore.logs s !! j)
    ∧ LogStore.fingerprintIndex s' = LogStore.fingerprintIndex s
    ∧ LogStore.savePending s' = true
    ∧ LogStore.saveScheduled s' = LogStore.saveScheduled s
    ∧ LogStore.hostname patched = LogStore.hostname e
    ∧ LogStore.method patched = LogStore.method e
    ∧ LogStore.normalizedPath patched = LogStore.normalizedPath e
    ∧ LogStore.statusCodes patched = LogStore.statusCodes e
    ∧ LogStore.queryKeys patched = LogStore.queryKeys e
    ∧ LogStore.discoveryCount patched = LogStore.discoveryCount e
    ∧ LogStore.timestamp patched = LogStore.timestamp e
    ∧ LogStore.receivedAt patched
      = LogStore.or_else (LogStore.receivedAt e) (LogStore.receivedAt old)
    ∧ LogStore.lastPatched patched = Some now
    ∧ (carries old e →
       LogStore.statusCodes patched = LogStore.statusCodes old
       ∧ LogStore.queryKeys patched = LogStore.queryKeys old
       ∧ LogStore.discoveryCount patched = LogStore.discoveryCount old).
Proof.
  pose proof (lookup_lt_Some _ _ _ Hold) as Hlt.
  eexists _, _. split; [by apply add_existing|].
  simpl. split; [done|].
  split; [by apply list_lookup_insert_eq|].
  split; [by apply length_insert|].
  split; [by intros j Hj; apply list_lookup_insert_ne|].
  do 12 (split; [done|]).
  intros (_ & _ & _ & _ & Hkeys & Hcodes & Hcount & _).
  by rewrite Hkeys, Hcodes, Hcount.
Qed.

Lemma C1_add_witness :
  LogStore.statusCodes <$>
    LogStore.logs (Exn.exec (LogStore.add 2 login_500)
                     (Exn.exec (LogStore.add 1 login_200) LogStore.fresh))
  = [LogStore.statusCodes login_500].
Proof.
  destruct (C1_add_updates_in_place 2 login_500 (LogStore.set_receivedAt 1 login_200)
              (Exn.exec (LogStore.add 1 login_200) LogStore.fresh) 0)
    as (s' & patched & Hadd & Hlogs & _ & _ & _ & _ & _ & _ & _ & _ & _ & Hcodes & _).
  - vm_compute. reflexivity.
  - vm_compute. reflexivity.
  - unfold Exn.exec at 1. rewrite Hadd. cbn [snd]. rewrite Hlogs.
    change (LogStore.logs (Exn.exec (LogStore.add 1 login_200) LogStore.fresh))
      with [LogStore.set_receivedAt 1 login_200].
    cbn [insert list_insert fmap list_fmap]. by rewrite Hcodes.
Defined.

(** X27.  The merge of the data model is the update branch of the ingest
    handler: for a known fingerprint it adds the hint to the discovery
    count and the new status codes to the codes seen, without repeating
    a code, and leaves the query keys and the fingerprint alone.  The new
    count is the sum of two numbers, which is their exact sum while that
    is at most [2 ^ 53] in magnitude. *)
Lemma patch_existing_merges now b old :
  let merged := LogRoutes.patch_existing now b old in
  let existing := LogRoutes.number_or (Some (LogStore.discoveryCount old)) 1 in
  let uploaded := LogRoutes.number_or (LogRoutes.discoveryCount b) 1 in
  (Z.abs (existing + uploaded) <= 2 ^ 53 →
   LogStore.discoveryCount merged = existing + uploaded)
  ∧ (∀ c, c ∈ LogStore.statusCodes merged
          ↔ c ∈ LogStore.statusCodes old ∨ c ∈ default [] (LogRoutes.statusCodes b))
  ∧ (NoDup (LogStore.statusCodes old) → NoDup (LogStore.statusCodes merged))
  ∧ LogStore.queryKeys merged = LogStore.queryKeys old
  ∧ LogStore.fingerprint merged = LogStore.fingerprint old.
Proof.
  intros merged existing uploaded.
  split; [by apply plus_exact|].
  subst merged. cbn [LogRoutes.patch_existing LogStore.statusCodes LogStore.queryKeys
                       LogStore.fingerprint].
  destruct (LogRoutes.statusCodes b) as [codes|]; simpl.
  - destruct (push_new_codes_spec codes (LogStore.statusCodes old)) as (? & ? & _).
    done.
  - repeat split; try done; [by left|]. by intros [?|?%elem_of_nil].
Qed.

(** ** The debounced save *)

Section Debounce.
Import Exn LogStore.

Lemma world_eta w :
  w = world (logs (self w)) (fingerprintIndex (self w)) (saveScheduled (self w))
        (savePending (self w)) (file (node w)) (read_ok (node w))
        (write_ok (node w)) (timers (node w)) (console (node w))
        (writes (node w)).
Proof. by destruct w as [[] []]. Qed.

(** *** The three operations, field by field *)

Lemma scheduleAsyncSave_world now l ix sch pen f rd wr tm co ws :
  exec (scheduleAsyncSave now) (world l ix sch pen f rd wr tm co ws)
  = if sch then world l ix true true f rd wr tm co ws
    else world l ix true pen f rd wr (tm ++ [now + SAVE_DEBOUNCE_MS]) co ws.
Proof. by destruct sch. Qed.

Lemma timeout_callback_world now l ix sch pen f rd tm co ws :
  exec (timeout_callback now) (world l ix sch pen f rd true tm co ws)
  = world l ix pen false (Some (ArrayOf (Some <$> l))) rd true
      (if pen then tm ++ [now + SAVE_DEBOUNCE_MS] else tm) co (ws ++ [l]).
Proof. by destruct pen. Qed.

Lemma saveNow_world l ix sch pen f rd wr tm co ws :
  exec saveNow (world l ix sch pen f rd wr tm co ws)
  = if wr
    then world l ix false false (Some (ArrayOf (Some <$> l))) rd true tm co (ws ++ [l])
    else world l ix sch pen f rd false tm
           (co ++ [console_error "[LogStore] Error in saveNow():" "EACCES"]) ws.
Proof. by destruct wr. Qed.

(** *** The event loop on one armed timeout *)

Lemma advance_not_due until l ix sch pen f rd wr d co ws :
  until < d →
  advance until (world l ix sch pen f rd wr [d] co ws)
  = world l ix sch pen f rd wr [d] co ws.
Proof.
  intros Hlt. unfold advance. cbn.
  by destruct (Z.leb_spec d until); [lia|].
Qed.

Lemma advance_idle until l ix sch pen f rd wr co ws :
  advance until (world l ix sch pen f rd wr [] co ws)
  = world l ix sch pen f rd wr [] co ws.
Proof. reflexivity. Qed.

Lemma remove_first_head d rest : remove_first d (d :: rest) = rest.
Proof. simpl. by rewrite Z.eqb_refl. Qed.

(** The timeout fires and nothing was marked: one write, idle again. *)
Lemma advance_fires until l ix sch f rd d co ws :
  d <= until →
  advance until (world l ix sch false f rd true [d] co ws)
  = world l ix false false (Some (ArrayOf (Some <$> l))) rd true [] co (ws ++ [l]).
Proof.
  intros Hle. unfold advance. cbn [length timers node world fire_due earliest].
  destruct (Z.leb_spec d until); [|lia].
  unfold with_timers. cbn [timers node world self file read_ok write_ok console writes].
  rewrite remove_first_head.
  change (exec (timeout_callback d) _)
    with (exec (timeout_callback d) (world l ix sch false f rd true [] co ws)).
  rewrite timeout_callback_world. reflexivity.
Qed.

(** The timeout fires and a further save was marked: one write, and
    the timeout is armed afresh. *)
Lemma advance_rearms until l ix sch f rd d co ws :
  d <= until < d + SAVE_DEBOUNCE_MS →
  advance until (world l ix sch true f rd true [d] co ws)
  = world l ix true false (Some (ArrayOf (Some <$> l))) rd true
      [d + SAVE_DEBOUNCE_MS] co (ws ++ [l]).
Proof.
  intros [Hle Hlt]. unfold advance. cbn [length timers node world fire_due earliest].
  destruct (Z.leb_spec d until); [|lia].
  unfold with_timers. cbn [timers node world self file read_ok write_ok console writes].
  rewrite remove_first_head.
  change (exec (timeout_callback d) _)
    with (exec (timeout_callback d) (world l ix sch true f rd true [] co ws)).
  rewrite timeout_callback_world. cbn [app earliest timers node world].
  by destruct (Z.leb_spec (d + SAVE_DEBOUNCE_MS) until); [lia|].
Qed.

(** Both windows have passed: the marked save has been written too. *)
Lemma advance_trailing until l ix sch f rd d co ws :
  d + SAVE_DEBOUNCE_MS <= until →
  advance until (world l ix sch true f rd true [d] co ws)
  = world l ix false false (Some (ArrayOf (Some <$> l))) rd true [] co
      ((ws ++ [l]) ++ [l]).
Proof.
  intros Hle. unfold advance. cbn [length timers node world fire_due earliest].
  assert (0 <= SAVE_DEBOUNCE_MS) by (unfold SAVE_DEBOUNCE_MS; lia).
  destruct (Z.leb_spec d until); [|lia].
  unfold with_timers. cbn [timers node world self file read_ok write_ok console writes].
  rewrite remove_first_head.
  change (exec (timeout_callback d) _)
    with (exec (timeout_callback d) (world l ix sch true f rd true [] co ws)).
  rewrite timeout_callback_world. cbn [app earliest timers node world].
  destruct (Z.leb_spec (d + SAVE_DEBOUNCE_MS) until); [|lia].
  rewrite remove_first_head.
  change (exec (timeout_callback (d + SAVE_DEBOUNCE_MS)) _)
    with (exec (timeout_callback (d + SAVE_DEBOUNCE_MS))
            (world l ix true false (Some (ArrayOf (Some <$> l))) rd true [] co
               (ws ++ [l]))).
  rewrite timeout_callback_world. reflexivity.
Qed.

(** *** Bursts and spaced requests *)

(** Requests inside the window of an armed timeout only mark. *)
Lemma burst_marks ts l ix pen f rd wr d co ws :
  Forall (fun t => t < d) ts →
  flush_requests ts (world l ix true pen f rd wr [d] co ws)
  = world l ix true (pen || bool_decide (ts ≠ [])) f rd wr [d] co ws.
Proof.
  revert pen. induction ts as [|t ts IH]; intros pen Hts.
  - by rewrite orb_false_r.
  - inversion Hts as [|? ? Ht Hrest]; subst.
    unfold flush_requests. cbn [fold_left]. unfold at_time at 2.
    rewrite advance_not_due by done.
    rewrite scheduleAsyncSave_world. fold (flush_requests ts).
    rewrite IH by done. by rewrite orb_true_r.
Qed.

Lemma last_default (l : list Z) a d d' :
  List.last (a :: l) d = List.last (a :: l) d'.
Proof.
  revert a. induction l as [|b l IH]; intros a; [done|].
  change (List.last (b :: l) d = List.last (b :: l) d'). apply IH.
Qed.

Lemma last_time_cons t u ts : last_time t (u :: ts) = last_time u ts.
Proof.
  unfold last_time. destruct ts as [|v ts]; [done|].
  change (List.last (v :: ts) t = List.last (v :: ts) u). apply last_default.
Qed.

(** Requests a window apart find the store idle again, each gets its
    own write. *)
Lemma spaced_requests ts t l ix f rd co ws :
  spaced t ts →
  ∃ f',
    flush_requests ts (world l ix true false f rd true [t + SAVE_DEBOUNCE_MS] co ws)
    = world l ix true false f' rd true [last_time t ts + SAVE_DEBOUNCE_MS] co
        (ws ++ repeat l (length ts)).
Proof.
  revert t f ws. induction ts as [|u ts IH]; intros t f ws Hsp.
  - exists f. by rewrite app_nil_r.
  - destruct Hsp as [Hu Hrest].
    unfold flush_requests. cbn [fold_left]. unfold at_time at 2.
    rewrite advance_fires by done.
    rewrite scheduleAsyncSave_world. cbn [app].
    match goal with |- context [fold_left ?step ts ?w0] =>
      change (fold_left step ts w0) with (flush_requests ts w0) end.
    destruct (IH u (Some (ArrayOf (Some <$> l))) (ws ++ [l]) Hrest) as [f' ->].
    exists f'. rewrite last_time_cons, <- app_assoc. done.
Qed.

(** *** The event loop in general *)

Lemma earliest_None l : earliest l = None → l = [].
Proof. destruct l as [|x l]; [done|]. simpl. by destruct (earliest l). Qed.

Lemma earliest_spec l d :
  earliest l = Some d → d ∈ l ∧ Forall (fun x => d <= x) l.
Proof.
  revert d. induction l as [|x l IH]; intros d; simpl; [done|].
  destruct (earliest l) as [m|] eqn:Hm.
  - destruct (IH m eq_refl) as [Hin Hall].
    destruct (Z.leb_spec x m) as [Hle|Hgt]; intros [= <-].
    + split; [apply list_elem_of_here|].
      constructor; [lia|]. eapply Forall_impl; [exact Hall|]. simpl. lia.
    + split; [by apply list_elem_of_further|].
      constructor; [lia|done].
  - intros [= <-]. apply earliest_None in Hm as ->.
    split; [apply list_elem_of_here|]. by repeat constructor.
Qed.

Lemma remove_first_length d l :
  d ∈ l → S (length (remove_first d l)) = length l.
Proof.
  induction l as [|x l IH]; intros Hin; [by apply elem_of_nil in Hin|].
  simpl. destruct (Z.eqb_spec x d) as [->|Hne]; [done|].
  apply elem_of_cons in Hin as [->|Hin]; [done|].
  simpl. by rewrite IH.
Qed.

(** What the callback does to the timeouts and to the mark, whether or
    not the write succeeds. *)
Lemma timeout_callback_timers d w :
  timers (node (exec (timeout_callback d) w))
  = timers (node w) ++ (if savePending (self w) then [d + SAVE_DEBOUNCE_MS] else [])
  ∧ savePending (self (exec (timeout_callback d) w)) = false.
Proof.
  rewrite (world_eta w).
  destruct (write_ok (node w)), (savePending (self w)); cbn; by rewrite ?app_nil_r.
Qed.

Lemma fire_due_quiescent fuel until w :
  (rounds_needed w <= fuel)%nat →
  Forall (fun d => until < d) (timers (node (fire_due fuel until w))).
Proof.
  revert w. induction fuel as [|fuel IH]; intros w Hfuel.
  - unfold rounds_needed in Hfuel. simpl.
    destruct (timers (node w)); [done|simpl in Hfuel; lia].
  - simpl. destruct (earliest (timers (node w))) as [d|] eqn:Hd.
    + destruct (earliest_spec _ _ Hd) as [Hin Hall].
      destruct (Z.leb_spec d until) as [Hle|Hgt].
      * apply IH. unfold rounds_needed in *.
        destruct (timeout_callback_timers d
                    (with_timers (remove_first d (timers (node w))) w)) as [-> ->].
        pose proof (remove_first_length d _ Hin) as Hlen.
        rewrite length_app. cbn [with_timers timers node self savePending].
        destruct (savePending (self w)); simpl in *; lia.
      * eapply Forall_impl; [exact Hall|]. simpl. lia.
    + by rewrite (earliest_None _ Hd).
Qed.

(** The rounds [advance] allows are enough: no timeout that is due is
    left behind. *)
Lemma advance_quiescent until w :
  Forall (fun d => until < d) (timers (node (advance until w))).
Proof.
  apply fire_due_quiescent. unfold rounds_needed.
  destruct (savePending (self w)); lia.
Qed.

End Debounce.

(** C4, counterexample.  Two ingests inside one window arm one timeout
    but end in two writes, and so does a single ingest of a new endpoint;
    two ingests six seconds apart end in three writes; [add] on its own
    arms no timeout, so nothing is ever written for it. *)
Lemma C4_writes_per_window_counterexample :
  let one := LogStore.at_time 0 (LogRoutes.post_logs login_request) started in
  let two := LogStore.at_time 1000 (LogRoutes.post_logs orders_request) one in
  let apart := LogStore.at_time 6000 (LogRoutes.post_logs orders_request) one in
  let added := Exn.exec (LogStore.this (LogStore.add 0 login_200)) started in
  LogStore.timers (LogStore.node two) = [5000]
  ∧ length (LogStore.writes (LogStore.node (LogStore.advance 60000 two))) = 2%nat
  ∧ length (LogStore.writes (LogStore.node (LogStore.advance 60000 one))) = 2%nat
  ∧ length (LogStore.writes (LogStore.node (LogStore.advance 60000 apart))) = 3%nat
  ∧ LogStore.savePending (LogStore.self added) = true
  ∧ LogStore.timers (LogStore.node added) = []
  ∧ LogStore.writes (LogStore.node (LogStore.advance 60000 added)) = [].
Proof. vm_compute. repeat split; reflexivity. Qed.

(** C4, amended.  [add] and [clear] mark [savePending] and arm nothing;
    the flush is requested by [scheduleAsyncSave].  On an idle store whose
    file can be written, a first request arms one timeout; requests that
    follow inside its window only mark [savePending], so one timeout is
    armed and nothing is written before the window ends, where exactly one
    write takes place; if there was a second request, the timeout is armed
    once more and the same state is written a second time a window later,
    after which the store is idle.  Requests that each come a window or
    more after the one before get one write each. *)
Theorem C4_flush_requests_coalesce
    (w : LogStore.World) (t0 until : Z) (burst spread : list Z)
    (now : Z) (e : LogStore.LogEntry)
    (Hidle : idle w)
    (Hwrite : LogStore.write_ok (LogStore.node w) = true)
    (Hburst : Forall (fun t => t0 <= t < t0 + LogStore.SAVE_DEBOUNCE_MS) burst)
    (Hspread : spaced t0 spread)
    (Huntil : t0 + 2 * LogStore.SAVE_DEBOUNCE_MS <= until) :
  let first := LogStore.at_time t0 LogStore.scheduleAsyncSave w in
  let bursted := flush_requests burst first in
  let spreaded := flush_requests spread first in
  LogStore.timers (LogStore.node (Exn.exec (LogStore.this (LogStore.add now e)) w)) = []
  ∧ (Exn.returns (fst (LogStore.add now e (LogStore.self w))) = true →
     LogStore.savePending (snd (LogStore.add now e (LogStore.self w))) = true)
  ∧ LogStore.timers (LogStore.node (Exn.exec (LogStore.this LogStore.clear) w)) = []
  ∧ LogStore.savePending (LogStore.self (Exn.exec (LogStore.this LogStore.clear) w)) = true
  ∧ LogStore.timers (LogStore.node bursted) = [t0 + LogStore.SAVE_DEBOUNCE_MS]
  ∧ LogStore.savePending (LogStore.self bursted) = bool_decide (burst ≠ [])
  ∧ LogStore.writes (LogStore.node bursted) = LogStore.writes (LogStore.node w)
  ∧ LogStore.writes
      (LogStore.node (LogStore.advance (t0 + LogStore.SAVE_DEBOUNCE_MS) bursted))
    = LogStore.writes (LogStore.node w) ++ [LogStore.logs (LogStore.self w)]
  ∧ LogStore.writes (LogStore.node (LogStore.advance until bursted))
    = LogStore.writes (LogStore.node w)
      ++ (if decide (burst = []) then [LogStore.logs (LogStore.self w)]
          else [LogStore.logs (LogStore.self w); LogStore.logs (LogStore.self w)])
  ∧ idle (LogStore.advance until bursted)
  ∧ LogStore.writes
      (LogStore.node
         (LogStore.advance (last_time t0 spread + LogStore.SAVE_DEBOUNCE_MS) spreaded))
    = LogStore.writes (LogStore.node w)
      ++ repeat (LogStore.logs (LogStore.self w)) (S (length spread)).
Proof.
  intros first bursted spreaded.
  destruct Hidle as (Hsch & Hpen & Htm).
  assert (0 < LogStore.SAVE_DEBOUNCE_MS) as HW by (unfold LogStore.SAVE_DEBOUNCE_MS; lia).
  split; [|split; [|split; [|split]]].
  { rewrite (world_eta w), Htm. unfold world, Exn.exec, LogStore.this, Exn.zoom.
    cbn [LogStore.self LogStore.node].
    by destruct (LogStore.add now e _). }
  { unfold LogStore.add, Exn.bind, Exn.get. cbn [fst snd].
    destruct (LogStore.fingerprintIndex (LogStore.self w) !! LogStore.fingerprint e)
      as [i|]; [|done].
    by destruct (LogStore.logs (LogStore.self w) !! i). }
  { by rewrite (world_eta w), Htm. }
  { by rewrite (world_eta w). }
  assert (first = world (LogStore.logs (LogStore.self w))
                    (LogStore.fingerprintIndex (LogStore.self w)) true false
                    (LogStore.file (LogStore.node w)) (LogStore.read_ok (LogStore.node w))
                    true [t0 + LogStore.SAVE_DEBOUNCE_MS]
                    (LogStore.console (LogStore.node w))
                    (LogStore.writes (LogStore.node w))) as Hfirst.
  { subst first. rewrite (world_eta w), Hsch, Hpen, Htm, Hwrite.
    unfold LogStore.at_time. rewrite advance_idle.
    by rewrite scheduleAsyncSave_world. }
  assert (bursted = world (LogStore.logs (LogStore.self w))
                      (LogStore.fingerprintIndex (LogStore.self w)) true
                      (bool_decide (burst ≠ []))
                      (LogStore.file (LogStore.node w)) (LogStore.read_ok (LogStore.node w))
                      true [t0 + LogStore.SAVE_DEBOUNCE_MS]
                      (LogStore.console (LogStore.node w))
                      (LogStore.writes (LogStore.node w))) as Hbursted.
  { subst bursted. rewrite Hfirst, burst_marks; [done|].
    eapply Forall_impl; [exact Hburst|]. simpl. lia. }
  split; [by rewrite Hbursted|]. split; [by rewrite Hbursted|].
  split; [by rewrite Hbursted|].
  split; [|split; [|split]].
  - rewrite Hbursted. destruct (bool_decide (burst ≠ [])).
    + rewrite advance_rearms by lia. done.
    + rewrite advance_fires by lia. done.
  - rewrite Hbursted. destruct (decide (burst = [])) as [->|Hne].
    + rewrite bool_decide_eq_false_2 by (by intros ?).
      rewrite advance_fires by lia. done.
    + rewrite bool_decide_eq_true_2 by done.
      rewrite advance_trailing by lia. cbn [LogStore.writes LogStore.node world].
      by rewrite <- app_assoc.
  - rewrite Hbursted. destruct (bool_decide (burst ≠ [])).
    + rewrite advance_trailing by lia. done.
    + rewrite advance_fires by lia. done.
  - subst spreaded. rewrite Hfirst.
    destruct (spaced_requests spread t0 (LogStore.logs (LogStore.self w))
                (LogStore.fingerprintIndex (LogStore.self w))
                (LogStore.file (LogStore.node w)) (LogStore.read_ok (LogStore.node w))
                (LogStore.console (LogStore.node w))
                (LogStore.writes (LogStore.node w)) Hspread) as [f' ->].
    rewrite advance_fires by lia. cbn [LogStore.writes LogStore.node world].
    rewrite <- app_assoc. f_equal.
    change [LogStore.logs (LogStore.self w)]
      with (repeat (LogStore.logs (LogStore.self w)) 1).
    rewrite <- repeat_app. f_equal. lia.
Qed.

Lemma C4_flush_requests_witness :
  length
    (LogStore.writes
       (LogStore.node
          (LogStore.advance 10000
             (flush_requests [1000; 2000; 4999]
                (LogStore.at_time 0 LogStore.scheduleAsyncSave started))))) = 2%nat.
Proof.
  destruct (C4_flush_requests_coalesce started 0 10000 [1000; 2000; 4999]
              [5000; 11000] 0 login_200)
    as (_ & _ & _ & _ & _ & _ & _ & _ & Hwrites & _).
  - vm_compute. done.
  - vm_compute. reflexivity.
  - repeat constructor; unfold LogStore.SAVE_DEBOUNCE_MS; lia.
  - simpl. unfold LogStore.SAVE_DEBOUNCE_MS. lia.
  - unfold LogStore.SAVE_DEBOUNCE_MS. lia.
  - rewrite Hwrites. reflexivity.
Defined.

(** C8.  [saveNow] writes at once and resets both flags, but it leaves
    the armed timeouts where they are: after an ingest at 0 and a clear at
    1000, the timeout of the ingest is still armed, fires at 5000 and
    writes the file a second time although nothing asked for a flush; a
    request at 2000 finds [saveScheduled] reset and arms a second timeout
    next to the first. *)
Theorem C8_saveNow_keeps_armed_timeout (w : LogStore.World) :
  let ingested := LogStore.at_time 0 (LogRoutes.post_logs login_request) started in
  let cleared := LogStore.at_time 1000 LogRoutes.delete_logs ingested in
  LogStore.timers (LogStore.node (Exn.exec LogStore.saveNow w))
  = LogStore.timers (LogStore.node w)
  ∧ (if LogStore.write_ok (LogStore.node w)
     then LogStore.writes (LogStore.node (Exn.exec LogStore.saveNow w))
          = LogStore.writes (LogStore.node w) ++ [LogStore.logs (LogStore.self w)]
          ∧ LogStore.file (LogStore.node (Exn.exec LogStore.saveNow w))
            = Some (LogStore.ArrayOf (Some <$> LogStore.logs (LogStore.self w)))
          ∧ LogStore.saveScheduled (LogStore.self (Exn.exec LogStore.saveNow w)) = false
          ∧ LogStore.savePending (LogStore.self (Exn.exec LogStore.saveNow w)) = false
     else LogStore.writes (LogStore.node (Exn.exec LogStore.saveNow w))
          = LogStore.writes (LogStore.node w))
  ∧ LogStore.writes (LogStore.node cleared) = [[]]
  ∧ LogStore.saveScheduled (LogStore.self cleared) = false
  ∧ LogStore.savePending (LogStore.self cleared) = false
  ∧ LogStore.timers (LogStore.node cleared) = [5000]
  ∧ LogStore.writes (LogStore.node (LogStore.advance 5000 cleared)) = [[]; []]
  ∧ LogStore.timers
      (LogStore.node (LogStore.at_time 2000 LogStore.scheduleAsyncSave cleared))
    = [5000; 7000].
Proof.
  intros ingested cleared.
  split; [|split].
  - destruct w as [[l ix sch pen] [f rd [|] tm co ws]]; reflexivity.
  - destruct w as [[l ix sch pen] [f rd [|] tm co ws]]; by cbn.
  - vm_compute. repeat split; reflexivity.
Qed.

(** The example scenario of the data model, through the ingest handler:
    the second ingest of the identical observation answers with the same
    fingerprint, the record counts two discoveries and still holds the
    one status code. *)
Example ingest_twice :
  let once := LogStore.at_time 0 (LogRoutes.post_logs login_request) started in
  let twice := LogStore.at_time 1000 (LogRoutes.post_logs login_request) once in
  Exn.outcome (LogRoutes.post_logs login_request 1000) (LogStore.advance 1000 once)
  = Exn.outcome (LogRoutes.post_logs login_request 0) (LogStore.advance 0 started)
  ∧ LogStore.discoveryCount <$> LogStore.logs (LogStore.self once) = [1]
  ∧ LogStore.discoveryCount <$> LogStore.logs (LogStore.self twice) = [2]
  ∧ LogStore.statusCodes <$> LogStore.logs (LogStore.self twice) = [[200]].
Proof. vm_compute. repeat split; reflexivity. Qed.

(** A static asset is dropped by the ingest handler. *)
Example ingest_css_ignored :
  Exn.outcome
    (LogRoutes.post_logs
       {| LogRoutes.hostname := "cdn.example.com"; LogRoutes.method := "GET";
          LogRoutes.normalizedPath := "/static/app.css";
          LogRoutes.queryKeys := None; LogRoutes.statusCodes := None;
          LogRoutes.discoveryCount := None; LogRoutes.timestamp := None |} 0)
    started
  = Exn.Ok LogRoutes.Ignored.
Proof. vm_compute. reflexivity. Qed.

(** * Further properties *)

(** ** Root domains of arbitrary host names *)

Section RootDomainMore.

Lemma split_dot_free s : Forall (fun l => dot_free l = true) (Js.split "." s).
Proof.
  induction s as [|c r IH]; simpl; [by repeat constructor|].
  destruct (Ascii.eqb c ".") eqn:Hc.
  - by constructor.
  - destruct (Js.split "." r) as [|h t]; [by repeat constructor; simpl; rewrite Hc|].
    inversion IH as [|? ? Hh Ht]; subst.
    constructor; [|done]. simpl. by rewrite Hc.
Qed.

Lemma join_split s : Js.join "." (Js.split "." s) = s.
Proof.
  induction s as [|c r IH]; [done|]. simpl.
  destruct (Ascii.eqb_spec c ".") as [->|Hc].
  - destruct (Js.split "." r) as [|h t] eqn:E; [by apply split_nonempty in E|].
    change (Js.join "." ("" :: h :: t)) with (String "." (Js.join "." (h :: t))).
    by rewrite IH.
  - destruct (Js.split "." r) as [|h t] eqn:E; [by apply split_nonempty in E|].
    destruct t as [|h' t]; simpl in *; by rewrite <- IH.
Qed.

Lemma slice_last_length {A} (l : list A) k :
  length (Js.slice_last k l) = Nat.min k (length l).
Proof. unfold Js.slice_last. rewrite length_drop. lia. Qed.

Lemma slice_last_Forall {A} (P : A → Prop) (l : list A) k :
  Forall P l → Forall P (Js.slice_last k l).
Proof. apply Forall_drop. Qed.

Lemma getRootDomain_labels h :
  ∃ labels,
    labels ≠ [] ∧ Forall (fun l => dot_free l = true) labels
    ∧ length labels = Nat.min 2 (length (Js.split "." h))
    ∧ RequestProcessor.getRootDomain h = Js.join "." labels.
Proof.
  unfold RequestProcessor.getRootDomain.
  pose proof (split_dot_free h) as Hfree.
  pose proof (split_nonempty "." h) as Hne.
  destruct (Nat.leb_spec (length (Js.split "." h)) 2) as [Hle|Hgt].
  - exists (Js.split "." h). rewrite join_split. repeat split; [done|done|]. by rewrite Nat.min_r.
  - exists (Js.slice_last 2 (Js.split "." h)). repeat split.
    + intros Hnil. apply (f_equal length) in Hnil.
      rewrite slice_last_length, Nat.min_l in Hnil by lia. done.
    + by apply slice_last_Forall.
    + rewrite slice_last_length. rewrite !Nat.min_l; lia.
Qed.

End RootDomainMore.

(** X1.  The root domain of a host name is its own root domain: taking
    the root domain twice gives what taking it once gives, for every
    string.  It has as many labels as the host name, but at most two; the
    backend's [getRootDomain] is the same function, and a host name is
    always on the same domain as its root domain. *)
Theorem X1_getRootDomain_idempotent (h : string) :
  RequestProcessor.getRootDomain (RequestProcessor.getRootDomain h)
  = RequestProcessor.getRootDomain h
  ∧ length (Js.split "." (RequestProcessor.getRootDomain h))
    = Nat.min 2 (length (Js.split "." h))
  ∧ ExtensionFilter.getRootDomain h = RequestProcessor.getRootDomain h
  ∧ RequestProcessor.isSameDomain h (RequestProcessor.getRootDomain h) = true.
Proof.
  destruct (getRootDomain_labels h) as (labels & Hne & Hfree & Hlen & Hroot).
  assert (RequestProcessor.getRootDomain (RequestProcessor.getRootDomain h)
          = RequestProcessor.getRootDomain h) as Hidem.
  { rewrite Hroot. apply getRootDomain_short; [done|done|lia]. }
  split; [exact Hidem|]. split; [|split; [reflexivity|]].
  - rewrite Hroot, split_join by done. exact Hlen.
  - unfold RequestProcessor.isSameDomain. rewrite Hidem. apply String.eqb_refl.
Qed.

(** ** The capture-side filter *)

Section CaptureFilter.

(** Every extension of the capture side's set is in lower case and in
    the backend's set. *)
Lemma capture_extension_known ext :
  ext ∈ Config.IGNORE_EXTENSIONS →
  Js.toLowerCase ext ∈ ExtensionFilter.IGNORE_EXTENSIONS.
Proof.
  unfold Config.IGNORE_EXTENSIONS. rewrite elem_of_list_to_set.
  intros Hin.
  repeat (apply elem_of_cons in Hin as [->|Hin];
          [by apply (bool_decide_unpack _); vm_compute|]).
  by apply elem_of_nil in Hin.
Qed.

Lemma includes_self s : Js.includes s s = true.
Proof.
  assert (Js.startsWith s s = true) as Hs.
  { induction s as [|c s IH]; [done|]. simpl. by rewrite Ascii.eqb_refl. }
  destruct s; simpl in *; [done|]. by rewrite Hs.
Qed.

End CaptureFilter.

(** X2.  What the capture side drops on account of the host or of the
    file extension, the backend would drop as well: when
    [shouldIgnoreRequest] answers [true] for a URL that parses and a
    resource type that is not one of the ignored types, the ingest handler
    ignores an observation with the host name and the normalized path of
    that URL, by its loopback guard or by [shouldIgnore]. *)
Theorem X2_capture_filter_within_backend_filter
    (urlObj : RequestProcessor.URL) (resourceType : option string) (method : string)
    (Htype : ∀ type, resourceType = Some type → type ∉ Config.IGNORE_RESOURCE_TYPES)
    (Hdrop : RequestProcessor.shouldIgnoreRequest (Some urlObj) resourceType = true) :
  LogRoutes.is_local_host (RequestProcessor.hostname urlObj) = true
  ∨ ExtensionFilter.shouldIgnore method (RequestProcessor.hostname urlObj)
      (RequestProcessor.getNormalizedPath (Some urlObj)) = true.
Proof.
  unfold RequestProcessor.shouldIgnoreRequest in Hdrop.
  destruct (_ || _ || _) eqn:Hlocal in Hdrop.
  - left. unfold LogRoutes.is_local_host.
    apply orb_true_iff in Hlocal as [Hlocal|Heq].
    + by rewrite Hlocal.
    + apply String.eqb_eq in Heq. rewrite Heq. reflexivity.
  - right.
    assert (match resourceType with
            | Some type =>
                RequestProcessor.truthy_string type
                && bool_decide (type ∈ Config.IGNORE_RESOURCE_TYPES)
            | None => false
            end = false) as Hres.
    { destruct resourceType as [type|]; [|done].
      rewrite (bool_decide_eq_false_2 _ (Htype type eq_refl)). apply andb_false_r. }
    rewrite Hres in Hdrop.
    destruct (bool_decide _) eqn:Hext in Hdrop; [|done].
    apply bool_decide_eq_true in Hext. apply capture_extension_known in Hext.
    unfold ExtensionFilter.shouldIgnore, ExtensionFilter.has_ignored_extension.
    cbn [RequestProcessor.getNormalizedPath].
    by rewrite (bool_decide_eq_true_2 _ Hext).
Qed.

Lemma X2_capture_filter_witness :
  LogRoutes.is_local_host "cdn.example.com" = true
  ∨ ExtensionFilter.shouldIgnore "GET" "cdn.example.com" "/fonts-v2/inter.woff2" = true.
Proof.
  apply (X2_capture_filter_within_backend_filter
           {| RequestProcessor.hostname := "cdn.example.com";
              RequestProcessor.pathname := "/Fonts-v2/Inter.WOFF2" |}
           (Some "xmlhttprequest") "GET").
  - intros type [= <-]. apply (bool_decide_unpack _). vm_compute. reflexivity.
  - vm_compute. reflexivity.
Defined.

(** ** Path skeletons *)

Section Skeleton.
Import RequestProcessor.

Lemma replace_runs_fixed path :
  replace_runs false (replace_runs false path) = replace_runs false path
  ∧ ∀ in_run, replace_runs in_run (replace_runs true path) = replace_runs true path.
Proof.
  induction path as [|c rest [IHf IHt]]; [done|].
  simpl. destruct (word_char c) eqn:Hc.
  - split; [|exact IHt].
    simpl. by rewrite (IHt true).
  - split.
    + simpl. by rewrite Hc, IHf.
    + intros in_run. simpl. by rewrite Hc, IHf.
Qed.

Lemma replace_runs_length in_run path :
  (String.length (replace_runs in_run path) <= String.length path)%nat.
Proof.
  revert in_run. induction path as [|c rest IH]; intros in_run; [done|].
  simpl. destruct (word_char c).
  - destruct in_run; simpl.
    + specialize (IH true). lia.
    + specialize (IH true). lia.
  - simpl. specialize (IH false). lia.
Qed.

Lemma replace_runs_separators in_run path :
  List.filter (fun c => negb (word_char c))
    (list_ascii_of_string (replace_runs in_run path))
  = List.filter (fun c => negb (word_char c)) (list_ascii_of_string path).
Proof.
  revert in_run. induction path as [|c rest IH]; intros in_run; [done|].
  simpl. destruct (word_char c) eqn:Hc; simpl.
  - destruct in_run; simpl; by rewrite ?IH.
  - by rewrite Hc, IH.
Qed.

End Skeleton.

(** X3.  [createSkeleton] applied to a skeleton gives the skeleton back;
    a skeleton is never longer than the path, and the characters outside
    [[a-zA-Z0-9_-]] (the slashes, the dots) are those of the path, in the
    same order. *)
Theorem X3_createSkeleton_idempotent (path : string) :
  RequestProcessor.createSkeleton (RequestProcessor.createSkeleton path)
  = RequestProcessor.createSkeleton path
  ∧ (String.length (RequestProcessor.createSkeleton path) <= String.length path)%nat
  ∧ List.filter (fun c => negb (RequestProcessor.word_char c))
      (list_ascii_of_string (RequestProcessor.createSkeleton path))
    = List.filter (fun c => negb (RequestProcessor.word_char c))
        (list_ascii_of_string path).
Proof.
  split; [apply replace_runs_fixed|].
  split; [apply replace_runs_length|apply replace_runs_separators].
Qed.

(** ** Tags without a score *)

Section Tags.
Import RequestProcessor.

Lemma push_if_both c t (l1 l2 : list string) :
  l1 `sublist_of` l2 → push_if c t l1 `sublist_of` push_if c t l2.
Proof.
  intros Hsub. destruct c; simpl; [|done]. by apply sublist_app.
Qed.

Lemma push_if_right c t (l1 l2 : list string) :
  l1 `sublist_of` l2 → l1 `sublist_of` push_if c t l2.
Proof.
  intros Hsub. destruct c; simpl; [|done]. by apply sublist_inserts_r.
Qed.

End Tags.

(** X4.  The tags [assignTags] gives to a request are tags
    [classifyRequest] gives to it as well, in the same order; what
    [classifyRequest] adds is [client-error], [business-logic] and one of
    [primary-context] and [cross-origin]. *)
Theorem X4_assignTags_within_classifyRequest
    (d : RequestProcessor.details) (statusCode : Z) (hostname : string)
    (isPrimaryContext : bool) :
  let classified :=
    RequestProcessor.tags
      (RequestProcessor.classifyRequest
         (RequestProcessor.string_or_empty (RequestProcessor.details_method d))
         (RequestProcessor.string_or_empty (RequestProcessor.details_normalizedPath d))
         hostname statusCode isPrimaryContext) in
  RequestProcessor.assignTags d statusCode `sublist_of` classified
  ∧ ∀ tag, tag ∈ classified →
      tag ∈ RequestProcessor.assignTags d statusCode
      ∨ tag ∈ ["client-error"; "business-logic"; "primary-context"; "cross-origin"].
Proof.
  intros classified. subst classified.
  unfold RequestProcessor.classifyRequest, RequestProcessor.assignTags.
  cbn [RequestProcessor.tags]. rewrite classify_path.
  set (path := RequestProcessor.string_or_empty (RequestProcessor.details_normalizedPath d)).
  set (method := RequestProcessor.string_or_empty (RequestProcessor.details_method d)).
  split.
  - assert (∀ l1 l2 : list string, l1 `sublist_of` l2 →
              l1 `sublist_of` (if isPrimaryContext then l2 ++ ["primary-context"]
                               else l2 ++ ["cross-origin"])) as Hlast.
    { intros l1 l2 Hsub. destruct isPrimaryContext; by apply sublist_inserts_r. }
    apply Hlast, push_if_right, push_if_both, push_if_both, push_if_both, push_if_both,
      push_if_right, push_if_both.
    done.
  - intros tag Htag.
    destruct (RequestProcessor.status_starts_with "5" statusCode),
      (RequestProcessor.status_starts_with "4" statusCode),
      (Regex.test true RequestProcessor.AUTH_PATTERN path),
      (Regex.test true RequestProcessor.API_PATTERN path),
      (RequestProcessor.isStateChangingMethod method),
      (Regex.test true RequestProcessor.INFRA_PATTERN path),
      (RequestProcessor.hasActionWords path), isPrimaryContext;
      cbn [RequestProcessor.push_if app] in Htag |- *;
      repeat (apply elem_of_cons in Htag as [->|Htag];
              [first [left; apply (bool_decide_unpack _); vm_compute; reflexivity
                     |right; apply (bool_decide_unpack _); vm_compute; reflexivity]|]);
      by apply elem_of_nil in Htag.
Qed.

(** ** Counting sightings in the session cache *)

Section SessionCounts.
Import FingerprintEngine.

Implicit Types (m l : session_map) (a b : string * cached).

(** The cached value the insert-or-increment step leaves for [fp]. *)
Lemma map_get_set fp v m : map_get fp (map_set fp v m) = Some v.
Proof.
  unfold map_get. induction m as [|[k w] m IH]; simpl.
  - by rewrite String.eqb_refl.
  - destruct (String.eqb k fp) eqn:Hk; simpl; by rewrite Hk.
Qed.

Lemma map_get_set_ne fp fp' v m :
  fp' ≠ fp → map_get fp' (map_set fp v m) = map_get fp' m.
Proof.
  intros Hne. unfold map_get. induction m as [|[k w] m IH]; simpl.
  - by destruct (String.eqb_spec fp fp') as [->|].
  - destruct (String.eqb_spec k fp) as [->|Hk]; simpl.
    + by destruct (String.eqb_spec fp fp') as [->|].
    + destruct (String.eqb k fp'); [done|exact IH].
Qed.

Lemma map_get_incr fp m :
  map_get fp (incr_count fp m)
  = (fun c => {| firstSeen := firstSeen c; count := count c + 1 |}) <$> map_get fp m.
Proof.
  unfold map_get. induction m as [|[k w] m IH]; simpl; [done|].
  destruct (String.eqb k fp) eqn:Hk; simpl; by rewrite Hk.
Qed.

Lemma map_get_incr_ne fp fp' m :
  fp' ≠ fp → map_get fp' (incr_count fp m) = map_get fp' m.
Proof.
  intros Hne. unfold map_get. induction m as [|[k w] m IH]; simpl; [done|].
  destruct (String.eqb_spec k fp) as [->|Hk]; simpl.
  - by destruct (String.eqb_spec fp fp') as [->|].
  - destruct (String.eqb k fp'); [done|exact IH].
Qed.

Lemma map_set_length fp v m :
  length (map_set fp v m) = (length m + if map_has fp m then 0 else 1)%nat.
Proof.
  unfold map_has, map_get. induction m as [|[k w] m IH]; simpl; [done|].
  destruct (String.eqb k fp) eqn:Hk; simpl; [lia|].
  rewrite IH. by destruct (List.find _ m).
Qed.

Lemma incr_count_length fp m : length (incr_count fp m) = length m.
Proof.
  induction m as [|[k w] m IH]; simpl; [done|].
  destruct (String.eqb k fp); simpl; by rewrite ?IH.
Qed.

Lemma touched_length now fp m :
  length (touched now fp m) = (length m + if map_has fp m then 0 else 1)%nat.
Proof.
  unfold touched. destruct (map_has fp m) eqn:Hhas; simpl.
  - rewrite incr_count_length. lia.
  - rewrite map_set_length, Hhas. done.
Qed.

(** Every count of the cache is at least one. *)
Lemma map_set_counted fp v m :
  1 <= count v → Forall (fun e => 1 <= count (snd e)) m →
  Forall (fun e => 1 <= count (snd e)) (map_set fp v m).
Proof.
  intros Hv. induction 1 as [|[k w] m Hw Hm IH]; simpl.
  - by repeat constructor.
  - destruct (String.eqb k fp); constructor; done.
Qed.

Lemma incr_count_counted fp m :
  Forall (fun e => 1 <= count (snd e)) m →
  Forall (fun e => 1 <= count (snd e)) (incr_count fp m).
Proof.
  induction 1 as [|[k w] m Hw Hm IH]; simpl; [constructor|].
  destruct (String.eqb k fp); constructor; simpl in *; try done. lia.
Qed.

Lemma updateFingerprint_counted n now fp m :
  NoDup m.*1 → Forall (fun e => 1 <= count (snd e)) m →
  Forall (fun e => 1 <= count (snd e)) (updateFingerprint n now fp m).
Proof.
  intros Hnd Hm.
  change (updateFingerprint n now fp m)
    with (pruneOldFingerprints n (touched now fp m)).
  assert (Forall (fun e => 1 <= count (snd e)) (touched now fp m)) as Ht.
  { unfold touched. destruct (negb (map_has fp m)).
    - by apply map_set_counted.
    - by apply incr_count_counted. }
  destruct (Nat.le_gt_cases (length (touched now fp m)) n) as [Hle|Hgt].
  - by rewrite prune_keeps.
  - rewrite prune_evicts by (done || by apply touched_NoDup).
    apply Forall_take. by rewrite sort_perm.
Qed.

Lemma map_get_elem fp c m : map_get fp m = Some c → (fp, c) ∈ m.
Proof.
  unfold map_get. induction m as [|[k w] m IH]; simpl; [done|].
  destruct (String.eqb_spec k fp) as [->|Hk]; simpl.
  - intros [= <-]. apply list_elem_of_here.
  - intros Hc. apply list_elem_of_further. by apply IH.
Qed.

Lemma run_counted (calls : list (Z * string)) n :
  let m := fold_left (fun m c => updateFingerprint n (fst c) (snd c) m) calls [] in
  NoDup m.*1 ∧ Forall (fun e => 1 <= count (snd e)) m.
Proof.
  induction calls as [|c calls IH] using rev_ind; simpl.
  - split; constructor.
  - rewrite fold_left_app. simpl. destruct IH as [Hnd Hm]. split.
    + by apply updateFingerprint_NoDup_length.
    + by apply updateFingerprint_counted.
Qed.

End SessionCounts.

(** X5.  [updateFingerprint] counts the sightings of a fingerprint: when
    the cache has room for it, a fingerprint seen for the first time is
    cached with the time of the call and the count 1, a cached one keeps
    its [firstSeen] and its count grows by one; the other fingerprints
    are as they were.  [shouldSendUpdate], asked right afterwards as
    [handleWebRequest] does, compares that new count with the threshold:
    a first sighting is uploaded exactly when the threshold is at most
    one. *)
Theorem X5_updateFingerprint_counts_sightings
    (n : nat) (now threshold : Z) (fp : string) (m : FingerprintEngine.session_map)
    (Hroom : (length m + (if FingerprintEngine.map_has fp m then 0 else 1) <= n)%nat) :
  let m' := FingerprintEngine.updateFingerprint n now fp m in
  let seen :=
    match FingerprintEngine.map_get fp m with
    | Some c => {| FingerprintEngine.firstSeen := FingerprintEngine.firstSeen c;
                   FingerprintEngine.count := FingerprintEngine.count c + 1 |}
    | None => {| FingerprintEngine.firstSeen := now; FingerprintEngine.count := 1 |}
    end in
  FingerprintEngine.map_get fp m' = Some seen
  ∧ (∀ fp', fp' ≠ fp → FingerprintEngine.map_get fp' m' = FingerprintEngine.map_get fp' m)
  ∧ FingerprintEngine.shouldSendUpdate threshold fp m'
    = (threshold <=? FingerprintEngine.count seen).
Proof.
  intros m' seen. subst m'.
  change (FingerprintEngine.updateFingerprint n now fp m)
    with (FingerprintEngine.pruneOldFingerprints n (touched now fp m)).
  rewrite prune_keeps by (by rewrite touched_length).
  assert (FingerprintEngine.map_get fp (touched now fp m) = Some seen) as Hseen.
  { unfold touched, seen, FingerprintEngine.map_has.
    destruct (FingerprintEngine.map_get fp m) as [c|] eqn:Hc; simpl.
    - by rewrite map_get_incr, Hc.
    - by rewrite map_get_set. }
  split; [exact Hseen|]. split.
  - intros fp' Hne. unfold touched.
    destruct (negb (FingerprintEngine.map_has fp m)).
    + by apply map_get_set_ne.
    + by apply map_get_incr_ne.
  - unfold FingerprintEngine.shouldSendUpdate. by rewrite Hseen.
Qed.

Lemma X5_updateFingerprint_witness :
  FingerprintEngine.map_get "b"
    (FingerprintEngine.updateFingerprint 2 30 "b"
       [ ("a", {| FingerprintEngine.firstSeen := 10; FingerprintEngine.count := 4 |});
         ("b", {| FingerprintEngine.firstSeen := 20; FingerprintEngine.count := 1 |}) ])
  = Some {| FingerprintEngine.firstSeen := 20; FingerprintEngine.count := 2 |}.
Proof.
  destruct (X5_updateFingerprint_counts_sightings 2 30 2 "b"
              [ ("a", {| FingerprintEngine.firstSeen := 10; FingerprintEngine.count := 4 |});
                ("b", {| FingerprintEngine.firstSeen := 20; FingerprintEngine.count := 1 |}) ])
    as (Hseen & _).
  - simpl. lia.
  - exact Hseen.
Defined.

(** X6.  With the configured threshold of one the session cache never
    holds an upload back: whatever fingerprints the engine has seen
    before, [shouldSendUpdate] answers [true] for the fingerprint
    [updateFingerprint] has just recorded. *)
Theorem X6_threshold_one_never_skips (calls : list (Z * string)) (now : Z) (fp : string) :
  let m := fold_left
             (fun m c => FingerprintEngine.updateFingerprint
                           Config.SESSION_FINGERPRINT_LIMIT (fst c) (snd c) m)
             calls [] in
  FingerprintEngine.shouldSendUpdate Config.FINGERPRINT_THRESHOLD fp
    (FingerprintEngine.updateFingerprint Config.SESSION_FINGERPRINT_LIMIT now fp m)
  = true.
Proof.
  intros m.
  destruct (run_counted calls Config.SESSION_FINGERPRINT_LIMIT) as [Hnd Hm].
  fold m in Hnd, Hm.
  pose proof (updateFingerprint_counted Config.SESSION_FINGERPRINT_LIMIT now fp m Hnd Hm)
    as Hcounted.
  unfold FingerprintEngine.shouldSendUpdate.
  destruct (FingerprintEngine.map_get fp _) as [c|] eqn:Hc; [|done].
  apply map_get_elem in Hc. rewrite Forall_forall in Hcounted.
  specialize (Hcounted _ Hc). simpl in Hcounted.
  unfold Config.FINGERPRINT_THRESHOLD. by apply Z.leb_le.
Qed.

(** ** The request buffer *)

Section RequestBuffer.
Import FingerprintEngine.
Context {D : Type}.

Implicit Types (buffer : gmap string (buffered D)).

(** The loop of [cleanupBuffer], started on any map [acc]: what it
    deletes from [acc] are the expired entries of the map it runs over. *)
Lemma cleanup_loop now ttl buffer (acc : gmap string (buffered D)) requestId :
  map_fold
    (fun requestId req acc =>
       if ttl <? now - timestamp req then delete requestId acc else acc)
    acc buffer !! requestId
  = match buffer !! requestId with
    | Some req => if ttl <? now - timestamp req then None else acc !! requestId
    | None => acc !! requestId
    end.
Proof.
  revert requestId.
  set (f := fun (requestId : string) (req : buffered D) (acc : gmap string (buffered D)) =>
              if ttl <? now - timestamp req then delete requestId acc else acc).
  apply (map_fold_weak_ind
           (fun (r b : gmap string (buffered D)) =>
              ∀ requestId,
                r !! requestId
                = match b !! requestId with
                  | Some req => if ttl <? now - timestamp req then None else acc !! requestId
                  | None => acc !! requestId
                  end) f acc).
  - intros requestId. by rewrite lookup_empty.
  - intros i x b r Hi IH requestId. unfold f.
    destruct (decide (requestId = i)) as [->|Hne].
    + rewrite lookup_insert_eq. destruct (ttl <? now - timestamp x).
      * by rewrite lookup_delete_eq.
      * by rewrite IH, Hi.
    + rewrite lookup_insert_ne by done. destruct (ttl <? now - timestamp x).
      * rewrite lookup_delete_ne by done. apply IH.
      * apply IH.
Qed.

Lemma cleanupBuffer_lookup now ttl buffer requestId :
  cleanupBuffer now ttl buffer !! requestId
  = match buffer !! requestId with
    | Some req => if ttl <? now - timestamp req then None else Some req
    | None => None
    end.
Proof.
  unfold cleanupBuffer. rewrite cleanup_loop.
  by destruct (buffer !! requestId) as [req|] eqn:Hreq.
Qed.

Lemma Math_min_spec first rest :
  Math_min first rest ∈ first :: rest
  ∧ Forall (fun t => Math_min first rest <= t) (first :: rest).
Proof.
  unfold Math_min. revert first. induction rest as [|t rest IH]; intros first; simpl.
  - split; [apply list_elem_of_here|]. by repeat constructor.
  - destruct (IH (Z.min first t)) as [Hin Hall].
    inversion Hall as [|? ? Hmin Hrest]; subst.
    split.
    + apply elem_of_cons in Hin as [Hin|Hin].
      * rewrite Hin. destruct (Z.min_spec first t) as [[_ ->]|[_ ->]].
        -- apply list_elem_of_here.
        -- apply list_elem_of_further, list_elem_of_here.
      * by do 2 apply list_elem_of_further.
    + constructor; [lia|]. constructor; [lia|done].
Qed.

End RequestBuffer.

(** X7.  [cleanupBuffer] deletes exactly the requests buffered more than
    the time-to-live ago: a request is found afterwards when it was found
    before and is not older than that, and with its details and time
    unchanged.  A second sweep at the same time deletes nothing more, a
    request buffered at the time of the sweep survives it, and a request
    removed with [removeBufferedRequest] is not found again, whatever was
    buffered under its id. *)
Theorem X7_cleanupBuffer_keeps_fresh {D : Type}
    (now ttl : Z) (buffer : gmap string (FingerprintEngine.buffered D))
    (requestId : string) (details : D)
    (Httl : 0 <= ttl) :
  FingerprintEngine.getBufferedRequest requestId
    (FingerprintEngine.cleanupBuffer now ttl buffer)
  = match FingerprintEngine.getBufferedRequest requestId buffer with
    | Some req =>
        if ttl <? now - FingerprintEngine.timestamp req then None else Some req
    | None => None
    end
  ∧ FingerprintEngine.cleanupBuffer now ttl (FingerprintEngine.cleanupBuffer now ttl buffer)
    = FingerprintEngine.cleanupBuffer now ttl buffer
  ∧ FingerprintEngine.getBufferedRequest requestId
      (FingerprintEngine.cleanupBuffer now ttl
         (FingerprintEngine.bufferRequest now requestId details buffer))
    = Some {| FingerprintEngine.request := details; FingerprintEngine.timestamp := now |}
  ∧ FingerprintEngine.getBufferedRequest requestId
      (FingerprintEngine.removeBufferedRequest requestId
         (FingerprintEngine.bufferRequest now requestId details buffer))
    = None.
Proof.
  unfold FingerprintEngine.getBufferedRequest.
  split; [apply cleanupBuffer_lookup|].
  split; [|split].
  - apply map_eq. intros i. rewrite !cleanupBuffer_lookup.
    destruct (buffer !! i) as [req|]; [|done].
    destruct (ttl <? now - FingerprintEngine.timestamp req) eqn:Hold; [done|].
    by rewrite Hold.
  - rewrite cleanupBuffer_lookup. unfold FingerprintEngine.bufferRequest.
    rewrite lookup_insert_eq. cbn [FingerprintEngine.timestamp].
    by destruct (Z.ltb_spec ttl (now - now)); [lia|].
  - unfold FingerprintEngine.removeBufferedRequest. apply lookup_delete_eq.
Qed.

Lemma X7_cleanupBuffer_witness :
  FingerprintEngine.getBufferedRequest "17"
    (FingerprintEngine.cleanupBuffer 100000 Config.REQUEST_BUFFER_TTL
       (FingerprintEngine.bufferRequest 100000 "17" "GET /api/orders" ∅))
  = Some {| FingerprintEngine.request := "GET /api/orders";
            FingerprintEngine.timestamp := 100000 |}.
Proof.
  destruct (X7_cleanupBuffer_keeps_fresh 100000 Config.REQUEST_BUFFER_TTL ∅ "17"
              "GET /api/orders") as (_ & _ & Hkept & _).
  - unfold Config.REQUEST_BUFFER_TTL. lia.
  - exact Hkept.
Defined.

(** X8.  [getStats] reports the sizes of the two maps, and as the oldest
    buffered request the least of the buffered times: [null] exactly when
    the buffer is empty, otherwise the time of a buffered request that no
    buffered request is older than. *)
Theorem X8_getStats_oldest {D : Type}
    (sessionFingerprints : FingerprintEngine.session_map)
    (buffer : gmap string (FingerprintEngine.buffered D)) :
  let stats := FingerprintEngine.getStats sessionFingerprints buffer in
  FingerprintEngine.fingerprintsCached stats = length sessionFingerprints
  ∧ FingerprintEngine.bufferedRequests stats = size buffer
  ∧ (FingerprintEngine.oldestBufferedRequest stats = None ↔ buffer = ∅)
  ∧ ∀ oldest, FingerprintEngine.oldestBufferedRequest stats = Some oldest →
      (∃ requestId req,
         FingerprintEngine.getBufferedRequest requestId buffer = Some req
         ∧ FingerprintEngine.timestamp req = oldest)
      ∧ ∀ requestId req,
          FingerprintEngine.getBufferedRequest requestId buffer = Some req →
          oldest <= FingerprintEngine.timestamp req.
Proof.
  intros stats. subst stats. unfold FingerprintEngine.getStats.
  cbn [FingerprintEngine.fingerprintsCached FingerprintEngine.bufferedRequests
         FingerprintEngine.oldestBufferedRequest].
  split; [done|]. split; [done|].
  unfold FingerprintEngine.getBufferedRequest.
  destruct (map_to_list buffer) as [|[k v] rest] eqn:Hlist.
  - apply map_to_list_empty_iff in Hlist. subst buffer. split; [done|]. intros ? [=].
  - split.
    + split; [done|]. intros ->. by rewrite map_to_list_empty in Hlist.
    + intros oldest [= <-].
      change (list_fmap _ _ ?f rest) with (f <$> rest).
      set (time := fun e : string * FingerprintEngine.buffered D =>
                     FingerprintEngine.timestamp (snd e)).
      destruct (Math_min_spec (FingerprintEngine.timestamp v) (time <$> rest))
        as [Hin Hall].
      change (FingerprintEngine.timestamp v :: (time <$> rest))
        with (time <$> ((k, v) :: rest)) in Hin, Hall.
      rewrite <- Hlist in Hin, Hall.
      split.
      * apply list_elem_of_fmap in Hin as ([id req] & Heq & Hmem).
        apply elem_of_map_to_list in Hmem.
        exists id, req. by split.
      * intros id req Hreq. apply elem_of_map_to_list in Hreq.
        rewrite Forall_forall in Hall. apply Hall.
        apply list_elem_of_fmap. by exists (id, req).
Qed.

(** ** The retry queue of the upload client *)

(** X9.  [uploadLog] answers [true] exactly when the client is online
    and the response has a status from 200 to 299.  The log is put at the
    end of the retry queue when the client is offline, when [fetch] is
    rejected, and when the status is 429 or at least 500; after any other
    status (a 404, say) it is neither delivered nor queued.  The entries
    already queued stay in place. *)
Theorem X9_uploadLog_queues_failures {A : Type}
    (response : ServerAPI.fetched) (logEntry : A) (s : ServerAPI.t A) :
  let delivered :=
    ServerAPI.isOnline s
    && match response with
       | ServerAPI.Responded status => (200 <=? status) && (status <=? 299)
       | ServerAPI.Rejected _ => false
       end in
  let queued :=
    negb (ServerAPI.isOnline s)
    || match response with
       | ServerAPI.Responded status => (500 <=? status) || (status =? 429)
       | ServerAPI.Rejected _ => true
       end in
  fst (ServerAPI.uploadLog response logEntry s) = delivered
  ∧ ServerAPI.retryQueue (snd (ServerAPI.uploadLog response logEntry s))
    = ServerAPI.retryQueue s ++ (if queued then [logEntry] else [])
  ∧ ServerAPI.isOnline (snd (ServerAPI.uploadLog response logEntry s))
    = ServerAPI.isOnline s
  ∧ (delivered && queued = false).
Proof.
  unfold ServerAPI.uploadLog, ServerAPI.ok.
  destruct s as [queue [|] co]; cbn [ServerAPI.isOnline negb andb orb];
    [|by repeat split].
  destruct response as [error|status]; [by repeat split|].
  destruct (Z.leb_spec 200 status), (Z.leb_spec status 299),
    (Z.leb_spec 500 status), (Z.eqb_spec status 429);
    cbn; rewrite ?app_nil_r; repeat split; lia.
Qed.

(** X10.  [processRetryQueue] hands the whole queue to [batchUpload].
    When the batch is delivered the queue is empty afterwards.  When it is
    not, [batchUpload] has queued the logs again and [processRetryQueue]
    queues them once more: every log is in the queue twice, so the queue
    doubles with each failed retry.  On an empty queue nothing is sent. *)
Theorem X10_processRetryQueue_doubles_on_failure {A : Type}
    (response : ServerAPI.fetched) (s : ServerAPI.t A) :
  let delivered :=
    ServerAPI.isOnline s
    && match response with
       | ServerAPI.Responded status => (200 <=? status) && (status <=? 299)
       | ServerAPI.Rejected _ => false
       end in
  let s' := ServerAPI.processRetryQueue response s in
  ServerAPI.retryQueue s'
  = (if delivered then [] else ServerAPI.retryQueue s ++ ServerAPI.retryQueue s)
  ∧ ServerAPI.getRetryQueueSize s'
    = (if delivered then 0 else 2 * ServerAPI.getRetryQueueSize s)%nat
  ∧ (ServerAPI.retryQueue s = [] → s' = s).
Proof.
  intros delivered s'.
  assert (ServerAPI.retryQueue s'
          = if delivered then [] else ServerAPI.retryQueue s ++ ServerAPI.retryQueue s)
    as Hqueue.
  { subst delivered s'. unfold ServerAPI.processRetryQueue, ServerAPI.batchUpload.
    destruct s as [[|l queue] online co]; cbn [ServerAPI.retryQueue ServerAPI.isOnline length Nat.eqb].
    - by destruct (online && _).
    - destruct online; cbn [negb andb]; [|done].
      destruct response as [error|status]; [done|].
      unfold ServerAPI.ok. by destruct ((200 <=? status) && (status <=? 299)). }
  split; [exact Hqueue|]. split.
  - unfold ServerAPI.getRetryQueueSize. rewrite Hqueue.
    destruct delivered; [done|]. rewrite length_app. lia.
  - subst s'. unfold ServerAPI.processRetryQueue. by intros ->.
Qed.

(** ** Lookups and updates of the store *)

Section StoreLookups.
Import Exn LogStore.

(** Under the invariant a fingerprint of the index finds its record. *)
Lemma indexed_lookup s fp i :
  indexed s → fingerprintIndex s !! fp = Some i →
  ∃ old, logs s !! i = Some old ∧ fingerprint old = fp.
Proof. intros Hs Hfp. by apply (indexed_index _ Hs). Qed.

Lemma getByFingerprint_patched s fp i old new fp' :
  indexed s → fingerprintIndex s !! fp = Some i → logs s !! i = Some old →
  fp' ≠ fp →
  getByFingerprint fp' (with_savePending true (with_logs (<[i := new]> (logs s)) s))
  = getByFingerprint fp' s.
Proof.
  intros Hs Hfp Hold Hne. unfold getByFingerprint. simpl.
  destruct (fingerprintIndex s !! fp') as [j|] eqn:Hj; [|done].
  apply list_lookup_insert_ne. intros <-.
  destruct (indexed_lookup s fp' i Hs Hj) as (r & Hr & Hfpr).
  destruct (indexed_lookup s fp i Hs Hfp) as (r' & Hr' & Hfpr').
  congruence.
Qed.

End StoreLookups.

(** X11.  On a store whose index and records agree, [add] followed by
    [getByFingerprint] of the fingerprint added returns the entry [add]
    returned; the lookups of all other fingerprints are as before; the
    entry counts as new exactly when the fingerprint was not found
    before, and only then the number of records grows, by one.  Index and
    records agree afterwards. *)
Theorem X11_add_then_getByFingerprint
    (now : Z) (logEntry : LogStore.LogEntry) (s : LogStore.t)
    (Hs : indexed s) :
  ∃ res s',
    LogStore.add now logEntry s = (Exn.Ok res, s')
    ∧ LogStore.getByFingerprint (LogStore.fingerprint logEntry) s'
      = Some (LogStore.entry res)
    ∧ (∀ fp, fp ≠ LogStore.fingerprint logEntry →
             LogStore.getByFingerprint fp s' = LogStore.getByFingerprint fp s)
    ∧ (LogStore.isNew res = true
       ↔ LogStore.getByFingerprint (LogStore.fingerprint logEntry) s = None)
    ∧ LogStore.count s' = (LogStore.count s + if LogStore.isNew res then 1 else 0)%nat
    ∧ indexed s'.
Proof.
  destruct (LogStore.fingerprintIndex s !! LogStore.fingerprint logEntry) as [i|] eqn:Hfp.
  - destruct (indexed_lookup s _ i Hs Hfp) as (old & Hold & Hfpold).
    pose proof (lookup_lt_Some _ _ _ Hold) as Hlt.
    eexists _, _. split; [by apply add_existing|].
    split; [|split; [|split; [|split]]].
    + unfold LogStore.getByFingerprint. simpl. rewrite Hfp.
      by apply list_lookup_insert_eq.
    + intros fp Hne. by eapply getByFingerprint_patched.
    + unfold LogStore.getByFingerprint. rewrite Hfp, Hold. by split.
    + unfold LogStore.count. simpl. rewrite length_insert. lia.
    + apply (indexed_same
               (LogStore.with_logs
                  (<[i := LogStore.set_lastPatched now (LogStore.Object_assign old logEntry)]>
                     (LogStore.logs s)) s)); [done|done|].
      apply (indexed_patch s i old); [done|done|].
      rewrite Hfpold. by apply assign_fingerprint.
  - eexists _, _. split; [by apply add_new|].
    split; [|split; [|split; [|split]]].
    + unfold LogStore.getByFingerprint. simpl. rewrite lookup_insert_eq.
      rewrite lookup_app_r by lia. by rewrite Nat.sub_diag.
    + intros fp Hne. unfold LogStore.getByFingerprint. simpl.
      rewrite lookup_insert_ne by done.
      destruct (LogStore.fingerprintIndex s !! fp) as [j|] eqn:Hj; [|done].
      destruct (indexed_lookup s fp j Hs Hj) as (r & Hr & _).
      rewrite Hr. by apply lookup_app_l_Some.
    + unfold LogStore.getByFingerprint. by rewrite Hfp.
    + unfold LogStore.count. simpl. rewrite length_app. simpl. lia.
    + by apply (indexed_push s (LogStore.set_receivedAt now logEntry)).
Qed.

Lemma X11_add_witness :
  ∃ res s',
    LogStore.add 1 login_200 LogStore.fresh = (Exn.Ok res, s')
    ∧ LogStore.getByFingerprint (LogStore.fingerprint login_200) s'
      = Some (LogStore.entry res).
Proof.
  destruct (X11_add_then_getByFingerprint 1 login_200 LogStore.fresh)
    as (res & s' & Hadd & Hget & _).
  - exact indexed_fresh.
  - exists res, s'. split; [exact Hadd|exact Hget].
Defined.

(** X12.  [update] of a fingerprint the index does not know returns
    [null] and leaves the store untouched, [savePending] included.  For a
    known fingerprint it assigns the updates to the record in place,
    marks [savePending] and returns the record; the index is not touched,
    so index and records still agree afterwards exactly when the updates
    leave the fingerprint of the record as it is. *)
Theorem X12_update_in_place
    (fp : option string) (u : LogStore.updates) (s : LogStore.t)
    (Hs : indexed s) :
  match LogStore.fingerprintIndex s !! fp with
  | None => LogStore.update fp u s = (Exn.Ok None, s)
  | Some i =>
      ∃ old,
        LogStore.logs s !! i = Some old
        ∧ LogStore.update fp u s
          = (Exn.Ok (Some (LogStore.assign_updates old u)),
             LogStore.with_savePending true
               (LogStore.with_logs
                  (<[i := LogStore.assign_updates old u]> (LogStore.logs s)) s))
        ∧ (indexed (Exn.exec (LogStore.update fp u) s)
           ↔ LogStore.upd_fingerprint u = None ∨ LogStore.upd_fingerprint u = fp)
  end.
Proof.
  destruct (LogStore.fingerprintIndex s !! fp) as [i|] eqn:Hfp.
  - destruct (indexed_lookup s fp i Hs Hfp) as (old & Hold & Hfpold).
    pose proof (lookup_lt_Some _ _ _ Hold) as Hlt.
    assert (LogStore.update fp u s
            = (Exn.Ok (Some (LogStore.assign_updates old u)),
               LogStore.with_savePending true
                 (LogStore.with_logs
                    (<[i := LogStore.assign_updates old u]> (LogStore.logs s)) s)))
      as Hupdate.
    { unfold LogStore.update, Exn.bind, Exn.get. simpl. rewrite Hfp, Hold. simpl.
      by rewrite list_lookup_insert_eq. }
    exists old. split; [done|]. split; [exact Hupdate|].
    unfold Exn.exec. rewrite Hupdate. cbn [snd]. split.
    + intros Hs'.
      assert (LogStore.fingerprint (LogStore.assign_updates old u) = fp) as Hsame.
      { destruct (indexed_lookup _ fp i Hs' Hfp) as (r & Hr & Hfpr).
        simpl in Hr. rewrite list_lookup_insert_eq in Hr by done.
        by injection Hr as <-. }
      simpl in Hsame. destruct (LogStore.upd_fingerprint u); [by right|by left].
    + intros Hkeep.
      apply (indexed_same
               (LogStore.with_logs
                  (<[i := LogStore.assign_updates old u]> (LogStore.logs s)) s));
        [done|done|].
      apply (indexed_patch s i old); [done|done|].
      simpl. destruct Hkeep as [->| ->]; [done|].
      rewrite Hfpold. by destruct fp.
  - unfold LogStore.update, Exn.bind, Exn.get. simpl. by rewrite Hfp.
Qed.

Lemma X12_update_witness :
  LogStore.update None
    {| LogStore.upd_fingerprint := None; LogStore.upd_hostname := None;
       LogStore.upd_method := None; LogStore.upd_normalizedPath := None;
       LogStore.upd_queryKeys := None; LogStore.upd_statusCodes := Some [404];
       LogStore.upd_discoveryCount := None; LogStore.upd_timestamp := None;
       LogStore.upd_receivedAt := None; LogStore.upd_lastPatched := None |}
    LogStore.fresh
  = (Exn.Ok None, LogStore.fresh).
Proof.
  apply (X12_update_in_place None
           {| LogStore.upd_fingerprint := None; LogStore.upd_hostname := None;
              LogStore.upd_method := None; LogStore.upd_normalizedPath := None;
              LogStore.upd_queryKeys := None; LogStore.upd_statusCodes := Some [404];
              LogStore.upd_discoveryCount := None; LogStore.upd_timestamp := None;
              LogStore.upd_receivedAt := None; LogStore.upd_lastPatched := None |}
           LogStore.fresh).
  exact indexed_fresh.
Defined.

(** ** Restarting on the file *)

Section Restart.
Import Exn LogStore.

Lemma rebuild_index_exact l k w :
  rebuild_index (Some <$> l) k w
  = (Ok tt,
     {| self := with_index (index_from l k (fingerprintIndex (self w))) (self w);
        node := node w |}).
Proof.
  revert k w. induction l as [|log l IH]; intros k w.
  - by destruct w as [[] ?].
  - cbn [fmap list_fmap rebuild_index index_from].
    change (list_fmap _ _ Some l) with (Some <$> l).
    destruct (truthy (fingerprint log)); unfold Exn.bind at 1; cbn; by rewrite IH.
Qed.

Lemma omap_id_Some (l : list LogEntry) : omap id (Some <$> l) = l.
Proof. induction l as [|e l IH]; [done|]. cbn. by rewrite IH. Qed.

Lemma last_with_here e l fp :
  last_with (e :: l) fp 0 ↔ fingerprint e = fp ∧ ∀ e', e' ∈ l → fingerprint e' ≠ fp.
Proof.
  unfold last_with. split.
  - intros [(e0 & [= <-] & Hfp) Hlater]. split; [done|].
    intros e' [j Hj]%list_elem_of_lookup. apply (Hlater (S j)); [lia|done].
  - intros [Hfp Hnone]. split; [by exists e|].
    intros [|j] e' Hlt Hj; [lia|]. apply Hnone. by eapply list_elem_of_lookup_2.
Qed.

Lemma last_with_further e l fp j :
  last_with (e :: l) fp (S j) ↔ last_with l fp j.
Proof.
  unfold last_with. split.
  - intros [Hat Hlater]. split; [done|].
    intros j' e' Hlt Hj'. apply (Hlater (S j')); [lia|done].
  - intros [Hat Hlater]. split; [done|].
    intros [|j'] e' Hlt Hj'; [lia|]. apply (Hlater j'); [lia|done].
Qed.

Lemma index_from_lookup l k ix fp i :
  index_from l k ix !! fp = Some i
  ↔ (truthy fp = true ∧ ∃ j, i = (k + j)%nat ∧ last_with l fp j)
    ∨ ((truthy fp = false ∨ ∀ e, e ∈ l → fingerprint e ≠ fp) ∧ ix !! fp = Some i).
Proof.
  revert k ix. induction l as [|e l IH]; intros k ix.
  - simpl. split.
    + intros Hix. right. split; [|done]. right. by intros e He%elem_of_nil.
    + intros [(_ & j & _ & (e & He & _) & _)|[_ Hix]]; [done|done].
  - cbn [index_from]. rewrite IH. clear IH.
    destruct (decide (fingerprint e = fp)) as [Hfp|Hfp].
    + (* the record has the fingerprint *)
      destruct (truthy (fingerprint e)) eqn:Ht.
      * rewrite Hfp in Ht |- *. rewrite lookup_insert_eq. split.
        -- intros [(_ & j & -> & Hlast)|[[Hf|Hnone] [= <-]]].
           ++ left. split; [done|]. exists (S j). split; [lia|].
              by apply last_with_further.
           ++ congruence.
           ++ left. split; [done|]. exists 0%nat. split; [lia|].
              by apply last_with_here.
        -- intros [(_ & [|j] & -> & Hlast)|[[Hf|Hnone] _]].
           ++ right. apply last_with_here in Hlast as [_ Hnone].
              split; [by right|]. f_equal. lia.
           ++ left. split; [done|]. exists j. split; [lia|].
              by apply last_with_further in Hlast.
           ++ congruence.
           ++ exfalso. apply (Hnone e); [apply list_elem_of_here|done].
      * rewrite Hfp in Ht. split.
        -- intros [(Ht' & _)|[_ Hix]]; [congruence|].
           right. split; [by left|done].
        -- intros [(Ht' & _)|[_ Hix]]; [congruence|].
           right. split; [by left|done].
    + (* the record has another fingerprint *)
      assert ((if truthy (fingerprint e) then <[fingerprint e := k]> ix else ix) !! fp
              = ix !! fp) as ->.
      { destruct (truthy (fingerprint e)); [|done]. by rewrite lookup_insert_ne. }
      split.
      * intros [(Ht & j & -> & Hlast)|[Hnone Hix]].
        -- left. split; [done|]. exists (S j). split; [lia|].
           by apply last_with_further.
        -- right. split; [|done]. destruct Hnone as [Hf|Hnone]; [by left|right].
           intros e' [->|He']%elem_of_cons; [done|by apply Hnone].
      * intros [(Ht & [|j] & -> & Hlast)|[Hnone Hix]].
        -- apply last_with_here in Hlast as [Hhas _]. done.
        -- left. split; [done|]. exists j. split; [lia|].
           by apply last_with_further in Hlast.
        -- right. split; [|done]. destruct Hnone as [Hf|Hnone]; [by left|right].
           intros e' He'. apply Hnone. by apply list_elem_of_further.
Qed.

(** A clean load of an array of records, without touching the file. *)
Lemma load_records (r : Runtime) (l : list LogEntry) :
  file r = Some (ArrayOf (Some <$> l)) → read_ok r = true →
  constructor r
  = (Ok tt,
     {| self := {| logs := l; fingerprintIndex := index_from l 0 ∅;
                   saveScheduled := false; savePending := false |};
        node := {| file := file r; read_ok := read_ok r; write_ok := write_ok r;
                   timers := timers r;
                   console := console r ++ [loaded_message l];
                   writes := writes r |} |}).
Proof.
  destruct r as [f rd wr tm co ws]. simpl. intros -> ->.
  unfold constructor, load, try_catch.
  cbn -[rebuild_index]. unfold Exn.bind.
  cbn -[rebuild_index]. rewrite omap_id_Some.
  rewrite rebuild_index_exact. reflexivity.
Qed.

End Restart.

(** X13.  When the log file can be read and holds an array of records,
    the constructor takes the records over as they are, leaves the file
    alone and builds the index from them: a fingerprint is in the index
    exactly when it is a non-empty string, and it points at the last
    record that has it.  Records without a fingerprint are not indexed,
    and of two records with one fingerprint only the later one is. *)
Theorem X13_load_indexes_last_record
    (r : LogStore.Runtime) (l : list LogStore.LogEntry)
    (Hfile : LogStore.file r = Some (LogStore.ArrayOf (Some <$> l)))
    (Hread : LogStore.read_ok r = true) :
  let w := snd (LogStore.constructor r) in
  fst (LogStore.constructor r) = Exn.Ok tt
  ∧ LogStore.logs (LogStore.self w) = l
  ∧ LogStore.file (LogStore.node w) = LogStore.file r
  ∧ LogStore.writes (LogStore.node w) = LogStore.writes r
  ∧ ∀ fp i,
      LogStore.fingerprintIndex (LogStore.self w) !! fp = Some i
      ↔ LogStore.truthy fp = true ∧ last_with l fp i.
Proof.
  rewrite (load_records r l Hfile Hread). cbn.
  do 4 (split; [done|]).
  intros fp i. rewrite index_from_lookup. split.
  - intros [(Ht & j & -> & Hlast)|[_ Hix]]; [done|].
    by rewrite lookup_empty in Hix.
  - intros [Ht Hlast]. left. split; [done|]. by exists i.
Qed.

Lemma X13_load_witness :
  LogStore.logs
    (LogStore.self
       (snd (LogStore.constructor
               {| LogStore.file := Some (LogStore.ArrayOf (Some <$> [login_200; login_500]));
                  LogStore.read_ok := true; LogStore.write_ok := true;
                  LogStore.timers := []; LogStore.console := [];
                  LogStore.writes := [] |})))
  = [login_200; login_500]
  ∧ LogStore.fingerprintIndex
      (LogStore.self
         (snd (LogStore.constructor
                 {| LogStore.file := Some (LogStore.ArrayOf (Some <$> [login_200; login_500]));
                    LogStore.read_ok := true; LogStore.write_ok := true;
                    LogStore.timers := []; LogStore.console := [];
                    LogStore.writes := [] |})))
    !! LogStore.fingerprint login_200 = Some 1%nat.
Proof.
  destruct (X13_load_indexes_last_record
              {| LogStore.file := Some (LogStore.ArrayOf (Some <$> [login_200; login_500]));
                 LogStore.read_ok := true; LogStore.write_ok := true;
                 LogStore.timers := []; LogStore.console := [];
                 LogStore.writes := [] |}
              [login_200; login_500] eq_refl eq_refl)
    as (_ & Hlogs & _ & _ & Hindex).
  split; [exact Hlogs|].
  apply Hindex. split; [reflexivity|]. split.
  - exists login_500. split; reflexivity.
  - intros [|[|[|j]]] e Hlt Hj; try lia; discriminate Hj.
Defined.

(** X14.  A restart restores the store: when index and records agree,
    every record has a non-empty fingerprint, and the file holds the
    records as [writeFileSync] writes them, a new [LogStore] on that file
    has the same records and the same index, with nothing scheduled or
    pending, and does not write the file. *)
Theorem X14_restart_restores_store
    (s : LogStore.t) (r : LogStore.Runtime)
    (Hs : indexed s)
    (Htruthy : Forall (fun e => LogStore.truthy (LogStore.fingerprint e) = true)
                 (LogStore.logs s))
    (Hfile : LogStore.file r = Some (LogStore.ArrayOf (Some <$> LogStore.logs s)))
    (Hread : LogStore.read_ok r = true) :
  let w := snd (LogStore.constructor r) in
  fst (LogStore.constructor r) = Exn.Ok tt
  ∧ LogStore.logs (LogStore.self w) = LogStore.logs s
  ∧ LogStore.fingerprintIndex (LogStore.self w) = LogStore.fingerprintIndex s
  ∧ LogStore.saveScheduled (LogStore.self w) = false
  ∧ LogStore.savePending (LogStore.self w) = false
  ∧ LogStore.file (LogStore.node w) = LogStore.file r
  ∧ LogStore.writes (LogStore.node w) = LogStore.writes r.
Proof.
  rewrite (load_records r _ Hfile Hread). cbn.
  split; [done|]. split; [done|]. split; [|done].
  apply map_eq. intros fp. apply option_eq. intros i.
  rewrite index_from_lookup, (indexed_index _ Hs). split.
  - intros [(_ & j & -> & Hat & _)|[_ Hix]]; [done|].
    by rewrite lookup_empty in Hix.
  - intros (e & He & Hfp). left.
    assert (e ∈ LogStore.logs s) as Hin by by eapply list_elem_of_lookup_2.
    rewrite Forall_forall in Htruthy. split; [rewrite <- Hfp; by apply Htruthy|].
    exists i. split; [done|]. split; [by exists e|].
    intros j e' Hlt Hj Hfp'.
    pose proof (indexed_NoDup s Hs) as Hnd.
    assert (i = j); [|lia].
    eapply NoDup_lookup; [exact Hnd| |].
    + rewrite list_lookup_fmap, He. simpl. by rewrite Hfp.
    + rewrite list_lookup_fmap, Hj. simpl. by rewrite Hfp'.
Qed.

Lemma X14_restart_witness :
  LogStore.logs
    (LogStore.self
       (snd (LogStore.constructor
               (LogStore.node
                  (Exn.exec LogStore.saveNow
                     (Exn.exec (LogStore.this (LogStore.add 1 login_200)) started))))))
  = [LogStore.set_receivedAt 1 login_200].
Proof.
  destruct (X14_restart_restores_store
              (LogStore.self (Exn.exec (LogStore.this (LogStore.add 1 login_200)) started))
              (LogStore.node
                 (Exn.exec LogStore.saveNow
                    (Exn.exec (LogStore.this (LogStore.add 1 login_200)) started))))
    as (_ & Hlogs & _).
  - apply (indexed_push LogStore.fresh (LogStore.set_receivedAt 1 login_200) false true
             indexed_fresh). reflexivity.
  - repeat constructor.
  - reflexivity.
  - reflexivity.
  - exact Hlogs.
Defined.

(** ** Failed writes, and what the armed timeouts flush *)

(** X15.  When the file cannot be written, [saveSync] logs the error and
    throws it on, while [saveNow] and the callback of the debounce
    timeout log it and return normally.  In all three the file and the
    history of writes stay as they were.  [saveNow] then leaves the store
    untouched, marks included; the callback has reset [saveScheduled] and
    arms a further timeout only if a save was marked, so a store that was
    not marked stays unsaved with no timeout armed. *)
Theorem X15_write_failure_is_logged (w : LogStore.World) (d : Z)
    (Hfail : LogStore.write_ok (LogStore.node w) = false) :
  Exn.outcome LogStore.saveSync w = Exn.Throw "EACCES"
  ∧ Exn.outcome LogStore.saveNow w = Exn.Ok tt
  ∧ Exn.outcome (LogStore.timeout_callback d) w = Exn.Ok tt
  ∧ (∀ w', w' ∈ [Exn.exec LogStore.saveSync w; Exn.exec LogStore.saveNow w;
                 Exn.exec (LogStore.timeout_callback d) w] →
           LogStore.file (LogStore.node w') = LogStore.file (LogStore.node w)
           ∧ LogStore.writes (LogStore.node w') = LogStore.writes (LogStore.node w)
           ∧ LogStore.logs (LogStore.self w') = LogStore.logs (LogStore.self w))
  ∧ LogStore.console (LogStore.node (Exn.exec LogStore.saveSync w))
    = LogStore.console (LogStore.node w)
      ++ [LogStore.console_error "[LogStore] Error saving logs synchronously:" "EACCES"]
  ∧ LogStore.console (LogStore.node (Exn.exec LogStore.saveNow w))
    = LogStore.console (LogStore.node w)
      ++ [LogStore.console_error "[LogStore] Error in saveNow():" "EACCES"]
  ∧ LogStore.console (LogStore.node (Exn.exec (LogStore.timeout_callback d) w))
    = LogStore.console (LogStore.node w)
      ++ [LogStore.console_error "[LogStore] Error saving logs:" "EACCES"]
  ∧ LogStore.self (Exn.exec LogStore.saveNow w) = LogStore.self w
  ∧ LogStore.saveScheduled (LogStore.self (Exn.exec (LogStore.timeout_callback d) w))
    = LogStore.savePending (LogStore.self w)
  ∧ LogStore.savePending (LogStore.self (Exn.exec (LogStore.timeout_callback d) w))
    = false
  ∧ LogStore.timers (LogStore.node (Exn.exec (LogStore.timeout_callback d) w))
    = LogStore.timers (LogStore.node w)
      ++ (if LogStore.savePending (LogStore.self w)
          then [d + LogStore.SAVE_DEBOUNCE_MS] else []).
Proof.
  destruct w as [[l ix sch pen] [f rd wr tm co ws]]. simpl in Hfail. subst wr.
  split; [done|]. split; [done|]. split; [by destruct pen|].
  split.
  { intros w' Hw'. repeat (apply elem_of_cons in Hw' as [->|Hw']; [by destruct pen|]).
    by apply elem_of_nil in Hw'. }
  split; [done|]. split; [done|].
  destruct pen; cbn; rewrite ?app_nil_r; by repeat split.
Qed.

Lemma X15_write_failure_witness :
  Exn.outcome LogStore.saveNow
    (world [login_200] ∅ true true None true false [5000] [] [])
  = Exn.Ok tt.
Proof.
  apply (X15_write_failure_is_logged
           (world [login_200] ∅ true true None true false [5000] [] []) 5000).
  reflexivity.
Defined.

Section Durability.
Import Exn LogStore.

Lemma flushed_or_armed_started : flushed_or_armed started.
Proof. by repeat split. Qed.

(** One round of the event loop. *)
Lemma callback_flushed d w :
  write_ok (node w) = true →
  flushed_or_armed
    (exec (timeout_callback d) (with_timers (remove_first d (timers (node w))) w)).
Proof.
  destruct w as [[l ix sch pen] [f rd wr tm co ws]]. simpl. intros ->.
  change (with_timers _ _)
    with (world l ix sch pen f rd true (remove_first d tm) co ws).
  rewrite timeout_callback_world. unfold flushed_or_armed, world. simpl.
  split; [done|]. split; [|done].
  intros ->. by destruct (remove_first d tm).
Qed.

Lemma fire_due_flushed fuel until w :
  flushed_or_armed w → flushed_or_armed (fire_due fuel until w).
Proof.
  revert w. induction fuel as [|fuel IH]; intros w Hw; [done|].
  simpl. destruct (earliest (timers (node w))) as [d|]; [|done].
  destruct (d <=? until); [|done].
  apply IH, callback_flushed, Hw.
Qed.

Lemma post_logs_flushed b now w :
  flushed_or_armed w → flushed_or_armed (exec (LogRoutes.post_logs b now) w).
Proof.
  intros Hw. unfold LogRoutes.post_logs.
  destruct (_ || _ || _); [done|].
  destruct (LogRoutes.is_local_host _); [done|].
  destruct (ExtensionFilter.shouldIgnore _ _ _); [done|].
  set (fp := ExtensionFilter.generateFingerprint _ _ _).
  rewrite (exec_bind _ _ w w w) by done.
  assert (∀ (m : M World unit) w1,
            m w = (Ok tt, w1) →
            write_ok (node w1) = write_ok (node w) →
            timers (node w1) = timers (node w) →
            saveScheduled (self w1) = saveScheduled (self w) →
            flushed_or_armed
              (exec (m ;;; scheduleAsyncSave now ;;; ret (LogRoutes.Accepted fp)) w))
    as Hschedule.
  { intros m w1 Hm Hwrite Htimers Hsch.
    rewrite (exec_bind _ _ _ _ _ Hm), exec_then_ret.
    destruct Hw as (Hwr & Harmed & _).
    rewrite <- Hwrite in Hwr. rewrite <- Htimers, <- Hsch in Harmed.
    destruct w1 as [[l1 ix1 sch1 pen1] [f1 rd1 wr1 tm1 co1 ws1]].
    change {| self := _; node := _ |} with (world l1 ix1 sch1 pen1 f1 rd1 wr1 tm1 co1 ws1).
    rewrite scheduleAsyncSave_world. simpl in Hwr, Harmed. subst wr1.
    destruct sch1; unfold flushed_or_armed, world; simpl.
    - split; [done|]. split; [done|]. intros Htm. by destruct (Harmed eq_refl).
    - split; [done|]. split; intros Htm; by destruct tm1. }
  destruct (fingerprintIndex (self w) !! Some fp) as [i|] eqn:Hfp.
  - destruct (logs (self w) !! i) as [old|] eqn:Hold.
    + eapply Hschedule; [reflexivity|done|done|done].
    + unfold exec, this, zoom, add. unfold bind, get. simpl. rewrite Hfp, Hold. simpl.
      by destruct w as [[] []].
  - pose proof (add_new now (LogRoutes.new_entry now b fp) (self w) Hfp) as Hadd.
    eapply Hschedule.
    + unfold bind, this, zoom. rewrite Hadd. reflexivity.
    + done.
    + done.
    + done.
Qed.

Lemma delete_logs_flushed now w :
  write_ok (node w) = true → flushed_or_armed (exec (LogRoutes.delete_logs now) w).
Proof.
  destruct w as [[l ix sch pen] [f rd wr tm co ws]]. simpl. intros ->.
  by repeat split.
Qed.

Lemma served_flushed (requests : list (Z * request)) w :
  flushed_or_armed w → flushed_or_armed (fold_left serve requests w).
Proof.
  revert w. induction requests as [|[now [b|]] requests IH]; intros w Hw; [done|..].
  - cbn [fold_left]. apply IH.
    change (serve w (now, Post b))
      with (exec (LogRoutes.post_logs b now) (advance now w)).
    by apply post_logs_flushed, fire_due_flushed.
  - cbn [fold_left]. apply IH.
    change (serve w (now, Delete))
      with (exec (LogRoutes.delete_logs now) (advance now w)).
    apply delete_logs_flushed. by apply fire_due_flushed.
Qed.

(** The timeouts that are due stay due while the event loop runs. *)
Lemma fire_due_due_by fuel until w :
  due_by until w → due_by until (fire_due fuel until w).
Proof.
  revert w. induction fuel as [|fuel IH]; intros w Hw; [done|].
  simpl. destruct (earliest (timers (node w))) as [d|] eqn:Hd; [|done].
  destruct (d <=? until); [|done].
  apply IH. destruct (earliest_spec _ _ Hd) as [Hin _].
  destruct Hw as [Hdue Hmarked].
  destruct (timeout_callback_timers d
              (with_timers (remove_first d (timers (node w))) w)) as [Htm Hpen].
  unfold due_by. rewrite Htm, Hpen.
  cbn [with_timers timers node self savePending].
  assert (∀ P : Z → Prop, Forall P (timers (node w)) →
                          Forall P (remove_first d (timers (node w)))) as Hrest.
  { intros P. generalize (timers (node w)). intros tm.
    induction 1 as [|x tm Hx Htm' IHtm]; simpl; [constructor|].
    destruct (x =? d); [done|by constructor]. }
  split; [|done].
  apply Forall_app. split; [by apply Hrest|].
  destruct (savePending (self w)) eqn:Hp; [|constructor].
  constructor; [|constructor].
  specialize (Hmarked eq_refl). rewrite Forall_forall in Hmarked.
  by apply Hmarked.
Qed.

Lemma advance_settles until w :
  Forall (fun d => d + SAVE_DEBOUNCE_MS <= until) (timers (node w)) →
  timers (node (advance until w)) = [].
Proof.
  intros Hdue.
  assert (due_by until w) as Hw.
  { split; [|done]. eapply Forall_impl; [exact Hdue|].
    unfold SAVE_DEBOUNCE_MS. simpl. lia. }
  pose proof (advance_quiescent until w) as Hleft.
  destruct (fire_due_due_by (S (length (timers (node w)))) until w Hw) as [Hdone _].
  fold (advance until w) in Hdone.
  destruct (timers (node (advance until w))) as [|x tm]; [done|].
  inversion Hleft; inversion Hdone; subst. lia.
Qed.

End Durability.

(** ** The answers of the handlers *)

Section Ingest.
Import Exn LogStore.

Lemma accepted_guards b :
  accepted b = true →
  negb (LogRoutes.truthy_string (LogRoutes.hostname b))
  || negb (LogRoutes.truthy_string (LogRoutes.method b))
  || negb (LogRoutes.truthy_string (LogRoutes.normalizedPath b)) = false
  ∧ LogRoutes.is_local_host (LogRoutes.hostname b) = false
  ∧ ExtensionFilter.shouldIgnore (LogRoutes.method b) (LogRoutes.hostname b)
      (LogRoutes.normalizedPath b) = false.
Proof.
  unfold accepted.
  destruct (LogRoutes.truthy_string (LogRoutes.hostname b)),
    (LogRoutes.truthy_string (LogRoutes.method b)),
    (LogRoutes.truthy_string (LogRoutes.normalizedPath b)),
    (LogRoutes.is_local_host (LogRoutes.hostname b)),
    (ExtensionFilter.shouldIgnore _ _ _); done.
Qed.

(** The ingest of an observation whose fingerprint is not in the index. *)
Lemma post_logs_new b now w :
  accepted b = true →
  fingerprintIndex (self w) !! Some (fingerprint_of b) = None →
  LogRoutes.post_logs b now w
  = (Ok (LogRoutes.Accepted (fingerprint_of b)),
     exec (scheduleAsyncSave now)
       (exec (print (LogRoutes.new_message b (fingerprint_of b)))
          {| self :=
               {| logs := logs (self w)
                          ++ [set_receivedAt now
                                (LogRoutes.new_entry now b (fingerprint_of b))];
                  fingerprintIndex :=
                    <[Some (fingerprint_of b) := length (logs (self w))]>
                      (fingerprintIndex (self w));
                  saveScheduled := saveScheduled (self w);
                  savePending := true |};
             node := node w |})).
Proof.
  intros (Hvalid & Hlocal & Hignore)%accepted_guards Hnew.
  unfold LogRoutes.post_logs. rewrite Hvalid, Hlocal, Hignore.
  fold (fingerprint_of b).
  pose proof (add_new now (LogRoutes.new_entry now b (fingerprint_of b)) (self w) Hnew)
    as Hadd.
  unfold bind at 1. cbn [get]. rewrite Hnew.
  unfold bind at 1. unfold bind at 1. unfold this at 1, zoom at 1. rewrite Hadd.
  destruct w as [[l ix sch pen] [f rd wr tm co ws]]. by destruct sch.
Qed.

(** The ingest of an observation whose fingerprint the index knows. *)
Lemma post_logs_known b now w i old :
  accepted b = true →
  fingerprintIndex (self w) !! Some (fingerprint_of b) = Some i →
  logs (self w) !! i = Some old →
  LogRoutes.post_logs b now w
  = (Ok (LogRoutes.Accepted (fingerprint_of b)),
     exec (scheduleAsyncSave now)
       {| self := with_logs (<[i := LogRoutes.patch_existing now b old]> (logs (self w)))
                    (self w);
          node := node w |}).
Proof.
  intros (Hvalid & Hlocal & Hignore)%accepted_guards Hknown Hold.
  unfold LogRoutes.post_logs. rewrite Hvalid, Hlocal, Hignore.
  fold (fingerprint_of b).
  unfold bind at 1. cbn [get]. rewrite Hknown, Hold.
  destruct w as [[l ix sch pen] [f rd wr tm co ws]]. by destruct sch.
Qed.

Lemma exec_scheduleAsyncSave_self now w :
  self (exec (scheduleAsyncSave now) w)
  = {| logs := logs (self w); fingerprintIndex := fingerprintIndex (self w);
       saveScheduled := true;
       savePending := savePending (self w) || saveScheduled (self w) |}.
Proof.
  destruct w as [[l ix sch pen] [f rd wr tm co ws]].
  destruct sch; simpl; [by rewrite orb_true_r|by rewrite orb_false_r].
Qed.

Lemma exec_scheduleAsyncSave_node now w :
  file (node (exec (scheduleAsyncSave now) w)) = file (node w)
  ∧ writes (node (exec (scheduleAsyncSave now) w)) = writes (node w)
  ∧ console (node (exec (scheduleAsyncSave now) w)) = console (node w).
Proof.
  destruct w as [[l ix sch pen] [f rd wr tm co ws]]. by destruct sch.
Qed.


End Ingest.

(** X17.  [DELETE /api/logs] always answers, leaves an empty store and
    arms or cancels no timeout.  When the file can be written, it holds
    the empty array at once and nothing is scheduled or pending.  When it
    cannot, the error is logged, the file keeps the old records and
    [savePending] stays set, but since no timeout is armed for it the
    cleared state is written only when a later request schedules a
    save. *)
Theorem X17_delete_logs_clears (now : Z) (w : LogStore.World) :
  let w' := Exn.exec (LogRoutes.delete_logs now) w in
  Exn.outcome (LogRoutes.delete_logs now) w = Exn.Ok LogRoutes.Cleared
  ∧ LogStore.logs (LogStore.self w') = []
  ∧ LogStore.fingerprintIndex (LogStore.self w') = ∅
  ∧ LogStore.timers (LogStore.node w') = LogStore.timers (LogStore.node w)
  ∧ (∀ fp, LogStore.getByFingerprint fp (LogStore.self w') = None)
  ∧ if LogStore.write_ok (LogStore.node w)
    then LogStore.file (LogStore.node w') = Some (LogStore.ArrayOf [])
         ∧ LogStore.writes (LogStore.node w') = LogStore.writes (LogStore.node w) ++ [[]]
         ∧ LogStore.saveScheduled (LogStore.self w') = false
         ∧ LogStore.savePending (LogStore.self w') = false
         ∧ LogStore.console (LogStore.node w')
           = LogStore.console (LogStore.node w)
             ++ [LogStore.console_log "[Logs cleared]"]
    else LogStore.file (LogStore.node w') = LogStore.file (LogStore.node w)
         ∧ LogStore.writes (LogStore.node w') = LogStore.writes (LogStore.node w)
         ∧ LogStore.saveScheduled (LogStore.self w')
           = LogStore.saveScheduled (LogStore.self w)
         ∧ LogStore.savePending (LogStore.self w') = true
         ∧ LogStore.console (LogStore.node w')
           = LogStore.console (LogStore.node w)
             ++ [LogStore.console_error "[LogStore] Error in saveNow():" "EACCES";
                 LogStore.console_log "[Logs cleared]"].
Proof.
  destruct w as [[l ix sch pen] [f rd wr tm co ws]].
  destruct wr; cbn; rewrite <- ?app_assoc; repeat split; done.
Qed.

(** X18.  On a store of records with arrays of status codes, whose index
    and records agree, the ingest handler answers an upload of the shape
    the extension sends (strings for host name, method and path, arrays
    for query keys and status codes, integers for count and timestamp)
    without an exception, and its answers are these.  400 exactly when
    the host name, the method or the path is missing or empty; then, and
    when the observation is ignored, nothing at all has changed.  An accepted
    observation is answered with the fingerprint of its method, host name
    and path; a record with that fingerprint is found afterwards, the
    number of records has grown by one if the fingerprint was new and not
    at all otherwise, a save is scheduled, and the file has not been
    written yet. *)
Theorem X18_post_logs_outcomes (b : LogRoutes.body) (now : Z) (w : LogStore.World)
    (Hs : indexed (LogStore.self w)) :
  let w' := Exn.exec (LogRoutes.post_logs b now) w in
  match Exn.outcome (LogRoutes.post_logs b now) w with
  | Exn.Ok LogRoutes.BadRequest =>
      (LogRoutes.hostname b = "" ∨ LogRoutes.method b = ""
       ∨ LogRoutes.normalizedPath b = "")
      ∧ w' = w
  | Exn.Ok LogRoutes.Ignored =>
      LogRoutes.hostname b ≠ "" ∧ LogRoutes.method b ≠ ""
      ∧ LogRoutes.normalizedPath b ≠ "" ∧ accepted b = false ∧ w' = w
  | Exn.Ok (LogRoutes.Accepted fp) =>
      accepted b = true
      ∧ fp = fingerprint_of b
      ∧ (∃ r, LogStore.getByFingerprint (Some fp) (LogStore.self w') = Some r
              ∧ LogStore.fingerprint r = Some fp)
      ∧ LogStore.count (LogStore.self w')
        = (LogStore.count (LogStore.self w)
           + match LogStore.getByFingerprint (Some fp) (LogStore.self w) with
             | Some _ => 0
             | None => 1
             end)%nat
      ∧ LogStore.saveScheduled (LogStore.self w') = true
      ∧ LogStore.file (LogStore.node w') = LogStore.file (LogStore.node w)
      ∧ LogStore.writes (LogStore.node w') = LogStore.writes (LogStore.node w)
  | Exn.Ok LogRoutes.Cleared => False
  | Exn.Throw _ => False
  end.
Proof.
  intros w'. subst w'.
  destruct (accepted b) eqn:Hacc.
  - (* accepted *)
    destruct (LogStore.fingerprintIndex (LogStore.self w) !! Some (fingerprint_of b))
      as [i|] eqn:Hfp.
    + destruct (proj1 (indexed_index _ Hs _ _) Hfp) as (old & Hold & Hfpold).
      pose proof (lookup_lt_Some _ _ _ Hold) as Hlt.
      unfold Exn.outcome, Exn.exec.
      rewrite (post_logs_known b now w i old Hacc Hfp Hold). cbn [fst snd].
      rewrite exec_scheduleAsyncSave_self.
      match goal with
      | |- context [LogStore.node (Exn.exec (LogStore.scheduleAsyncSave now) ?w1)] =>
        destruct (exec_scheduleAsyncSave_node now w1) as (Hfile & Hwrites & _) end.
      rewrite Hfile, Hwrites.
      unfold LogStore.getByFingerprint, LogStore.count. cbn.
      rewrite Hfp, Hold, list_lookup_insert_eq by done. rewrite length_insert.
      split; [done|]. split; [done|].
      split; [by exists (LogRoutes.patch_existing now b old)|].
      split; [lia|done].
    + unfold Exn.outcome, Exn.exec.
      rewrite (post_logs_new b now w Hacc Hfp). cbn [fst snd].
      rewrite exec_scheduleAsyncSave_self.
      match goal with
      | |- context [LogStore.node (Exn.exec (LogStore.scheduleAsyncSave now) ?w1)] =>
        destruct (exec_scheduleAsyncSave_node now w1) as (Hfile & Hwrites & _) end.
      rewrite Hfile, Hwrites.
      unfold LogStore.getByFingerprint, LogStore.count. cbn.
      rewrite Hfp, lookup_insert_eq, length_app.
      rewrite lookup_app_r by lia. rewrite Nat.sub_diag. cbn.
      split; [done|]. split; [done|]. split; [by eexists|]. done.
  - (* rejected or ignored *)
    unfold accepted in Hacc. unfold LogRoutes.post_logs, Exn.outcome, Exn.exec.
    unfold LogRoutes.truthy_string in *.
    destruct (String.eqb_spec (LogRoutes.hostname b) "") as [Hh|Hh];
      [cbn; auto|].
    destruct (String.eqb_spec (LogRoutes.method b) "") as [Hm|Hm];
      [cbn; auto|].
    destruct (String.eqb_spec (LogRoutes.normalizedPath b) "") as [Hp|Hp];
      [cbn; auto|].
    cbn [negb orb andb] in Hacc |- *.
    destruct (LogRoutes.is_local_host _); [cbn; by repeat split|].
    destruct (ExtensionFilter.shouldIgnore _ _ _); [cbn; by repeat split|].
    done.
Qed.

Lemma X18_post_logs_witness :
  Exn.outcome (LogRoutes.post_logs login_request 0) started
  = Exn.Ok (LogRoutes.Accepted
              "e35c3a8d840e41f7204dfe9c16fb3d5738a6b6eab47e3747830cb9e629b4d70a").
Proof.
  pose proof (X18_post_logs_outcomes login_request 0 started) as Houtcome.
  assert (indexed (LogStore.self started)) as Hs.
  { eapply indexed_same; [| |exact indexed_fresh]; reflexivity. }
  specialize (Houtcome Hs). cbv zeta in Houtcome.
  destruct (Exn.outcome (LogRoutes.post_logs login_request 0) started)
    as [[| |fp|]|e]; try done.
  - destruct Houtcome as ([H|[H|H]] & _); discriminate H.
  - destruct Houtcome as (_ & _ & _ & Hacc & _). vm_compute in Hacc. discriminate Hacc.
  - destruct Houtcome as (_ & -> & _). vm_compute. reflexivity.
Defined.

(** ** Repeated uploads *)

Section Repeated.
Import Exn LogStore.

Lemma number_or_nonzero x d : d ≠ 0 → LogRoutes.number_or x d ≠ 0.
Proof.
  intros Hd. unfold LogRoutes.number_or. destruct x as [n|]; [|done].
  by destruct (Z.eqb_spec n 0).
Qed.





End Repeated.



(** ** The query handler *)

Section Sorting.
Context {A : Type} (key : A → Z).

Lemma sort_insert_permutation a l :
  Js.sort_insert (fun a b => key b - key a) a l ≡ₚ a :: l.
Proof.
  induction l as [|b l IH]; simpl; [done|].
  destruct (key b - key a <=? 0); [done|].
  by rewrite IH, Permutation_swap.
Qed.

Lemma sort_permutation l : Js.sort (fun a b => key b - key a) l ≡ₚ l.
Proof.
  induction l as [|a l IH]; simpl; [done|].
  by rewrite sort_insert_permutation, IH.
Qed.

Lemma sort_insert_descending a l :
  StronglySorted (fun x y => key y <= key x) l →
  StronglySorted (fun x y => key y <= key x)
    (Js.sort_insert (fun a b => key b - key a) a l).
Proof.
  induction 1 as [|b l Hl IH Hb]; simpl.
  - by repeat constructor.
  - destruct (Z.leb_spec (key b - key a) 0) as [Hle|Hgt].
    + constructor; [by constructor|].
      constructor; [lia|].
      eapply Forall_impl; [exact Hb|]. simpl. intros c Hc. lia.
    + constructor; [done|].
      rewrite sort_insert_permutation.
      constructor; [lia|done].
Qed.

Lemma sort_descending l :
  StronglySorted (fun x y => key y <= key x) (Js.sort (fun a b => key b - key a) l).
Proof.
  induction l as [|a l IH]; simpl; [constructor|by apply sort_insert_descending].
Qed.

(** The sort is stable: the elements of one key keep their order. *)
Lemma sort_insert_stable k a l :
  List.filter (fun x => key x =? k) (Js.sort_insert (fun a b => key b - key a) a l)
  = List.filter (fun x => key x =? k) (a :: l).
Proof.
  induction l as [|b l IH]; [done|].
  cbn [Js.sort_insert].
  destruct (Z.leb_spec (key b - key a) 0) as [Hle|Hgt]; [done|].
  cbn [List.filter] in IH |- *. rewrite IH.
  destruct (Z.eqb_spec (key a) k), (Z.eqb_spec (key b) k); try done. lia.
Qed.

Lemma sort_stable k l :
  List.filter (fun x => key x =? k) (Js.sort (fun a b => key b - key a) l)
  = List.filter (fun x => key x =? k) l.
Proof.
  induction l as [|a l IH]; [done|].
  cbn [Js.sort]. rewrite sort_insert_stable. cbn [List.filter]. by rewrite IH.
Qed.

End Sorting.

Section Query.
Import LogStore.

Lemma filter_twice {A} (f g : A → bool) (l : list A) :
  List.filter g (List.filter f l) = List.filter (fun x => f x && g x) l.
Proof.
  induction l as [|x l IH]; [done|]. simpl.
  destruct (f x); simpl; [|done]. destruct (g x); by rewrite IH.
Qed.

Lemma filter_all {A} (l : list A) : List.filter (fun _ => true) l = l.
Proof. induction l as [|x l IH]; [done|]. simpl. by rewrite IH. Qed.

Lemma filter_is_sublist {A} (f : A → bool) (l : list A) : List.filter f l `sublist_of` l.
Proof.
  induction l as [|x l IH]; [done|]. simpl.
  destruct (f x); [by apply sublist_skip|by apply sublist_cons].
Qed.

Lemma total_magnitude_nonneg (l : list LogEntry) : 0 <= total_magnitude l.
Proof.
  induction l as [|e l IH]; [done|].
  cbn [total_magnitude foldr]. fold (total_magnitude l). lia.
Qed.

(** While the magnitudes add up to at most [2 ^ 53] no partial sum is
    rounded. *)
Lemma fold_left_weight (l : list LogEntry) acc :
  Z.abs acc + total_magnitude l <= 2 ^ 53 →
  fold_left (fun sum e => Js.plus sum (weight e)) l acc = acc + total_weight l.
Proof.
  revert acc. induction l as [|e l IH]; intros acc Hsmall; [simpl; lia|].
  cbn [total_magnitude foldr] in Hsmall. fold (total_magnitude l) in Hsmall.
  pose proof (total_magnitude_nonneg l) as Hl.
  cbn [fold_left]. rewrite plus_exact by lia. rewrite IH by lia.
  cbn [total_weight foldr]. fold (total_weight l). lia.
Qed.

Lemma total_weight_perm (l1 l2 : list LogEntry) :
  l1 ≡ₚ l2 → total_weight l1 = total_weight l2.
Proof.
  induction 1 as [|x l1 l2 _ IH|x y l|l1 l2 l3 _ IH1 _ IH2]; simpl; lia.
Qed.

Lemma total_magnitude_perm (l1 l2 : list LogEntry) :
  l1 ≡ₚ l2 → total_magnitude l1 = total_magnitude l2.
Proof.
  induction 1 as [|x l1 l2 _ IH|x y l|l1 l2 l3 _ IH1 _ IH2]; simpl; lia.
Qed.

Lemma sorted_drop {A} (R : A → A → Prop) n l :
  StronglySorted R l → StronglySorted R (drop n l).
Proof.
  revert l. induction n as [|n IH]; intros l Hl; [done|].
  destruct Hl; simpl; [constructor|by apply IH].
Qed.

Lemma sorted_take {A} (R : A → A → Prop) n l :
  StronglySorted R l → StronglySorted R (take n l).
Proof.
  intros Hl. revert n. induction Hl as [|a l Hl IH Ha]; intros [|n]; simpl;
    [constructor..|].
  constructor; [apply IH|by apply Forall_take].
Qed.

(** The three filter stages of the handler select what [selected]
    selects. *)
Lemma filter_stages q (l : list LogEntry) :
  LogRoutes.apply_hideAssets q (LogRoutes.apply_method q (LogRoutes.apply_search q l))
  = List.filter (selected q) l.
Proof.
  assert (LogRoutes.apply_search q l
          = List.filter
              (fun x => if LogRoutes.truthy_string (default "" (LogRoutes.query_q q))
                        then LogRoutes.matchesSearch x (default "" (LogRoutes.query_q q))
                        else true) l) as ->.
  { unfold LogRoutes.apply_search.
    destruct (LogRoutes.truthy_string _); [done|by rewrite filter_all]. }
  assert (∀ l', LogRoutes.apply_method q l'
                = List.filter
                    (fun x => match LogRoutes.query_method q with
                              | Some m =>
                                  if LogRoutes.truthy_string m
                                  then String.eqb (method x) (Js.toUpperCase m)
                                  else true
                              | None => true
                              end) l') as ->.
  { intros l'. unfold LogRoutes.apply_method.
    destruct (LogRoutes.query_method q) as [m|]; [|by rewrite filter_all].
    destruct (LogRoutes.truthy_string m); [done|by rewrite filter_all]. }
  assert (∀ l', LogRoutes.apply_hideAssets q l'
                = List.filter
                    (fun x => match LogRoutes.query_hideAssets q with
                              | Some flag =>
                                  if String.eqb flag "true"
                                  then LogRoutes.not_an_asset x else true
                              | None => true
                              end) l') as ->.
  { intros l'. unfold LogRoutes.apply_hideAssets.
    destruct (LogRoutes.query_hideAssets q) as [flag|]; [|by rewrite filter_all].
    destruct (String.eqb flag "true"); [done|by rewrite filter_all]. }
  rewrite !filter_twice. apply List.filter_ext. intros x. unfold selected.
  by rewrite ?andb_assoc.
Qed.

(** The page is cut from the sorted selection. *)
Lemma get_logs_page q s :
  let chosen := List.filter (selected q) (logs s) in
  let sorted := Js.sort LogRoutes.by_discoveryCount chosen in
  let p := LogRoutes.get_logs q s in
  LogRoutes.page_logs p
  = take (Z.to_nat (LogRoutes.page_limit p))
      (drop (Z.to_nat (LogRoutes.page_offset p)) sorted)
  ∧ LogRoutes.page_total p = length chosen
  ∧ LogRoutes.page_totalDiscoveries p = running_total sorted
  ∧ LogRoutes.page_count p = length (LogRoutes.page_logs p)
  ∧ LogRoutes.page_deduplicationRatio p
    = if Nat.ltb 0 (LogRoutes.page_count p)
      then LogRoutes.Fixed2 (LogRoutes.page_totalDiscoveries p) (LogRoutes.page_count p)
      else LogRoutes.Zero.
Proof.
  intros chosen sorted p. subst p. unfold LogRoutes.get_logs.
  cbn [LogRoutes.page_logs LogRoutes.page_limit LogRoutes.page_offset
         LogRoutes.page_total LogRoutes.page_totalDiscoveries LogRoutes.page_count
         LogRoutes.page_deduplicationRatio].
  unfold getAll. rewrite filter_stages. fold chosen. fold sorted.
  split; [|split; [|split; [|done]]].
  - unfold Js.slice. do 2 f_equal. lia.
  - subst sorted. unfold LogRoutes.by_discoveryCount.
    by rewrite (sort_permutation (fun l => LogRoutes.number_or (Some (discoveryCount l)) 1)).
  - reflexivity.
Qed.

End Query.

(** X20.  The page [GET /api/logs] answers with is bounded: the limit
    is at least 1 and at most [MAX_LOG_LIMIT] = 500 whatever the query
    asks for (100 when it asks for nothing, for 0 or for something that
    is not a number), the offset is never negative, and the page holds
    what is left of the selection after the offset, but no more than the
    limit: [count] is the least of the limit and [total - offset].  The
    ratio is only computed for a page that is not empty, with the length
    of the page as the divisor. *)
Theorem X20_get_logs_page_is_bounded (q : LogRoutes.query) (s : LogStore.t) :
  let p := LogRoutes.get_logs q s in
  1 <= LogRoutes.page_limit p <= LogRoutes.MAX_LOG_LIMIT
  ∧ 0 <= LogRoutes.page_offset p
  ∧ LogRoutes.page_count p = length (LogRoutes.page_logs p)
  ∧ LogRoutes.page_count p
    = Nat.min (Z.to_nat (LogRoutes.page_limit p))
        (LogRoutes.page_total p - Z.to_nat (LogRoutes.page_offset p))
  ∧ (LogRoutes.page_total p <= LogStore.count s)%nat
  ∧ (match LogRoutes.query_limit q with
     | Some n => n = 0
     | None => True
     end → LogRoutes.page_limit p = 100)
  ∧ match LogRoutes.page_deduplicationRatio p with
    | LogRoutes.Zero => LogRoutes.page_logs p = []
    | LogRoutes.Fixed2 numerator denominator =>
        numerator = LogRoutes.page_totalDiscoveries p
        ∧ denominator = LogRoutes.page_count p ∧ (0 < denominator)%nat
    end.
Proof.
  intros p.
  destruct (get_logs_page q s) as (Hpage & Htotal & _ & Hcount & Hratio).
  fold p in Hpage, Htotal, Hcount, Hratio.
  assert (1 <= LogRoutes.page_limit p <= LogRoutes.MAX_LOG_LIMIT) as Hlimit.
  { subst p. unfold LogRoutes.get_logs, LogRoutes.MAX_LOG_LIMIT. cbn [LogRoutes.page_limit]. lia. }
  assert (0 <= LogRoutes.page_offset p) as Hoffset.
  { subst p. unfold LogRoutes.get_logs. cbn [LogRoutes.page_offset]. lia. }
  split; [exact Hlimit|]. split; [exact Hoffset|]. split; [exact Hcount|].
  split; [|split; [|split]].
  - rewrite Hcount, Hpage, length_take, length_drop, Htotal.
    unfold LogRoutes.by_discoveryCount.
    by rewrite (sort_permutation
                  (fun l => LogRoutes.number_or (Some (LogStore.discoveryCount l)) 1)).
  - rewrite Htotal. unfold LogStore.count.
    apply sublist_length, filter_is_sublist.
  - intros Hnone. subst p. unfold LogRoutes.get_logs, LogRoutes.MAX_LOG_LIMIT.
    cbn [LogRoutes.page_limit].
    destruct (LogRoutes.query_limit q) as [n|]; [subst n|]; reflexivity.
  - rewrite Hratio. destruct (Nat.ltb_spec 0 (LogRoutes.page_count p)) as [Hpos|Hzero].
    + done.
    + rewrite Hcount in Hzero. by destruct (LogRoutes.page_logs p); [|simpl in Hzero; lia].
Qed.

(** X21.  [GET /api/logs] answers with the records the query selects,
    most discovered first.  The selection is what [getFiltered] returns
    for the conjunction of the filters the query asks for: the records of
    the page are records of the store that pass every one of them; they
    are in descending order of [discoveryCount || 1]; records with the
    same count come in the order they have in the store (the sort is
    stable);
    [total] is the number of selected records, and [totalDiscoveries] is
    summed over the whole selection and not over the page: it is the sum
    of the counts whenever their magnitudes add up to at most [2 ^ 53], so
    that no partial sum is rounded; and a page that starts at offset 0
    with room for the whole selection holds all of it. *)
Theorem X21_get_logs_most_discovered_first (q : LogRoutes.query) (s : LogStore.t) :
  let p := LogRoutes.get_logs q s in
  let chosen := LogStore.getFiltered (selected q) s in
  (∀ l, l ∈ LogRoutes.page_logs p → l ∈ LogStore.logs s ∧ selected q l = true)
  ∧ StronglySorted (fun a b => weight b <= weight a) (LogRoutes.page_logs p)
  ∧ (∃ sorted,
       sorted ≡ₚ chosen
       ∧ (∀ k, List.filter (fun l => weight l =? k) sorted
               = List.filter (fun l => weight l =? k) chosen)
       ∧ LogRoutes.page_logs p
         = take (Z.to_nat (LogRoutes.page_limit p))
             (drop (Z.to_nat (LogRoutes.page_offset p)) sorted))
  ∧ LogRoutes.page_total p = length chosen
  ∧ (total_magnitude chosen <= 2 ^ 53 →
     LogRoutes.page_totalDiscoveries p = total_weight chosen)
  ∧ (LogRoutes.page_offset p = 0 →
     (length chosen <= Z.to_nat (LogRoutes.page_limit p))%nat →
     LogRoutes.page_logs p ≡ₚ chosen).
Proof.
  intros p chosen. unfold LogStore.getFiltered in chosen.
  destruct (get_logs_page q s) as (Hpage & Htotal & Hsum & _).
  fold p chosen in Hpage, Htotal, Hsum.
  set (sorted := Js.sort LogRoutes.by_discoveryCount chosen) in *.
  assert (sorted ≡ₚ chosen) as Hperm by apply (sort_permutation weight).
  assert (StronglySorted (fun a b => weight b <= weight a) sorted) as Hsorted
    by apply (sort_descending weight).
  split; [|split; [|split; [|split; [|split]]]].
  - intros l Hl. rewrite Hpage in Hl.
    apply subseteq_take, subseteq_drop in Hl.
    rewrite Hperm in Hl. subst chosen.
    apply list_elem_of_In, List.filter_In in Hl as [Hin Hsel].
    split; [by apply list_elem_of_In|done].
  - rewrite Hpage.
    by apply sorted_take, sorted_drop.
  - exists sorted. split; [exact Hperm|]. split; [|exact Hpage].
    intros k. apply (sort_stable weight).
  - exact Htotal.
  - intros Hsmall. rewrite Hsum. unfold running_total.
    rewrite fold_left_weight.
    + rewrite (total_weight_perm _ _ Hperm). lia.
    + rewrite (total_magnitude_perm _ _ Hperm). simpl. lia.
  - intros Hzero Hroom. rewrite Hpage, Hzero. simpl.
    rewrite take_ge; [done|]. by rewrite Hperm.
Qed.

(** ** Searching *)

Section LetterCase.

(** The code of a character after [toLowerCase] and [toUpperCase]. *)
Lemma lower_char_code c :
  nat_of_ascii (Js.lower_char c)
  = let n := nat_of_ascii c in
    if (Nat.leb 65 n && Nat.leb n 90)%bool then (n + 32)%nat else n.
Proof.
  unfold Js.lower_char. cbv zeta.
  pose proof (nat_ascii_bounded c) as Hc.
  destruct (Nat.leb_spec 65 (nat_of_ascii c)), (Nat.leb_spec (nat_of_ascii c) 90);
    cbn [andb]; try done.
  apply nat_ascii_embedding. lia.
Qed.

Lemma upper_char_code c :
  nat_of_ascii (Js.upper_char c)
  = let n := nat_of_ascii c in
    if (Nat.leb 97 n && Nat.leb n 122)%bool then (n - 32)%nat else n.
Proof.
  unfold Js.upper_char. cbv zeta.
  pose proof (nat_ascii_bounded c) as Hc.
  destruct (Nat.leb_spec 97 (nat_of_ascii c)), (Nat.leb_spec (nat_of_ascii c) 122);
    cbn [andb]; try done.
  apply nat_ascii_embedding. lia.
Qed.

Lemma ascii_code_inj a b : nat_of_ascii a = nat_of_ascii b → a = b.
Proof.
  intros H. rewrite <- (ascii_nat_embedding a), <- (ascii_nat_embedding b). by rewrite H.
Qed.

(** Lower-casing after upper-casing is lower-casing. *)
Lemma lower_upper_char c : Js.lower_char (Js.upper_char c) = Js.lower_char c.
Proof.
  apply ascii_code_inj. rewrite !lower_char_code, upper_char_code. cbv zeta.
  destruct (Nat.leb_spec 97 (nat_of_ascii c)), (Nat.leb_spec (nat_of_ascii c) 122),
    (Nat.leb_spec 65 (nat_of_ascii c)), (Nat.leb_spec (nat_of_ascii c) 90);
    cbn [andb]; try lia;
    repeat match goal with
           | |- context [Nat.leb ?a ?b] => destruct (Nat.leb_spec a b)
           end; cbn [andb]; lia.
Qed.

Lemma toLowerCase_toUpperCase s : Js.toLowerCase (Js.toUpperCase s) = Js.toLowerCase s.
Proof. induction s as [|c s IH]; [done|]. simpl. by rewrite lower_upper_char, IH. Qed.

(** White space has no letter case. *)
Lemma ascii_space_upper c :
  Js.ascii_space (nat_of_ascii (Js.upper_char c)) = Js.ascii_space (nat_of_ascii c).
Proof.
  rewrite upper_char_code. cbv zeta. unfold Js.ascii_space.
  destruct (Nat.leb_spec 97 (nat_of_ascii c)), (Nat.leb_spec (nat_of_ascii c) 122);
    cbn [andb]; try done.
  repeat match goal with
         | |- context [Nat.leb ?a ?b] => destruct (Nat.leb_spec a b)
         | |- context [Nat.eqb ?a ?b] => destruct (Nat.eqb_spec a b)
         end; cbn [andb orb]; try done; lia.
Qed.

Lemma space_2_high a b : Js.space_2 a b = true → (128 <= a)%nat ∧ (128 <= b)%nat.
Proof.
  unfold Js.space_2. intros [->%Nat.eqb_eq ->%Nat.eqb_eq]%andb_true_iff. lia.
Qed.

Lemma space_3_high a b c :
  Js.space_3 a b c = true → (128 <= a)%nat ∧ (128 <= b)%nat ∧ (128 <= c)%nat.
Proof.
  unfold Js.space_3.
  rewrite !orb_true_iff, !andb_true_iff, !orb_true_iff, !andb_true_iff,
    !Nat.eqb_eq, !Nat.leb_le.
  lia.
Qed.

Lemma upper_char_high c :
  (128 <= nat_of_ascii c)%nat ∨ (128 <= nat_of_ascii (Js.upper_char c))%nat →
  Js.upper_char c = c.
Proof.
  intros H. apply ascii_code_inj. rewrite upper_char_code in *. cbv zeta in *.
  destruct (Nat.leb_spec 97 (nat_of_ascii c)), (Nat.leb_spec (nat_of_ascii c) 122);
    cbn [andb] in *; try done. lia.
Qed.

Lemma space_2_upper a b :
  Js.space_2 (nat_of_ascii (Js.upper_char a)) (nat_of_ascii (Js.upper_char b))
  = Js.space_2 (nat_of_ascii a) (nat_of_ascii b).
Proof.
  destruct (Js.space_2 (nat_of_ascii a) (nat_of_ascii b)) eqn:H1.
  - apply space_2_high in H1 as H. destruct H as [Ha Hb].
    rewrite !upper_char_high by (by left). done.
  - destruct (Js.space_2 (nat_of_ascii (Js.upper_char a)) _) eqn:H2; [|reflexivity].
    apply space_2_high in H2 as H. destruct H as [Ha Hb].
    rewrite !upper_char_high in H2 by (by right). congruence.
Qed.

Lemma space_3_upper a b c :
  Js.space_3 (nat_of_ascii (Js.upper_char a)) (nat_of_ascii (Js.upper_char b))
    (nat_of_ascii (Js.upper_char c))
  = Js.space_3 (nat_of_ascii a) (nat_of_ascii b) (nat_of_ascii c).
Proof.
  destruct (Js.space_3 (nat_of_ascii a) (nat_of_ascii b) (nat_of_ascii c)) eqn:H1.
  - apply space_3_high in H1 as H. destruct H as (Ha & Hb & Hc).
    rewrite !upper_char_high by (by left). done.
  - destruct (Js.space_3 (nat_of_ascii (Js.upper_char a)) _ _) eqn:H2; [|reflexivity].
    apply space_3_high in H2 as H. destruct H as (Ha & Hb & Hc).
    rewrite !upper_char_high in H2 by (by right). congruence.
Qed.

Lemma trims_to_empty_3 a b c r :
  Js.trims_to_empty (String a (String b (String c r)))
  = if Js.ascii_space (nat_of_ascii a) then Js.trims_to_empty (String b (String c r))
    else if Js.space_2 (nat_of_ascii a) (nat_of_ascii b)
         then Js.trims_to_empty (String c r)
         else Js.space_3 (nat_of_ascii a) (nat_of_ascii b) (nat_of_ascii c)
              && Js.trims_to_empty r.
Proof. reflexivity. Qed.

Lemma trims_to_empty_2 a b :
  Js.trims_to_empty (String a (String b ""))
  = if Js.ascii_space (nat_of_ascii a) then Js.trims_to_empty (String b "")
    else Js.space_2 (nat_of_ascii a) (nat_of_ascii b).
Proof.
  cbn. destruct (Js.ascii_space (nat_of_ascii a)); [done|].
  by destruct (Js.space_2 _ _).
Qed.

Lemma trims_to_empty_1 a :
  Js.trims_to_empty (String a "") = Js.ascii_space (nat_of_ascii a).
Proof. cbn. by destruct (Js.ascii_space _). Qed.

Lemma trims_to_empty_upper s :
  Js.trims_to_empty (Js.toUpperCase s) = Js.trims_to_empty s.
Proof.
  assert (∀ n s, (String.length s <= n)%nat →
                 Js.trims_to_empty (Js.toUpperCase s) = Js.trims_to_empty s) as H.
  { clear s. induction n as [|n IH]; intros s Hn.
    - destruct s; [done|simpl in Hn; lia].
    - destruct s as [|a [|b [|c r]]]; simpl in Hn.
      + done.
      + cbn [Js.toUpperCase]. by rewrite !trims_to_empty_1, ascii_space_upper.
      + cbn [Js.toUpperCase].
        rewrite !trims_to_empty_2, ascii_space_upper, space_2_upper.
        destruct (Js.ascii_space _); [|done].
        apply (IH (String b "")). simpl. lia.
      + cbn [Js.toUpperCase].
        rewrite (trims_to_empty_3 a), (trims_to_empty_3 (Js.upper_char a)).
        rewrite ascii_space_upper, space_2_upper, space_3_upper.
        destruct (Js.ascii_space _).
        * apply (IH (String b (String c r))). simpl. lia.
        * destruct (Js.space_2 _ _).
          -- apply (IH (String c r)). simpl. lia.
          -- f_equal. apply IH. lia. }
  by apply (H (String.length s)).
Qed.

Lemma toUpperCase_empty s : Js.toUpperCase s = "" ↔ s = "".
Proof. by destruct s. Qed.

End LetterCase.

(** X22.  The search of [GET /api/logs] does not depend on the letter
    case of the query: the query in upper case selects the records the
    query itself selects.  A query that is empty or holds white space
    only selects every record, and a record is selected by its own host
    name, by its own method and by its own path, in whatever letter case
    they are typed. *)
Theorem X22_matchesSearch_ignores_case (log : LogStore.LogEntry) (query : string) :
  LogRoutes.matchesSearch log (Js.toUpperCase query) = LogRoutes.matchesSearch log query
  ∧ (Js.trims_to_empty query = true → LogRoutes.matchesSearch log query = true)
  ∧ (Js.toLowerCase query = Js.toLowerCase (LogStore.hostname log)
     ∨ Js.toLowerCase query = Js.toLowerCase (LogStore.method log)
     ∨ Js.toLowerCase query = Js.toLowerCase (LogStore.normalizedPath log) →
     LogRoutes.matchesSearch log query = true).
Proof.
  unfold LogRoutes.matchesSearch. split; [|split].
  - rewrite trims_to_empty_upper, toLowerCase_toUpperCase.
    unfold LogRoutes.truthy_string.
    destruct (String.eqb_spec (Js.toUpperCase query) "") as [He|He];
      destruct (String.eqb_spec query "") as [Hq|Hq]; try done.
    + by apply (proj1 (toUpperCase_empty query)) in He.
    + subst query. done.
  - intros ->. by rewrite orb_true_r.
  - intros Hown. destruct (_ || _); [done|].
    destruct Hown as [-> | [-> | ->]].
    + by rewrite includes_self.
    + by rewrite String.eqb_refl, orb_true_r.
    + by rewrite includes_self, !orb_true_r.
Qed.

(** ** What the store behind the handlers holds *)

Section Kept.
Import Exn LogStore.

Lemma post_logs_rejected b now w :
  accepted b = false → exec (LogRoutes.post_logs b now) w = w.
Proof.
  unfold accepted, LogRoutes.post_logs. intros Hacc.
  destruct (LogRoutes.truthy_string (LogRoutes.hostname b)); [|done].
  destruct (LogRoutes.truthy_string (LogRoutes.method b)); [|done].
  destruct (LogRoutes.truthy_string (LogRoutes.normalizedPath b)); [|done].
  cbn [negb orb andb] in Hacc |- *.
  destruct (LogRoutes.is_local_host _); [done|].
  by destruct (ExtensionFilter.shouldIgnore _ _ _).
Qed.

Lemma generateFingerprint_length method hostname normalizedPath :
  String.length (ExtensionFilter.generateFingerprint method hostname normalizedPath)
  = 64%nat.
Proof.
  unfold ExtensionFilter.generateFingerprint. cbv zeta.
  match goal with |- context [SHA256.digest ?msg] =>
    destruct (digest_bytes msg) as [Hbytes Hlen];
    destruct (renderings_agree _ Hbytes) as (_ & _ & _ & H4)
  end.
  by rewrite H4, Hlen.
Qed.

Lemma fingerprint_truthy b : truthy (Some (fingerprint_of b)) = true.
Proof.
  unfold truthy, fingerprint_of.
  pose proof (generateFingerprint_length (LogRoutes.method b) (LogRoutes.hostname b)
                (LogRoutes.normalizedPath b)) as Hlen.
  by destruct (ExtensionFilter.generateFingerprint _ _ _).
Qed.

Lemma post_logs_as_ingested b now w :
  indexed (self w) →
  (∀ r, r ∈ logs (self w) → as_ingested r) →
  ∀ r, r ∈ logs (self (exec (LogRoutes.post_logs b now) w)) → as_ingested r.
Proof.
  intros Hs Hall. destruct (accepted b) eqn:Hacc;
    [|by rewrite post_logs_rejected].
  destruct (fingerprintIndex (self w) !! Some (fingerprint_of b)) as [i|] eqn:Hfp.
  - destruct (proj1 (indexed_index _ Hs _ _) Hfp) as (old & Hold & Hfpold).
    unfold exec. rewrite (post_logs_known b now w i old Hacc Hfp Hold). cbn [snd].
    rewrite exec_scheduleAsyncSave_self. cbn [logs self with_logs].
    apply insert_all; [exact Hall|].
    assert (as_ingested old) as Hold' by (apply Hall; by eapply list_elem_of_lookup_2).
    exact Hold'.
  - unfold exec. rewrite (post_logs_new b now w Hacc Hfp). cbn [snd].
    rewrite exec_scheduleAsyncSave_self.
    cbn -[fingerprint_of]. intros r [Hr|Hr]%elem_of_app; [by apply Hall|].
    apply list_elem_of_singleton in Hr as ->.
    split; [|split; [apply fingerprint_truthy|split; [by eexists|done]]].
    rewrite <- Hacc. by destruct b.
Qed.

Lemma served_as_ingested (requests : list (Z * request)) w :
  indexed (self w) → filed (self w) →
  (∀ r, r ∈ logs (self w) → as_ingested r) →
  ∀ r, r ∈ logs (self (fold_left serve requests w)) → as_ingested r.
Proof.
  revert w. induction requests as [|[now [b|]] requests IH]; intros w Hs Hfiled Hall;
    [done|..].
  - cbn [fold_left].
    change (serve w (now, Post b))
      with (exec (LogRoutes.post_logs b now) (advance now w)).
    destruct (fire_due_store (S (length (timers (node w)))) now w) as [Hl Hi].
    fold (advance now w) in Hl, Hi.
    assert (indexed (self (advance now w))) as Hs' by by eapply indexed_same.
    assert (filed (self (advance now w))) as Hfiled' by (unfold filed; by rewrite Hl).
    destruct (post_logs_indexed b now (advance now w) Hs' Hfiled') as [H1 H2].
    apply IH; [done|done|].
    apply post_logs_as_ingested; [done|]. by rewrite Hl.
  - cbn [fold_left].
    change (serve w (now, Delete))
      with (exec (LogRoutes.delete_logs now) (advance now w)).
    destruct (delete_logs_indexed now (advance now w)) as [H1 H2].
    apply IH; [done|done|].
    intros r Hr. destruct (advance now w) as [[l ix sch pen] [f rd wr tm co ws]].
    destruct wr; by apply elem_of_nil in Hr.
Qed.

End Kept.

(** X23.  The store behind the ingest handler holds accepted
    observations only: started on an empty log file, after any requests,
    every record has a host name, a method and a path; the host is not a
    local one and [shouldIgnore] does not ignore the path; the record has
    a non-empty fingerprint and the time it was received, and
    [lastPatched] is never set, since the handler updates a known record
    itself and calls [add] only for a new one. *)
Theorem X23_served_store_holds_accepted
    (requests : list (Z * request)) (r : LogStore.LogEntry)
    (Hin : r ∈ LogStore.logs (LogStore.self (fold_left serve requests started))) :
  LogStore.hostname r ≠ "" ∧ LogStore.method r ≠ "" ∧ LogStore.normalizedPath r ≠ ""
  ∧ LogRoutes.is_local_host (LogStore.hostname r) = false
  ∧ ExtensionFilter.shouldIgnore (LogStore.method r) (LogStore.hostname r)
      (LogStore.normalizedPath r) = false
  ∧ (∃ fp, LogStore.fingerprint r = Some fp ∧ fp ≠ "")
  ∧ (∃ t, LogStore.receivedAt r = Some t)
  ∧ LogStore.lastPatched r = None.
Proof.
  destruct (served_as_ingested requests started) with (r := r)
    as (Hacc & Hfp & Hreceived & Hpatched).
  - eapply indexed_same; [| |exact indexed_fresh]; done.
  - by intros r' Hr%elem_of_nil.
  - by intros r' Hr%elem_of_nil.
  - exact Hin.
  - unfold accepted, observation, LogRoutes.truthy_string in Hacc.
    cbn [LogRoutes.hostname LogRoutes.method LogRoutes.normalizedPath] in Hacc.
    destruct (String.eqb_spec (LogStore.hostname r) ""); [done|].
    destruct (String.eqb_spec (LogStore.method r) ""); [done|].
    destruct (String.eqb_spec (LogStore.normalizedPath r) ""); [done|].
    destruct (LogRoutes.is_local_host _); [done|].
    destruct (ExtensionFilter.shouldIgnore _ _ _); [done|].
    do 5 (split; [done|]). split; [|done].
    unfold LogStore.truthy in Hfp. destruct (LogStore.fingerprint r) as [fp|]; [|done].
    exists fp. split; [done|]. by destruct (String.eqb_spec fp "").
Qed.

Lemma X23_served_store_witness :
  ExtensionFilter.shouldIgnore "POST" "api.example.com" "/api/users/login" = false.
Proof.
  destruct (X23_served_store_holds_accepted [(0, Post login_request)]
              (LogStore.set_receivedAt 0
                 (LogRoutes.new_entry 0 login_request (fingerprint_of login_request))))
    as (_ & _ & _ & _ & Hkept & _).
  - vm_compute. apply list_elem_of_here.
  - exact Hkept.
Defined.

(** ** What reaches the file *)

Section Counts.
Import Exn LogStore.

Lemma magnitude_positive c : 1 <= magnitude c.
Proof. unfold magnitude. lia. Qed.

Lemma stored_magnitude_cons r l :
  stored_magnitude (r :: l) = magnitude (discoveryCount r) + stored_magnitude l.
Proof. reflexivity. Qed.

Lemma stored_magnitude_nonneg l : 0 <= stored_magnitude l.
Proof.
  induction l as [|r l IH]; [done|].
  rewrite stored_magnitude_cons.
  pose proof (magnitude_positive (discoveryCount r)). lia.
Qed.

Lemma stored_magnitude_app l1 l2 :
  stored_magnitude (l1 ++ l2) = stored_magnitude l1 + stored_magnitude l2.
Proof.
  induction l1 as [|r l1 IH]; [done|].
  change ((r :: l1) ++ l2) with (r :: (l1 ++ l2)).
  rewrite !stored_magnitude_cons, IH. lia.
Qed.

Lemma stored_magnitude_insert l i old new :
  l !! i = Some old →
  stored_magnitude (<[i := new]> l)
  = stored_magnitude l - magnitude (discoveryCount old) + magnitude (discoveryCount new).
Proof.
  revert i. induction l as [|r l IH]; intros [|i] Hold; try done.
  - injection Hold as ->. change (<[0%nat := new]> (old :: l)) with (new :: l).
    rewrite !stored_magnitude_cons. lia.
  - change (<[S i := new]> (r :: l)) with (r :: <[i := new]> l).
    rewrite !stored_magnitude_cons, (IH i Hold). lia.
Qed.

(** The magnitude of a record is part of the sum. *)
Lemma stored_magnitude_lookup l i r :
  l !! i = Some r → magnitude (discoveryCount r) <= stored_magnitude l.
Proof.
  revert i. induction l as [|r' l IH]; intros [|i] Hr; try done;
    rewrite stored_magnitude_cons.
  - injection Hr as ->. pose proof (stored_magnitude_nonneg l). lia.
  - pose proof (IH i Hr). pose proof (magnitude_positive (discoveryCount r')). lia.
Qed.

Lemma stored_magnitude_bounds l r :
  r ∈ l → Z.abs (discoveryCount r) <= stored_magnitude l.
Proof.
  intros [i Hi]%list_elem_of_lookup.
  pose proof (stored_magnitude_lookup l i r Hi). unfold magnitude in *. lia.
Qed.

(** An upload adds at most the magnitude of its count, and no sum is
    rounded on the way. *)
Lemma post_logs_counts b now w :
  indexed (self w) →
  stored_magnitude (logs (self w))
  + Z.abs (LogRoutes.number_or (LogRoutes.discoveryCount b) 1) <= 2 ^ 53 →
  stored_magnitude (logs (self (exec (LogRoutes.post_logs b now) w)))
  <= stored_magnitude (logs (self w))
     + Z.abs (LogRoutes.number_or (LogRoutes.discoveryCount b) 1).
Proof.
  intros Hs Hsmall. destruct (accepted b) eqn:Hacc;
    [|rewrite post_logs_rejected by done; lia].
  revert Hsmall. set (h := LogRoutes.number_or (LogRoutes.discoveryCount b) 1).
  intros Hsmall.
  assert (h ≠ 0) as Hh by by apply number_or_nonzero.
  destruct (fingerprintIndex (self w) !! Some (fingerprint_of b)) as [i|] eqn:Hfp.
  - destruct (proj1 (indexed_index _ Hs _ _) Hfp) as (old & Hold & _).
    unfold exec. rewrite (post_logs_known b now w i old Hacc Hfp Hold). cbn [snd].
    rewrite exec_scheduleAsyncSave_self. cbn [logs self with_logs].
    rewrite (stored_magnitude_insert _ _ old) by done.
    pose proof (stored_magnitude_lookup _ _ _ Hold) as Hm.
    cbn [LogRoutes.patch_existing discoveryCount]. fold h.
    set (c := LogRoutes.number_or (Some (discoveryCount old)) 1).
    assert (Z.abs c <= magnitude (discoveryCount old)) as Hcm.
    { subst c. unfold LogRoutes.number_or, magnitude.
      destruct (Z.eqb_spec (discoveryCount old) 0); lia. }
    rewrite plus_exact by lia.
    unfold magnitude in *. lia.
  - unfold exec. rewrite (post_logs_new b now w Hacc Hfp). cbn [snd].
    rewrite exec_scheduleAsyncSave_self. cbn -[fingerprint_of stored_magnitude].
    rewrite stored_magnitude_app, stored_magnitude_cons.
    cbn [stored_magnitude foldr LogRoutes.new_entry set_receivedAt discoveryCount].
    fold h. unfold magnitude. lia.
Qed.

Lemma uploaded_magnitude_nonneg requests : 0 <= uploaded_magnitude requests.
Proof.
  induction requests as [|[t [b|]] rest IH]; [done|..];
    cbn [uploaded_magnitude foldr snd]; fold (uploaded_magnitude rest); lia.
Qed.

Lemma served_counts (requests : list (Z * request)) : ∀ w,
  indexed (self w) → filed (self w) →
  stored_magnitude (logs (self w)) + uploaded_magnitude requests <= 2 ^ 53 →
  stored_magnitude (logs (self (fold_left serve requests w)))
  <= stored_magnitude (logs (self w)) + uploaded_magnitude requests.
Proof.
  induction requests as [|[now [b|]] requests IH]; intros w Hs Hfiled Hsmall;
    [simpl; lia|..].
  - cbn [fold_left].
    change (serve w (now, Post b))
      with (exec (LogRoutes.post_logs b now) (advance now w)).
    cbn [uploaded_magnitude foldr snd] in Hsmall |- *.
    fold (uploaded_magnitude requests) in Hsmall |- *.
    pose proof (uploaded_magnitude_nonneg requests) as Hrest.
    destruct (fire_due_store (S (length (timers (node w)))) now w) as [Hl Hi].
    fold (advance now w) in Hl, Hi.
    assert (indexed (self (advance now w))) as Hs' by by eapply indexed_same.
    assert (filed (self (advance now w))) as Hfiled' by (unfold filed; by rewrite Hl).
    destruct (post_logs_indexed b now (advance now w) Hs' Hfiled') as [H1 H2].
    pose proof (post_logs_counts b now (advance now w) Hs') as Hpost.
    rewrite Hl in Hpost. specialize (Hpost ltac:(lia)).
    specialize (IH _ H1 H2 ltac:(lia)). lia.
  - cbn [fold_left].
    change (serve w (now, Delete))
      with (exec (LogRoutes.delete_logs now) (advance now w)).
    cbn [uploaded_magnitude foldr snd] in Hsmall |- *.
    fold (uploaded_magnitude requests) in Hsmall |- *.
    destruct (delete_logs_indexed now (advance now w)) as [H1 H2].
    assert (logs (self (exec (LogRoutes.delete_logs now) (advance now w))) = []) as Hnil.
    { destruct (advance now w) as [[l ix sch pen] [f rd wr tm co ws]]. by destruct wr. }
    pose proof (stored_magnitude_nonneg (logs (self w))) as Hw.
    specialize (IH _ H1 H2). rewrite Hnil in IH. cbn [stored_magnitude foldr] in IH.
    specialize (IH ltac:(lia)). lia.
Qed.

End Counts.

(** X16.  What the backend has accepted reaches the file: started on an
    empty log file that can be written, after any requests in any rhythm,
    each of them a deletion or an upload of the shape the extension sends
    (strings for host name, method and path, arrays for query keys and
    status codes, integers for count and timestamp), with uploaded counts
    that add up to at most [2 ^ 53] in magnitude, once the clock has
    passed every armed timeout by a debounce window and no further request
    arrives, no timeout is armed any more and the file holds exactly the
    records of the store; their counts have been summed without rounding
    and are integers of at most [2 ^ 53], which the file renders
    exactly. *)
Theorem X16_served_store_reaches_file (requests : list (Z * request)) (until : Z)
    (Hcounts : uploaded_magnitude requests <= 2 ^ 53)
    (Hlate : Forall (fun d => d + LogStore.SAVE_DEBOUNCE_MS <= until)
               (LogStore.timers (LogStore.node (fold_left serve requests started)))) :
  let w := LogStore.advance until (fold_left serve requests started) in
  LogStore.timers (LogStore.node w) = []
  ∧ LogStore.file (LogStore.node w)
    = Some (LogStore.ArrayOf (Some <$> LogStore.logs (LogStore.self w)))
  ∧ LogStore.logs (LogStore.self w)
    = LogStore.logs (LogStore.self (fold_left serve requests started))
  ∧ (∀ r, r ∈ LogStore.logs (LogStore.self w) →
          Z.abs (LogStore.discoveryCount r) <= 2 ^ 53).
Proof.
  intros w. subst w.
  pose proof (advance_settles until _ Hlate) as Hidle.
  assert (LogStore.logs (LogStore.self
                           (LogStore.advance until (fold_left serve requests started)))
          = LogStore.logs (LogStore.self (fold_left serve requests started))) as Hlogs
    by apply fire_due_store.
  split; [exact Hidle|]. split; [|split; [exact Hlogs|]].
  - assert (flushed_or_armed (LogStore.advance until (fold_left serve requests started)))
      as (_ & _ & Hfile).
    { apply fire_due_flushed, served_flushed, flushed_or_armed_started. }
    by apply Hfile.
  - intros r Hr. rewrite Hlogs in Hr.
    pose proof (stored_magnitude_bounds _ _ Hr) as Hr'.
    pose proof (served_counts requests started) as Hsum.
    change (stored_magnitude (LogStore.logs (LogStore.self started))) with 0 in Hsum.
    etrans; [exact Hr'|]. etrans; [apply Hsum|lia].
    + eapply indexed_same; [| |exact indexed_fresh]; done.
    + by intros r' Hr''%elem_of_nil.
    + lia.
Qed.

Lemma X16_served_store_witness :
  LogStore.file
    (LogStore.node
       (LogStore.advance 20000
          (fold_left serve [(0, Post login_request); (1000, Post orders_request)] started)))
  = Some (LogStore.ArrayOf
            (Some <$> LogStore.logs
                        (LogStore.self
                           (LogStore.advance 20000
                              (fold_left serve
                                 [(0, Post login_request); (1000, Post orders_request)]
                                 started))))).
Proof.
  apply (X16_served_store_reaches_file
           [(0, Post login_request); (1000, Post orders_request)] 20000).
  - vm_compute. discriminate.
  - vm_compute. repeat constructor; intros H; discriminate H.
Defined.

(** ** Hidden assets *)

Section Extensions.

Lemma lower_char_dot c : Ascii.eqb (Js.lower_char c) "." = Ascii.eqb c ".".
Proof. destruct c as [[] [] [] [] [] [] [] []]; reflexivity. Qed.

(** Lower-casing does not move the dots. *)
Lemma split_toLowerCase p :
  Js.split "." (Js.toLowerCase p) = Js.toLowerCase <$> Js.split "." p.
Proof.
  induction p as [|c p IH]; [done|].
  cbn [Js.toLowerCase Js.split]. rewrite lower_char_dot, IH.
  destruct (Ascii.eqb c "."); [done|].
  by destruct (Js.split "." p).
Qed.

Lemma pop_fmap (f : string → string) (l : list string) :
  l ≠ [] → Js.pop (f <$> l) = f (Js.pop l).
Proof.
  unfold Js.pop. induction l as [|x l IH]; [done|]. intros _.
  destruct l as [|y l]; [done|].
  change (List.last (f <$> x :: y :: l) "") with (List.last (f <$> y :: l) "").
  change (List.last (x :: y :: l) "") with (List.last (y :: l) "").
  by apply IH.
Qed.

Lemma pop_toLowerCase p :
  Js.pop (Js.split "." (Js.toLowerCase p)) = Js.toLowerCase (Js.pop (Js.split "." p)).
Proof. rewrite split_toLowerCase. apply pop_fmap, split_nonempty. Qed.

(** A string that ends with [suffix] is some string followed by it. *)
Lemma endsWith_app suffix s :
  Js.endsWith suffix s = true → ∃ pre, s = pre +:+ suffix.
Proof.
  induction s as [|c s IH]; simpl.
  - rewrite orb_false_r. intros ->%String.eqb_eq. by exists "".
  - intros [->%String.eqb_eq|Hrest]%orb_true_iff; [by exists ""|].
    destruct (IH Hrest) as [pre ->]. by exists (String c pre).
Qed.

(** A split that gives one part found no dot. *)
Lemma split_single s h : Js.split "." s = [h] → dot_free s = true.
Proof.
  revert h. induction s as [|c s IH]; intros h; [done|]. simpl.
  destruct (Ascii.eqb c ".") eqn:Hc.
  - intros [= _ Hs]. by apply split_nonempty in Hs.
  - destruct (Js.split "." s) as [|h' t] eqn:Hs; [by apply split_nonempty in Hs|].
    intros [= _ ->]. simpl. by rewrite (IH h').
Qed.

Lemma dot_free_app pre e : dot_free (pre +:+ String "." e) = false.
Proof.
  induction pre as [|c pre IH]; [done|]. simpl. rewrite IH. apply andb_false_r.
Qed.

(** The text after the last dot. *)
Lemma pop_split_extension pre e :
  dot_free e = true → Js.pop (Js.split "." (pre +:+ String "." e)) = e.
Proof.
  intros He. induction pre as [|c pre IH].
  - simpl. by rewrite split_label.
  - rewrite append_cons. cbn [Js.split].
    destruct (Js.split "." (pre +:+ String "." e)) as [|h t] eqn:Hs;
      [by apply split_nonempty in Hs|].
    destruct (Ascii.eqb c "."); [exact IH|].
    destruct t as [|h' t].
    + apply split_single in Hs. by rewrite dot_free_app in Hs.
    + exact IH.
Qed.

(** A path that ends, in lower case, with a dot and an extension the
    backend ignores, is ignored by the extension test. *)
Lemma endsWith_ignored e p :
  dot_free e = true → e ∈ ExtensionFilter.IGNORE_EXTENSIONS →
  Js.endsWith (String "." e) (Js.toLowerCase p) = true →
  ExtensionFilter.has_ignored_extension p = true.
Proof.
  intros He Hin [pre Hpre]%endsWith_app.
  unfold ExtensionFilter.has_ignored_extension.
  rewrite <- pop_toLowerCase, Hpre, pop_split_extension by done.
  by apply bool_decide_eq_true.
Qed.

End Extensions.

Section HideAssets.
Import Exn LogStore.

(** For a path the extension test lets pass, [hideAssets] looks for
    [.js] only. *)
Lemma not_an_asset_script r :
  ExtensionFilter.has_ignored_extension (normalizedPath r) = false →
  LogRoutes.not_an_asset r
  = negb (Js.endsWith ".js" (Js.toLowerCase (normalizedPath r))).
Proof.
  intros Hext. unfold LogRoutes.not_an_asset, LogRoutes.assetExtensions.
  cbn [existsb]. f_equal.
  assert (∀ e, dot_free e = true → e ∈ ExtensionFilter.IGNORE_EXTENSIONS →
               Js.endsWith (String "." e) (Js.toLowerCase (normalizedPath r)) = false)
    as Hnone.
  { intros e He Hin. apply not_true_iff_false. intros Hends.
    apply (endsWith_ignored e) in Hends; [congruence|done|done]. }
  assert (∀ e, bool_decide (e ∈ ExtensionFilter.IGNORE_EXTENSIONS) = true →
               e ∈ ExtensionFilter.IGNORE_EXTENSIONS) as Hdec
    by (intros e; apply bool_decide_eq_true).
  rewrite (Hnone "css"), (Hnone "png"), (Hnone "jpg"), (Hnone "gif"), (Hnone "svg"),
    (Hnone "woff"), (Hnone "woff2"), (Hnone "ttf");
    try reflexivity; try (apply Hdec; vm_compute; reflexivity).
  by rewrite !orb_false_r.
Qed.

End HideAssets.

(** X24.  Of the nine extensions [hideAssets] hides, the store behind
    the ingest handler can only hold [.js]: a path ending in [.css],
    [.png], [.jpg], [.gif], [.svg], [.woff], [.woff2] or [.ttf] is
    ignored at ingest.  So for every record of that store the filter of
    [hideAssets] keeps the record exactly when its path, in lower case,
    does not end in [.js]. *)
Theorem X24_hideAssets_hides_scripts
    (requests : list (Z * request)) (r : LogStore.LogEntry)
    (Hin : r ∈ LogStore.logs (LogStore.self (fold_left serve requests started))) :
  LogRoutes.not_an_asset r
  = negb (Js.endsWith ".js" (Js.toLowerCase (LogStore.normalizedPath r)))
  ∧ ∀ ext, ext ∈ LogRoutes.assetExtensions → ext ≠ ".js" →
      Js.endsWith ext (Js.toLowerCase (LogStore.normalizedPath r)) = false.
Proof.
  destruct (served_as_ingested requests started) with (r := r) as (Hacc & _).
  - eapply indexed_same; [| |exact indexed_fresh]; done.
  - by intros r' Hr%elem_of_nil.
  - by intros r' Hr%elem_of_nil.
  - exact Hin.
  - assert (ExtensionFilter.has_ignored_extension (LogStore.normalizedPath r) = false)
      as Hext.
    { apply accepted_guards in Hacc as (_ & _ & Hignore).
      unfold ExtensionFilter.shouldIgnore, observation in Hignore.
      cbn [LogRoutes.normalizedPath] in Hignore.
      by destruct (ExtensionFilter.has_ignored_extension _). }
    split; [by apply not_an_asset_script|].
    intros ext Hext' Hjs. unfold LogRoutes.assetExtensions in Hext'.
    apply not_true_iff_false. intros Hends.
    repeat (apply elem_of_cons in Hext' as [->|Hext'];
            [first [done
                   |apply endsWith_ignored in Hends;
                    [congruence|reflexivity
                    |apply (bool_decide_unpack _); vm_compute; reflexivity]]|]).
    by apply elem_of_nil in Hext'.
Qed.

Lemma X24_hideAssets_witness :
  LogRoutes.not_an_asset
    (LogStore.set_receivedAt 0
       (LogRoutes.new_entry 0 login_request (fingerprint_of login_request)))
  = true.
Proof.
  destruct (X24_hideAssets_hides_scripts [(0, Post login_request)]
              (LogStore.set_receivedAt 0
                 (LogRoutes.new_entry 0 login_request (fingerprint_of login_request))))
    as (Hkeep & _).
  - vm_compute. apply list_elem_of_here.
  - rewrite Hkeep. vm_compute. reflexivity.
Defined.

(** ** Letter case and shape of the classification *)

Section ClassificationCase.

Lemma upper_upper_char c : Js.upper_char (Js.upper_char c) = Js.upper_char c.
Proof.
  apply ascii_code_inj. rewrite !upper_char_code. cbv zeta.
  destruct (Nat.leb_spec 97 (nat_of_ascii c)), (Nat.leb_spec (nat_of_ascii c) 122);
    cbn [andb]; try lia;
    repeat match goal with
           | |- context [Nat.leb ?a ?b] => destruct (Nat.leb_spec a b)
           end; cbn [andb]; lia.
Qed.

Lemma upper_lower_char c : Js.upper_char (Js.lower_char c) = Js.upper_char c.
Proof.
  apply ascii_code_inj. rewrite !upper_char_code, lower_char_code. cbv zeta.
  destruct (Nat.leb_spec 97 (nat_of_ascii c)), (Nat.leb_spec (nat_of_ascii c) 122),
    (Nat.leb_spec 65 (nat_of_ascii c)), (Nat.leb_spec (nat_of_ascii c) 90);
    cbn [andb]; try lia;
    repeat match goal with
           | |- context [Nat.leb ?a ?b] => destruct (Nat.leb_spec a b)
           end; cbn [andb]; lia.
Qed.

Lemma toUpperCase_idem s : Js.toUpperCase (Js.toUpperCase s) = Js.toUpperCase s.
Proof. induction s as [|c s IH]; [done|]. simpl. by rewrite upper_upper_char, IH. Qed.

Lemma toUpperCase_toLowerCase s : Js.toUpperCase (Js.toLowerCase s) = Js.toUpperCase s.
Proof. induction s as [|c s IH]; [done|]. simpl. by rewrite upper_lower_char, IH. Qed.

Lemma is_digit_upper c : Regex.is_digit (Js.upper_char c) = Regex.is_digit c.
Proof.
  unfold Regex.is_digit. rewrite upper_char_code. cbv zeta.
  destruct (Nat.leb_spec 97 (nat_of_ascii c)), (Nat.leb_spec (nat_of_ascii c) 122);
    cbn [andb]; try done.
  repeat match goal with
         | |- context [Nat.leb ?a ?b] => destruct (Nat.leb_spec a b)
         end; cbn [andb]; try done; lia.
Qed.

Lemma length_toUpperCase s : String.length (Js.toUpperCase s) = String.length s.
Proof. induction s as [|c s IH]; [done|]. simpl. by rewrite IH. Qed.

Lemma flat_map_fmap {A B C} (f : A → B) (g : B → list C) (l : list A) :
  flat_map g (f <$> l) = flat_map (fun x => g (f x)) l.
Proof.
  induction l as [|x l IH]; [done|].
  rewrite fmap_cons. cbn [flat_map]. by rewrite IH.
Qed.

Lemma fmap_flat_map {A B C} (f : B → C) (g : A → list B) (l : list A) :
  f <$> flat_map g l = flat_map (fun x => f <$> g x) l.
Proof.
  induction l as [|x l IH]; [done|].
  cbn [flat_map]. by rewrite fmap_app, IH.
Qed.

Lemma flat_map_ext' {A B} (f g : A → list B) (l : list A) :
  (∀ x, f x = g x) → flat_map f l = flat_map g l.
Proof. intros H. induction l as [|x l IH]; [done|]. simpl. by rewrite H, IH. Qed.

(** The rounds of [+] on the input in upper case. *)
Lemma plus_iter_upper (step : string → list string) fuel s :
  (∀ s', step (Js.toUpperCase s') = Js.toUpperCase <$> step s') →
  Regex.plus_iter step fuel (Js.toUpperCase s)
  = Js.toUpperCase <$> Regex.plus_iter step fuel s.
Proof.
  intros Hstep. revert s. induction fuel as [|fuel IH]; intros s.
  - cbn [Regex.plus_iter]. rewrite Hstep, flat_map_fmap, fmap_flat_map.
    apply flat_map_ext'. intros s'. done.
  - cbn [Regex.plus_iter]. rewrite Hstep, flat_map_fmap, fmap_flat_map.
    apply flat_map_ext'. intros s'. rewrite !length_toUpperCase.
    destruct (Nat.ltb _ _); [|done].
    by rewrite fmap_app, IH.
Qed.

(** Under the [i] flag a pattern matches the input in upper case as it
    matches the input. *)
Lemma match_prefix_upper r s :
  Regex.match_prefix true r (Js.toUpperCase s)
  = Js.toUpperCase <$> Regex.match_prefix true r s.
Proof.
  revert s. induction r as [|c| |a IHa b IHb|a IHa b IHb|a IHa|a IHa]; intros s.
  - done.
  - destruct s as [|x s]; [done|]. cbn [Js.toUpperCase Regex.match_prefix Regex.canon].
    rewrite upper_upper_char. by destruct (Ascii.eqb _ _).
  - destruct s as [|x s]; [done|]. cbn [Js.toUpperCase Regex.match_prefix].
    rewrite is_digit_upper. by destruct (Regex.is_digit x).
  - cbn [Regex.match_prefix]. rewrite IHa, flat_map_fmap, fmap_flat_map.
    by apply flat_map_ext'.
  - cbn [Regex.match_prefix]. by rewrite IHa, IHb, fmap_app.
  - cbn [Regex.match_prefix]. by rewrite IHa, fmap_app.
  - cbn [Regex.match_prefix]. rewrite length_toUpperCase.
    by apply plus_iter_upper.
Qed.

Lemma test_upper r s : Regex.test true r (Js.toUpperCase s) = Regex.test true r s.
Proof.
  induction s as [|c s IH].
  - done.
  - cbn [Js.toUpperCase Regex.test]. rewrite IH. f_equal.
    unfold Regex.matches_at.
    change (String (Js.upper_char c) (Js.toUpperCase s))
      with (Js.toUpperCase (String c s)).
    rewrite match_prefix_upper. by destruct (Regex.match_prefix true r (String c s)).
Qed.

Lemma truthy_string_upper s :
  RequestProcessor.truthy_string (Js.toUpperCase s) = RequestProcessor.truthy_string s.
Proof. by destruct s. Qed.

(** What [classifyRequest] reads of the method and of the path. *)
Lemma classifyRequest_upper method path hostname hostname' statusCode isPrimaryContext :
  RequestProcessor.classifyRequest method path hostname statusCode isPrimaryContext
  = RequestProcessor.classifyRequest (Js.toUpperCase method) (Js.toUpperCase path)
      hostname' statusCode isPrimaryContext.
Proof.
  unfold RequestProcessor.classifyRequest. rewrite !classify_path.
  assert (RequestProcessor.isStateChangingMethod (Js.toUpperCase method)
          = RequestProcessor.isStateChangingMethod method) as ->.
  { unfold RequestProcessor.isStateChangingMethod.
    by rewrite truthy_string_upper, toUpperCase_idem. }
  assert (RequestProcessor.hasActionWords (Js.toUpperCase path)
          = RequestProcessor.hasActionWords path) as ->.
  { unfold RequestProcessor.hasActionWords.
    by rewrite truthy_string_upper, toLowerCase_toUpperCase. }
  by rewrite !test_upper.
Qed.

End ClassificationCase.

(** X28.  [classifyRequest] reads the method and the path without
    regard to letter case, and does not read the host name at all: two
    requests whose methods and whose paths differ in letter case only get
    the same tags, the same score and the same [critical], whatever their
    host names. *)
Theorem X28_classifyRequest_ignores_case
    (method method' path path' hostname hostname' : string) (statusCode : Z)
    (isPrimaryContext : bool)
    (Hmethod : Js.toUpperCase method' = Js.toUpperCase method)
    (Hpath : Js.toUpperCase path' = Js.toUpperCase path) :
  RequestProcessor.classifyRequest method' path' hostname' statusCode isPrimaryContext
  = RequestProcessor.classifyRequest method path hostname statusCode isPrimaryContext.
Proof.
  rewrite (classifyRequest_upper method' path' hostname' hostname).
  rewrite (classifyRequest_upper method path hostname hostname).
  by rewrite Hmethod, Hpath.
Qed.

Lemma X28_classifyRequest_witness :
  RequestProcessor.classifyRequest "post" "/API/Users/Login" "example.org" 200 true
  = RequestProcessor.classifyRequest "POST" "/api/users/login" "api.example.com" 200 true.
Proof.
  apply (X28_classifyRequest_ignores_case "POST" "post" "/api/users/login"
           "/API/Users/Login" "api.example.com" "example.org" 200 true);
    reflexivity.
Defined.

Section ClassificationShape.

Lemma startsWith_two a b s :
  Js.startsWith (String a "") s = true → Js.startsWith (String b "") s = true → a = b.
Proof.
  destruct s as [|c s]; [done|]. simpl. rewrite !andb_true_r.
  intros <-%Ascii.eqb_eq <-%Ascii.eqb_eq. done.
Qed.

Lemma status_4_or_5 statusCode :
  RequestProcessor.status_starts_with "5" statusCode
  && RequestProcessor.status_starts_with "4" statusCode = false.
Proof.
  unfold RequestProcessor.status_starts_with.
  destruct (RequestProcessor.truthy_number statusCode); [|done]. cbn [andb].
  destruct (Js.startsWith "5" _) eqn:H5; [|done].
  destruct (Js.startsWith "4" _) eqn:H4; [|done].
  by pose proof (startsWith_two _ _ _ H5 H4).
Qed.

End ClassificationShape.

(** X29.  Whatever the request, [classifyRequest] gives a score from 0
    to 100 that is a multiple of 5, and tags without repetition: at most
    seven of them, since [server-error] and [client-error] exclude each
    other, and at least one, the last tag being [primary-context] or
    [cross-origin] according to the context; the other of the two does
    not occur.  A request is critical only if at least two of the five
    criteria of the score hold. *)
Theorem X29_classifyRequest_shape
    (method path hostname : string) (statusCode : Z) (isPrimaryContext : bool) :
  let c := RequestProcessor.classifyRequest method path hostname statusCode
             isPrimaryContext in
  let criteria :=
    ((if RequestProcessor.isStateChangingMethod method then 1 else 0)
     + (if RequestProcessor.hasActionWords path then 1 else 0)
     + (if Js.arr_includes "authentication" (RequestProcessor.tags c) then 1 else 0)
     + (if Js.arr_includes "api-endpoint" (RequestProcessor.tags c) then 1 else 0)
     + (if RequestProcessor.status_starts_with "5" statusCode then 1 else 0))%nat in
  0 <= RequestProcessor.score c <= 100
  ∧ RequestProcessor.score c mod 5 = 0
  ∧ NoDup (RequestProcessor.tags c)
  ∧ (1 <= length (RequestProcessor.tags c) <= 7)%nat
  ∧ Js.arr_includes "server-error" (RequestProcessor.tags c)
    && Js.arr_includes "client-error" (RequestProcessor.tags c) = false
  ∧ last (RequestProcessor.tags c)
    = Some (if isPrimaryContext then "primary-context" else "cross-origin")
  ∧ Js.arr_includes "primary-context" (RequestProcessor.tags c) = isPrimaryContext
  ∧ Js.arr_includes "cross-origin" (RequestProcessor.tags c) = negb isPrimaryContext
  ∧ (if RequestProcessor.critical c then 2 <=? criteria else true)%nat = true.
Proof.
  intros c criteria. subst c criteria.
  pose proof (status_4_or_5 statusCode) as Hstatus.
  unfold RequestProcessor.classifyRequest. rewrite classify_path.
  cbn [RequestProcessor.tags RequestProcessor.score RequestProcessor.critical].
  destruct (RequestProcessor.status_starts_with "5" statusCode),
    (RequestProcessor.status_starts_with "4" statusCode); try discriminate Hstatus;
    destruct (Regex.test true RequestProcessor.AUTH_PATTERN path),
      (Regex.test true RequestProcessor.API_PATTERN path),
      (RequestProcessor.isStateChangingMethod method),
      (Regex.test true RequestProcessor.INFRA_PATTERN path),
      (RequestProcessor.hasActionWords path), isPrimaryContext;
    cbn [RequestProcessor.push_if app];
    (split; [vm_compute; split; discriminate|]);
    (split; [reflexivity|]);
    (split; [apply (bool_decide_unpack _); vm_compute; reflexivity|]);
    (split; [cbn [length]; lia|]);
    repeat split; reflexivity.
Qed.

(** ** The extension test *)

Section ExtensionTest.

Lemma app_endsWith pre suffix : Js.endsWith suffix (pre +:+ suffix) = true.
Proof.
  induction pre as [|c pre IH].
  - change ("" +:+ suffix) with suffix.
    destruct suffix; cbn [Js.endsWith]; by rewrite String.eqb_refl.
  - rewrite append_cons. cbn [Js.endsWith]. by rewrite IH, orb_true_r.
Qed.

(** A string is the text after its last dot, or something, a dot and
    that text. *)
Lemma pop_split_cases s :
  Js.pop (Js.split "." s) = s
  ∨ ∃ pre, s = pre +:+ String "." (Js.pop (Js.split "." s)).
Proof.
  induction s as [|c s IH]; [by left|].
  cbn [Js.split].
  destruct (Js.split "." s) as [|h t] eqn:Hs; [by apply split_nonempty in Hs|].
  destruct (Ascii.eqb_spec c ".") as [->|Hc].
  - right. change (Js.pop ("" :: h :: t)) with (Js.pop (h :: t)).
    destruct IH as [IH|[pre IH]].
    + exists "". by rewrite IH.
    + exists (String "." pre). by rewrite IH at 1.
  - destruct t as [|h' t].
    + left. apply split_single in Hs as Hfree.
      rewrite split_label in Hs by done. by injection Hs as ->.
    + right. change (Js.pop (String c h :: h' :: t)) with (Js.pop (h :: h' :: t)).
      destruct IH as [IH|[pre IH]].
      * assert (dot_free s = false) as Hdot.
        { destruct (dot_free s) eqn:Hfree; [|done].
          rewrite split_label in Hs by done. discriminate Hs. }
        exfalso. rewrite <- IH in Hdot.
        assert (Forall (fun l => dot_free l = true) (h :: h' :: t)) as Hall
          by (rewrite <- Hs; apply split_dot_free).
        assert (dot_free (Js.pop (h :: h' :: t)) = true); [|congruence].
        unfold Js.pop. clear -Hall. revert Hall. generalize (h :: h' :: t).
        intros l Hall. induction Hall as [|x l Hx Hl IHl]; [done|].
        destruct l; [done|]. exact IHl.
      * exists (String c pre). by rewrite IH at 1.
Qed.

Lemma lower_lower_char c : Js.lower_char (Js.lower_char c) = Js.lower_char c.
Proof.
  apply ascii_code_inj. rewrite !lower_char_code. cbv zeta.
  destruct (Nat.leb_spec 65 (nat_of_ascii c)), (Nat.leb_spec (nat_of_ascii c) 90);
    cbn [andb]; try lia;
    repeat match goal with
           | |- context [Nat.leb ?a ?b] => destruct (Nat.leb_spec a b)
           end; cbn [andb]; lia.
Qed.

Lemma toLowerCase_idem s : Js.toLowerCase (Js.toLowerCase s) = Js.toLowerCase s.
Proof. induction s as [|c s IH]; [done|]. simpl. by rewrite lower_lower_char, IH. Qed.

Lemma ignored_extension_dot_free ext :
  ext ∈ ExtensionFilter.IGNORE_EXTENSIONS → dot_free ext = true.
Proof.
  unfold ExtensionFilter.IGNORE_EXTENSIONS. rewrite elem_of_list_to_set.
  intros Hin.
  repeat (apply elem_of_cons in Hin as [->|Hin]; [reflexivity|]).
  by apply elem_of_nil in Hin.
Qed.

End ExtensionTest.

(** X30.  The extension test of [shouldIgnore] is a test of the end of
    the path: it holds exactly when the path in lower case ends with a
    dot and one of the ignored extensions, or, having no dot at all, is
    such an extension itself.  So it does not depend on the letter case
    of the path. *)
Theorem X30_extension_test_reads_the_end (normalizedPath : string) :
  (ExtensionFilter.has_ignored_extension normalizedPath = true
   ↔ ∃ ext, ext ∈ ExtensionFilter.IGNORE_EXTENSIONS
            ∧ (Js.toLowerCase normalizedPath = ext
               ∨ Js.endsWith (String "." ext) (Js.toLowerCase normalizedPath) = true))
  ∧ ExtensionFilter.has_ignored_extension (Js.toUpperCase normalizedPath)
    = ExtensionFilter.has_ignored_extension normalizedPath
  ∧ ExtensionFilter.has_ignored_extension (Js.toLowerCase normalizedPath)
    = ExtensionFilter.has_ignored_extension normalizedPath.
Proof.
  split; [split|split].
  - unfold ExtensionFilter.has_ignored_extension. rewrite <- pop_toLowerCase.
    intros Hin%bool_decide_eq_true.
    exists (Js.pop (Js.split "." (Js.toLowerCase normalizedPath))). split; [done|].
    destruct (pop_split_cases (Js.toLowerCase normalizedPath)) as [Heq|[pre Heq]].
    + by left.
    + right. rewrite Heq at 2. apply app_endsWith.
  - intros (ext & Hin & [Heq|Hends]).
    + unfold ExtensionFilter.has_ignored_extension.
      rewrite <- pop_toLowerCase, Heq, split_label
        by by apply ignored_extension_dot_free.
      by apply bool_decide_eq_true.
    + apply (endsWith_ignored ext); [by apply ignored_extension_dot_free|done|done].
  - unfold ExtensionFilter.has_ignored_extension.
    by rewrite <- !pop_toLowerCase, toLowerCase_toUpperCase.
  - unfold ExtensionFilter.has_ignored_extension.
    by rewrite <- !pop_toLowerCase, toLowerCase_idem.
Qed.
